(** * Afroboost campaign scheduler: a shallow embedding of
    [backend/scheduler.py] and the properties of its dispatcher.

    The store (MongoDB), the user directory and the HTTP delivery endpoint
    are modelled by explicit state passing:
    - documents are records whose fields follow the pydantic models of
      [backend/server.py] ([Campaign], [CampaignResult], [User]) extended
      with the fields only the scheduler reads and writes
      ([scheduledDates], [sentDates], [retryCounts], [lastProcessedAt]);
      a field read with [doc.get(k, default)] holds [default] when the
      document lacks it;
    - the network is an oracle giving the outcome of the n-th HTTP call
      together with the trace of the calls made so far;
    - [datetime.fromisoformat] and [datetime.isoformat], which belong to
      the Python library, are parameters of the development;
    - a Python [str] is held as its UTF-8 encoding, one [ascii] per byte;
      where the code counts characters ([s[:200]], [s[-6:]]) the model
      counts code points, not bytes.

    Logging has no effect on the state and is left out. The documents are
    typed, so the exceptions [run_scheduler] catches around
    [process_campaign] (unexpected shapes, store errors) do not arise. *)

From stdpp Require Import base decidable option list strings gmap pretty.
From Stdlib Require Import ZArith Lia Ascii.

Open Scope Z_scope.
Open Scope string_scope.
Open Scope list_scope.

(** ** Documents *)

(** [Campaign.status]: "draft", "scheduled", "sending", "completed" and,
    written by the scheduler only, "failed". *)
Inductive Status := draft | scheduled | sending | completed | failed.

(** [CampaignResult.status]: "pending", "sent", "failed". *)
Inductive ResultStatus := r_pending | r_sent | r_failed.

#[global] Instance Status_eq_dec : EqDecision Status.
Proof. solve_decision. Defined.

#[global] Instance ResultStatus_eq_dec : EqDecision ResultStatus.
Proof. solve_decision. Defined.

(** A user of the directory ([db.users]); a missing [email] or [name] reads
    as the empty string, as [contact.get("email", "")] does. *)
Record Contact := mkContact {
  c_id : string;
  c_name : string;
  c_email : string
}.

(** One entry of [campaign["results"]]. The entries written by the
    scheduler carry no [contactPhone]; those prepared by the launch
    endpoint do. *)
Record ResultEntry := mkResult {
  r_contactId : string;
  r_contactName : string;
  r_contactEmail : string;
  r_contactPhone : option string;
  r_channel : string;
  r_status : ResultStatus;
  r_sentAt : option string
}.

#[global] Instance ResultEntry_eq_dec : EqDecision ResultEntry.
Proof. solve_decision. Defined.

Record Campaign := mkCampaign {
  id : string;
  name : string;
  message : string;
  mediaUrl : string;
  targetType : string;
  selectedContacts : list string;
  channels : gmap string bool;
  scheduledAt : option string;
  scheduledDates : list string;
  sentDates : list string;
  status : Status;
  results : list ResultEntry;
  retryCounts : gmap string Z;
  updatedAt : string;
  lastProcessedAt : option string
}.

(** The store: the two collections the scheduler touches. *)
Record Db := mkDb {
  db_campaigns : list Campaign;
  db_users : list Contact
}.

(** ** The world outside the process *)

(** The JSON body of [POST /api/campaigns/send-email]. *)
Record Payload := mkPayload {
  to_email : string;
  to_name : string;
  subject : string;
  p_message : string;
  media_url : option string
}.

(** The values the second component of [send_campaign_email]'s result can
    be: [None], a [str], or a decoded JSON value that is neither [null]
    nor a string (a number, a boolean, an array or an object), kept by its
    JSON text. *)
Inductive PyValue :=
  | PyNone
  | PyStr (s : string)
  | PyJson (json_text : string).

(** The decoded body of a 200 answer as the client reads it:
    [sr_success] is the truth value of [result.get("success")];
    [sr_error] is the value under the key ["error"], [None] when the body
    has no such key and [Some PyNone] when it holds [null]. *)
Record SendResult := mkSendResult {
  sr_success : bool;
  sr_error : option PyValue
}.

(** What [requests.post] followed by [response.json()] can do:
    answer with a status code, the raw text and the decoded body (or the
    text of the exception raised when the body is decoded and read:
    [response.json()] on a body that is no JSON, [result.get] on a body
    that is no object), raise [requests.Timeout], or raise any other
    exception, whose [str] is kept. *)
Inductive HttpOutcome :=
  | Response (status_code : Z) (text : string) (json : string + SendResult)
  | RaisesTimeout
  | RaisesOther (msg : string).

(** The world: the outcome of the n-th HTTP call and the calls made so far
    (most recent last), the n-th reading of the UTC clock (an instant, in
    any fixed unit) and the number of readings made so far. Each call is
    recorded with the campaign id and the contact it was made for, [None]
    when [send_campaign_email] is called on its own. *)
Record World := mkWorld {
  net_oracle : nat → HttpOutcome;
  net_calls : list (option (string * Contact) * Payload);
  clock : nat → Z;
  ticks : nat
}.

Definition requests_post (who : option (string * Contact)) (p : Payload) (w : World)
  : HttpOutcome * World :=
  (net_oracle w (length (net_calls w)),
   mkWorld (net_oracle w) (net_calls w ++ [(who, p)]) (clock w) (ticks w)).

(** [get_current_utc_time]: [datetime.now(timezone.utc)], as an instant. *)
Definition get_current_utc_time (w : World) : Z * World :=
  (clock w (ticks w),
   mkWorld (net_oracle w) (net_calls w) (clock w) (S (ticks w))).

(** [bool(s)] of a Python string. *)
Definition truthy (s : string) : bool :=
  match s with EmptyString => false | _ => true end.

(** ** Characters *)

(** A byte [10xxxxxx] continues the character the bytes before it began;
    every other byte begins a character. *)
Definition is_continuation (a : Ascii.ascii) : bool :=
  match a with
  | Ascii.Ascii _ _ _ _ _ _ b6 b7 => b7 && negb b6
  end.

(** [len(s)]: the number of characters. *)
Fixpoint char_length (s : string) : nat :=
  match s with
  | EmptyString => O
  | String a s' => if is_continuation a then char_length s' else S (char_length s')
  end.

(** [s[:n]]: the first [n] characters, each with all its bytes. *)
Fixpoint take_chars (n : nat) (s : string) : string :=
  match s with
  | EmptyString => EmptyString
  | String a s' =>
      if is_continuation a then String a (take_chars n s')
      else match n with
           | O => EmptyString
           | S n' => String a (take_chars n' s')
           end
  end.

(** [s[n:]]: what is left without the first [n] characters. *)
Fixpoint drop_chars (n : nat) (s : string) : string :=
  match s with
  | EmptyString => EmptyString
  | String a s' =>
      if is_continuation a then drop_chars n s'
      else match n with
           | O => s
           | S n' => drop_chars n' s'
           end
  end.

(** ** The delivery client *)

(** [send_campaign_email]: one call, no exception escapes. The extra first
    argument only labels the call in the trace. For a 200 answer without
    a true success flag the second component is
    [result.get("error", "Erreur inconnue")]: the value of the body's
    ["error"] key whatever it is ([None] for [null]), the default text
    only when the key is absent. *)
Definition send_campaign_email (who : option (string * Contact))
    (to_email to_name subject message : string) (media_url : option string)
    (w : World) : (bool * PyValue) * World :=
  let payload :=
    mkPayload to_email to_name subject message
      (match media_url with
       | Some m => if truthy m then Some m else None
       | None => None
       end) in
  let '(out, w') := requests_post who payload w in
  match out with
  | Response code text json =>
      if bool_decide (code = 200) then
        match json with
        | inr result =>
            if sr_success result then ((true, PyNone), w')
            else ((false, default (PyStr "Erreur inconnue") (sr_error result)), w')
        | inl exn => ((false, PyStr exn), w')
        end
      else
        ((false, PyStr ("HTTP " +:+ pretty code +:+ ": " +:+ take_chars 200 text)), w')
  | RaisesTimeout => ((false, PyStr "Timeout lors de l'envoi"), w')
  | RaisesOther msg => ((false, PyStr msg), w')
  end.

(** ** Dates *)

(** A Python [datetime]: the instant its fields denote when read as UTC,
    and its [tzinfo] as an offset from UTC ([None] for a naive value). *)
Record datetime := mkDatetime {
  dt_fields : Z;
  dt_tzinfo : option Z
}.

(** [dt.replace(tzinfo=timezone.utc)]. *)
Definition replace_tzinfo_utc (dt : datetime) : datetime :=
  mkDatetime (dt_fields dt) (Some 0).

(** The instant an aware [datetime] denotes; comparisons between aware
    values compare these. *)
Definition instant (dt : datetime) : Z :=
  dt_fields dt - default 0 (dt_tzinfo dt).

(** [c in s]. *)
Fixpoint contains_char (c : Ascii.ascii) (s : string) : bool :=
  match s with
  | EmptyString => false
  | String a s' => if Ascii.eqb a c then true else contains_char c s'
  end.

(** [s.replace('Z', '+00:00')]. *)
Fixpoint replace_Z (s : string) : string :=
  match s with
  | EmptyString => EmptyString
  | String a s' =>
      if Ascii.eqb a "Z"%char then "+00:00" +:+ replace_Z s'
      else String a (replace_Z s')
  end.

(** [s[-6:]]: the last six characters, the whole string when it has
    fewer. *)
Definition last6 (s : string) : string :=
  drop_chars (char_length s - 6) s.

(** ** Store operations *)

(** A MongoDB update document restricted to what the scheduler sends:
    the fields of [$set] and the [$each] list of
    [$addToSet: {sentDates: ...}]. *)
Record Update := mkUpdate {
  set_status : option Status;
  set_results : option (list ResultEntry);
  set_sentDates : option (list string);
  set_retryCounts : option (gmap string Z);
  set_updatedAt : option string;
  set_lastProcessedAt : option string;
  addToSet_sentDates : list string
}.

(** [$addToSet] with [$each]: every value not yet in the array is appended,
    in order. *)
Definition add_to_set (arr each : list string) : list string :=
  fold_left (λ acc d, if bool_decide (d ∈ acc) then acc else acc ++ [d]) each arr.

Definition apply_update (u : Update) (c : Campaign) : Campaign :=
  mkCampaign (id c) (name c) (message c) (mediaUrl c) (targetType c)
    (selectedContacts c) (channels c) (scheduledAt c) (scheduledDates c)
    (add_to_set (default (sentDates c) (set_sentDates u)) (addToSet_sentDates u))
    (default (status c) (set_status u))
    (default (results c) (set_results u))
    (default (retryCounts c) (set_retryCounts u))
    (default (updatedAt c) (set_updatedAt u))
    (match set_lastProcessedAt u with
     | Some t => Some t
     | None => lastProcessedAt c
     end).

(** [db.campaigns.update_one({"id": campaign_id}, u)]: the first document
    with that id is updated, none when there is no such document. *)
Fixpoint update_first (campaign_id : string) (u : Update) (cs : list Campaign)
  : list Campaign :=
  match cs with
  | [] => []
  | c :: cs' =>
      if bool_decide (id c = campaign_id) then apply_update u c :: cs'
      else c :: update_first campaign_id u cs'
  end.

Definition update_one (campaign_id : string) (u : Update) (db : Db) : Db :=
  mkDb (update_first campaign_id u (db_campaigns db)) (db_users db).

(** [db.campaigns.find_one({"id": campaign_id})]. *)
Definition find_one (campaign_id : string) (db : Db) : option Campaign :=
  List.find (λ c, bool_decide (id c = campaign_id)) (db_campaigns db).

(** [db.users.find({})] and [db.users.find({"id": {"$in": selected}})]. *)
Definition find_all_users (db : Db) : list Contact := db_users db.

Definition find_users_in (selected : list string) (db : Db) : list Contact :=
  List.filter (λ u, bool_decide (c_id u ∈ selected)) (db_users db).

(** [db.campaigns.find({"status": {"$in": ["scheduled", "sending"]}})]. *)
Definition find_scheduled (db : Db) : list Campaign :=
  List.filter (λ c, bool_decide (status c ∈ [scheduled; sending])) (db_campaigns db).

(** ** The dispatcher *)

(** [MAX_RETRY_ATTEMPTS]. *)
Definition MAX_RETRY_ATTEMPTS : Z := 3.

(** The state of the per-contact loop of [process_campaign]:
    [success_count], [fail_count], and the two objects it mutates in
    place, [results] and [retry_counts]. *)
Record LoopState := mkLoop {
  success_count : nat;
  fail_count : nat;
  l_results : list ResultEntry;
  l_retry_counts : gmap string Z
}.

(** [r.get("contactId") == contact_id and r.get("channel") == "email"]. *)
Definition is_email_result_of (contact_id : string) (r : ResultEntry) : bool :=
  bool_decide (r_contactId r = contact_id) && bool_decide (r_channel r = "email").

(** The [any(...)] of the "already sent" test. *)
Definition already_sent (contact_id : string) (rs : list ResultEntry) : bool :=
  existsb (λ r, is_email_result_of contact_id r && bool_decide (r_status r = r_sent)) rs.

(** The search loop that overwrites the first matching entry and breaks,
    or appends when none matches. *)
Fixpoint upsert_result (contact_id : string) (entry : ResultEntry)
    (rs : list ResultEntry) : list ResultEntry :=
  match rs with
  | [] => [entry]
  | r :: rs' =>
      if is_email_result_of contact_id r then entry :: rs'
      else r :: upsert_result contact_id entry rs'
  end.

(** [f"{contact_id}_email"]. *)
Definition retry_key_of (contact_id : string) : string := contact_id +:+ "_email".

(** [set(a) >= set(b)]. *)
Definition set_ge (a b : list string) : bool :=
  bool_decide (list_to_set b ⊆@{gset string} list_to_set a).

(** [list(set(l))]. Python leaves the order of this list unspecified
    (it may differ from one process to the next); the order of [elements]
    stands for it. The properties below use its members and the absence
    of duplicates only, and compare the stores of two runs up to the
    order of [sentDates] ([same_up_to_order]). *)
Definition list_of_set (l : list string) : list string :=
  elements (list_to_set l : gset string).

(** The reduction of the counts and the date test to the new status. *)
Definition new_status_of (success_count fail_count : nat) (all_dates_processed : bool)
  : Status :=
  if bool_decide (0 < fail_count)%nat && bool_decide (success_count = 0%nat) then failed
  else if all_dates_processed then completed
  else scheduled.

(** ** Concrete data

    The values on which the properties below are exercised. The two
    date functions are [datetime.fromisoformat] and [isoformat] on the few
    strings and instants that occur, in seconds since the epoch. *)

Definition fromisoformat_ex (s : string) : option datetime :=
  if bool_decide (s = "2024-01-01T00:00:00+00:00") then Some (mkDatetime 1704067200 (Some 0))
  else if bool_decide (s = "2024-01-03T00:00:00+00:00") then Some (mkDatetime 1704240000 (Some 0))
  else if bool_decide (s = "2024-01-01T00:00:00") then Some (mkDatetime 1704067200 None)
  else None.

Definition isoformat_ex (t : Z) : string :=
  if bool_decide (t = 1704153600) then "2024-01-02T00:00:00+00:00" else "".

(** 2024-01-02T00:00:00Z. *)
Definition jan2 : Z := 1704153600.

Definition alice : Contact := mkContact "u1" "Alice" "alice@example.org".

(** A user without an email address. *)
Definition bob : Contact := mkContact "u2" "Bob" "".

(** The endpoint accepts every email; the clock stands at [jan2]. *)
Definition w_accepting : World :=
  mkWorld (λ _, Response 200 "{}" (inr (mkSendResult true None))) [] (λ _, jan2) 0.

(** Every call times out; the clock stands at [jan2]. *)
Definition w_timing_out : World :=
  mkWorld (λ _, RaisesTimeout) [] (λ _, jan2) 0.

(** A campaign scheduled by a single [scheduledAt], already past. *)
Definition camp_single : Campaign :=
  mkCampaign "c1" "Promo" "hello" "" "all" [] {["email" := true]}
    (Some "2024-01-01T00:00:00Z") [] [] scheduled [] ∅ "2023-12-31T00:00:00+00:00" None.

Definition db_single : Db := mkDb [camp_single] [alice].

(** Two dates, the first past and the second to come; email disabled. *)
Definition camp_two_dates : Campaign :=
  mkCampaign "c2" "Rentree" "hello" "" "all" [] {["whatsapp" := true; "email" := false]}
    None ["2024-01-01T00:00:00Z"; "2024-01-03T00:00:00Z"] [] scheduled [] ∅
    "2023-12-31T00:00:00+00:00" None.

Definition db_two_dates : Db := mkDb [camp_two_dates] [alice].

(** A [selected] target with no id. *)
Definition camp_selected_none : Campaign :=
  mkCampaign "c3" "Vide" "hello" "" "selected" [] {["email" := true]}
    None ["2024-01-01T00:00:00Z"] [] scheduled [] ∅ "2023-12-31T00:00:00+00:00" None.

Definition db_selected_none : Db := mkDb [camp_selected_none] [alice].

(** A failed campaign with a date still to come. *)
Definition camp_failed : Campaign :=
  mkCampaign "c4" "Echec" "hello" "" "all" [] {["email" := true]}
    None ["2024-01-01T00:00:00Z"; "2024-01-03T00:00:00Z"] ["2024-01-01T00:00:00Z"]
    failed [] {["u1_email" := 1]} "2024-01-01T00:00:05+00:00"
    (Some "2024-01-01T00:00:05+00:00").

Definition db_failed : Db := mkDb [camp_failed] [alice].

(** Alice's email is recorded as [sent] and her retry counter is at the
    ceiling. *)
Definition camp_served : Campaign :=
  mkCampaign "c5" "Relance" "hello" "" "all" [] {["email" := true]}
    None ["2024-01-01T00:00:00Z"] [] sending
    [mkResult "u1" "Alice" "alice@example.org" (Some "") "email" r_sent
       (Some "2023-12-31T12:00:00+00:00")]
    {["u1_email" := 3]} "2023-12-31T12:00:00+00:00" None.

Definition db_served : Db := mkDb [camp_served] [alice].

(** Bob, who has no email address, has an email result recorded as
    [sent] (the launch endpoint prepares one entry per contact and enabled
    channel, the mark-sent endpoint sets it to [sent]). *)
Definition camp_no_email : Campaign :=
  mkCampaign "c6" "Sans email" "hello" "" "all" [] {["email" := true]}
    None ["2024-01-01T00:00:00Z"] [] sending
    [mkResult "u2" "Bob" "" (Some "") "email" r_sent (Some "2023-12-31T12:00:00+00:00")]
    ∅ "2023-12-31T12:00:00+00:00" None.

Definition db_no_email : Db := mkDb [camp_no_email] [bob].

(** Two dates, the first past and the second to come; email enabled. *)
Definition camp_two_dates_email : Campaign :=
  mkCampaign "c7" "Rentree" "hello" "https://example.org/a.png" "selected" ["u1"]
    {["email" := true]}
    None ["2024-01-01T00:00:00Z"; "2024-01-03T00:00:00Z"] [] scheduled [] ∅
    "2023-12-31T00:00:00+00:00" None.

Definition db_two_dates_email : Db := mkDb [camp_two_dates_email] [alice; bob].

(** A campaign already completed, beside one that is due. *)
Definition camp_completed : Campaign :=
  mkCampaign "c8" "Faite" "hello" "" "all" [] {["email" := true]}
    None ["2024-01-01T00:00:00Z"] ["2024-01-01T00:00:00Z"] completed
    [mkResult "u1" "Alice" "alice@example.org" (Some "") "email" r_sent
       (Some "2024-01-01T00:00:05+00:00");
     mkResult "u1" "Alice" "" (Some "+33600000000") "whatsapp" r_pending None]
    ∅ "2024-01-01T00:00:05+00:00" (Some "2024-01-01T00:00:05+00:00").

Definition db_mixed : Db := mkDb [camp_completed; camp_single] [alice; bob].

(** A body of 250 characters, the first 150 of two bytes each, and its
    first 200 characters. *)
Definition body_accents : string :=
  "ééééééééééééééééééééééééééééééééééééééééééééééééééééééééééééééééééééééééééééééééééééééééééééééééééééééééééééééééééééééééééééééééééééééééééééééééééééééxxxxxxxxxxxxxxxxxxxxxxxxxxxxxxxxxxxxxxxxxxxxxxxxxxxxxxxxxxxxxxxxxxxxxxxxxxxxxxxxxxxxxxxxxxxxxxxxxxxx".

Definition body_accents_200 : string :=
  "ééééééééééééééééééééééééééééééééééééééééééééééééééééééééééééééééééééééééééééééééééééééééééééééééééééééééééééééééééééééééééééééééééééééééééééééééééééééxxxxxxxxxxxxxxxxxxxxxxxxxxxxxxxxxxxxxxxxxxxxxxxxxx".

(** The endpoint is down: a 503 with [body_accents]. *)
Definition w_unavailable : World :=
  mkWorld (λ _, Response 503 body_accents (inl "Expecting value")) [] (λ _, jan2) 0.

(** The endpoint refuses with [{success: false, error: null}]. *)
Definition w_null_error : World :=
  mkWorld (λ _, Response 200 "{}" (inr (mkSendResult false (Some PyNone)))) []
    (λ _, jan2) 0.

(** Five daily dates. The two date functions on them; a clock that
    reads one day later at each sweep over a store with one selected
    campaign (a sweep reads the clock twice then); an endpoint that
    accepts the first call and times out on every later one. *)
Definition fromisoformat_daily (s : string) : option datetime :=
  if bool_decide (s = "2024-01-01T00:00:00+00:00") then Some (mkDatetime 1704067200 (Some 0))
  else if bool_decide (s = "2024-01-02T00:00:00+00:00") then Some (mkDatetime 1704153600 (Some 0))
  else if bool_decide (s = "2024-01-03T00:00:00+00:00") then Some (mkDatetime 1704240000 (Some 0))
  else if bool_decide (s = "2024-01-04T00:00:00+00:00") then Some (mkDatetime 1704326400 (Some 0))
  else if bool_decide (s = "2024-01-05T00:00:00+00:00") then Some (mkDatetime 1704412800 (Some 0))
  else None.

Definition isoformat_daily (t : Z) : string :=
  if bool_decide (t = 1704067200) then "2024-01-01T00:00:00+00:00"
  else if bool_decide (t = 1704153600) then "2024-01-02T00:00:00+00:00"
  else if bool_decide (t = 1704240000) then "2024-01-03T00:00:00+00:00"
  else if bool_decide (t = 1704326400) then "2024-01-04T00:00:00+00:00"
  else if bool_decide (t = 1704412800) then "2024-01-05T00:00:00+00:00"
  else "".

Definition clock_daily (n : nat) : Z := 1704067200 + 86400 * Z.of_nat (n / 2).

Definition w_flaky : World :=
  mkWorld (λ n, match n with
                | O => Response 200 "{}" (inr (mkSendResult true None))
                | S _ => RaisesTimeout
                end) [] clock_daily 0.

Definition carol : Contact := mkContact "u3" "Carol" "carol@example.org".

(** One date a day for five days, sent to Alice and Carol. *)
Definition camp_daily : Campaign :=
  mkCampaign "c9" "Quotidien" "hello" "" "all" [] {["email" := true]}
    None
    ["2024-01-01T00:00:00Z"; "2024-01-02T00:00:00Z"; "2024-01-03T00:00:00Z";
     "2024-01-04T00:00:00Z"; "2024-01-05T00:00:00Z"]
    [] scheduled [] ∅ "2023-12-31T00:00:00+00:00" None.

Definition db_daily : Db := mkDb [camp_daily] [alice; carol].

(** Carol's counter is at the ceiling and she has no result. *)
Definition st_ceiling : LoopState := mkLoop 1 0 [] {["u3_email" := 3]}.

(** The same campaign in two stores, two dates sent and recorded in
    two orders, the third due on the third day. *)
Definition camp_third_day (sent : list string) : Campaign :=
  mkCampaign "c10" "Trois jours" "hello" "" "all" [] {["email" := true]}
    None
    ["2024-01-01T00:00:00Z"; "2024-01-02T00:00:00Z"; "2024-01-03T00:00:00Z"]
    sent scheduled [] ∅ "2024-01-02T00:00:00+00:00" (Some "2024-01-02T00:00:00+00:00").

Definition db_third_day : Db :=
  mkDb [camp_third_day ["2024-01-01T00:00:00Z"; "2024-01-02T00:00:00Z"]; camp_completed]
    [alice].

Definition db_third_day_swapped : Db :=
  mkDb [camp_third_day ["2024-01-02T00:00:00Z"; "2024-01-01T00:00:00Z"]; camp_completed]
    [alice].

(** The clock stands on the third day; every call times out, or every
    call is accepted. *)
Definition w_third_day_timing_out : World :=
  mkWorld (λ _, RaisesTimeout) [] (λ _, 1704240000) 0.

Definition w_third_day_accepting : World :=
  mkWorld (λ _, Response 200 "{}" (inr (mkSendResult true None))) [] (λ _, 1704240000) 0.

Section Scheduler.

(** [datetime.fromisoformat], [None] when it raises, and
    [datetime.isoformat] on the aware UTC value read from the clock. *)
Variable fromisoformat : string → option datetime.
Variable isoformat : Z → string.

Definition parse_scheduled_date (date_str : string) : option datetime :=
  if negb (truthy date_str) then None
  else
    let date_str :=
      if contains_char "Z" date_str then replace_Z date_str else date_str in
    dt ← (if contains_char "+" date_str || contains_char "-" (last6 date_str)
          then fromisoformat date_str
          else replace_tzinfo_utc <$> fromisoformat date_str);
    Some (match dt_tzinfo dt with
          | None => replace_tzinfo_utc dt
          | Some _ => dt
          end).

(** [scheduled_dt and scheduled_dt <= now and date_str not in sent_dates]. *)
Definition is_due (now : Z) (sent_dates : list string) (date_str : string) : bool :=
  match parse_scheduled_date date_str with
  | Some scheduled_dt =>
      bool_decide (instant scheduled_dt ≤ now)%Z && negb (bool_decide (date_str ∈ sent_dates))
  | None => false
  end.

(** The normalisation of the two scheduling formats. *)
Definition normalized_dates (c : Campaign) : list string :=
  match scheduledAt c, scheduledDates c with
  | Some scheduled_at, [] => if truthy scheduled_at then [scheduled_at] else []
  | _, scheduled_dates => scheduled_dates
  end.

Definition dates_to_process (now : Z) (c : Campaign) : list string :=
  List.filter (is_due now (sentDates c)) (normalized_dates c).

(** The contacts a campaign targets. *)
Definition resolve_contacts (campaign : Campaign) (db : Db) : list Contact :=
  if bool_decide (targetType campaign = "all") then find_all_users db
  else find_users_in (selectedContacts campaign) db.

(** [campaign.get("channels", {}).get("email", False)]. *)
Definition email_enabled (campaign : Campaign) : bool :=
  default false (channels campaign !! "email").

(** One iteration of the [for contact in contacts] loop. *)
Definition send_to_contact (campaign_id : string) (dry_run : bool) (now : Z)
    (subject message media_url : string)
    (acc : LoopState * World) (contact : Contact) : LoopState * World :=
  let '(st, w) := acc in
  let contact_id := c_id contact in
  let contact_email := c_email contact in
  let contact_name := c_name contact in
  if negb (truthy contact_email) then (st, w)
  else if already_sent contact_id (l_results st) then
    (mkLoop (S (success_count st)) (fail_count st) (l_results st) (l_retry_counts st), w)
  else
    let retry_key := retry_key_of contact_id in
    let current_retries := default 0 (l_retry_counts st !! retry_key) in
    if bool_decide (MAX_RETRY_ATTEMPTS ≤ current_retries)%Z then
      (mkLoop (success_count st) (S (fail_count st)) (l_results st) (l_retry_counts st), w)
    else
      let '((success, error), w') :=
        if dry_run then ((true, PyNone), w)
        else send_campaign_email (Some (campaign_id, contact)) contact_email contact_name
               subject message (if truthy media_url then Some media_url else None) w in
      if success then
        let result_entry :=
          mkResult contact_id contact_name contact_email None "email" r_sent
            (Some (isoformat now)) in
        (mkLoop (S (success_count st)) (fail_count st)
           (upsert_result contact_id result_entry (l_results st))
           (l_retry_counts st), w')
      else
        (mkLoop (success_count st) (S (fail_count st)) (l_results st)
           (<[retry_key := (current_retries + 1)%Z]> (l_retry_counts st)), w').

Definition send_loop (campaign_id : string) (dry_run : bool) (now : Z)
    (subject message media_url : string)
    (contacts : list Contact) (st : LoopState) (w : World) : LoopState * World :=
  fold_left (send_to_contact campaign_id dry_run now subject message media_url)
    contacts (st, w).

(** [process_campaign]: returns [(processed, success_count, fail_count)]
    with the store and the world it leaves. *)
Definition process_campaign (campaign : Campaign) (dry_run : bool)
    (db : Db) (w : World) : (bool * nat * nat) * Db * World :=
  let campaign_id := id campaign in
  let campaign_name := name campaign in
  let '(now, w) := get_current_utc_time w in
  let scheduled_dates := normalized_dates campaign in
  let sent_dates := sentDates campaign in
  match scheduled_dates with
  | [] => ((false, 0%nat, 0%nat), db, w)
  | _ =>
  let dates_to_process := dates_to_process now campaign in
  match dates_to_process with
  | [] => ((false, 0%nat, 0%nat), db, w)
  | _ =>
  let contacts := resolve_contacts campaign db in
  match contacts with
  | [] =>
      ((true, 0%nat, 0%nat),
       update_one campaign_id
         (mkUpdate (Some completed) None None None (Some (isoformat now)) None []) db,
       w)
  | _ =>
  if negb (email_enabled campaign) then
    let all_dates_processed := set_ge (sent_dates ++ dates_to_process) scheduled_dates in
    let new_status := if all_dates_processed then completed else scheduled in
    ((true, 0%nat, 0%nat),
     update_one campaign_id
       (mkUpdate (Some new_status) None None None (Some (isoformat now)) None
          dates_to_process) db,
     w)
  else
    let message := message campaign in
    let media_url := mediaUrl campaign in
    let subject := "📢 " +:+ campaign_name in
    let '(st, w) :=
      send_loop campaign_id dry_run now subject message media_url contacts
        (mkLoop 0 0 (results campaign) (retryCounts campaign)) w in
    let new_sent_dates := list_of_set (sent_dates ++ dates_to_process) in
    let all_dates_processed := set_ge new_sent_dates scheduled_dates in
    let new_status :=
      new_status_of (success_count st) (fail_count st) all_dates_processed in
    ((true, success_count st, fail_count st),
     update_one campaign_id
       (mkUpdate (Some new_status) (Some (l_results st)) (Some new_sent_dates)
          (Some (l_retry_counts st)) (Some (isoformat now)) (Some (isoformat now)) [])
       db,
     w)
  end end end.

(** [run_scheduler]: one sweep. It returns nothing in the source; the
    three totals it logs are returned here:
    [(campaigns_processed, total_success, total_fail)]. *)
Definition run_campaign (dry_run : bool)
    (acc : (nat * nat * nat) * Db * World) (campaign : Campaign)
  : (nat * nat * nat) * Db * World :=
  let '((campaigns_processed, total_success, total_fail), db, w) := acc in
  let '((processed, success, fail), db', w') := process_campaign campaign dry_run db w in
  if processed then
    ((S campaigns_processed, (total_success + success)%nat, (total_fail + fail)%nat), db', w')
  else ((campaigns_processed, total_success, total_fail), db', w').

Definition run_scheduler (dry_run : bool) (db : Db) (w : World)
  : (nat * nat * nat) * Db * World :=
  let '(now, w) := get_current_utc_time w in
  let campaigns := find_scheduled db in
  fold_left (run_campaign dry_run) campaigns ((0%nat, 0%nat, 0%nat), db, w).

(** [main] with [--loop], cut after [n] sweeps ([time.sleep] only lets
    the clock advance, which the clock oracle already allows). *)
Fixpoint run_sweeps (n : nat) (dry_run : bool) (db : Db) (w : World) : Db * World :=
  match n with
  | O => (db, w)
  | S n' =>
      let '(_, db', w') := run_scheduler dry_run db w in
      run_sweeps n' dry_run db' w'
  end.

(** ** Notions used to state the properties *)

(** The world after the clock has been read once. *)
Definition tick (w : World) : World := (get_current_utc_time w).2.

(** The HTTP calls of a trace made for contact [contact_id] on behalf of
    campaign [campaign_id]. *)
Definition is_attempt (campaign_id contact_id : string)
    (call : option (string * Contact) * Payload) : bool :=
  match call.1 with
  | Some (k, c) => bool_decide (k = campaign_id) && bool_decide (c_id c = contact_id)
  | None => false
  end.

Definition attempts (campaign_id contact_id : string)
    (calls : list (option (string * Contact) * Payload)) : nat :=
  length (List.filter (is_attempt campaign_id contact_id) calls).

(** The stored retry counter of a contact, [0] when absent, as
    [retry_counts.get(retry_key, 0)] reads it. *)
Definition retries_of (contact_id : string) (retry_counts : gmap string Z) : Z :=
  default 0 (retry_counts !! retry_key_of contact_id).

(** The delivery attempts a contact can still receive: none once an
    email result of it is [sent], else what is left below the ceiling. *)
Definition budget (contact_id : string) (rs : list ResultEntry)
    (retry_counts : gmap string Z) : Z :=
  if already_sent contact_id rs then 0
  else Z.max 0 (MAX_RETRY_ATTEMPTS - retries_of contact_id retry_counts).

(** The result entries of a contact, in order. *)
Definition results_of (contact_id : string) (rs : list ResultEntry) : list ResultEntry :=
  List.filter (λ r, bool_decide (r_contactId r = contact_id)) rs.

(** The world after one more HTTP call, made for [contact] on behalf of
    campaign [k]. *)
Definition called (k : string) (contact : Contact) (p : Payload) (w : World) : World :=
  mkWorld (net_oracle w) (net_calls w ++ [(Some (k, contact), p)]) (clock w) (ticks w).

(** The result entry written on success. *)
Definition sent_entry (now : Z) (contact : Contact) : ResultEntry :=
  mkResult (c_id contact) (c_name contact) (c_email contact) None "email" r_sent
    (Some (isoformat now)).

(** The six ways one iteration of the send loop can go. *)
Inductive contact_step (k : string) (dry_run : bool) (now : Z) (contact : Contact)
  : LoopState → World → LoopState → World → Prop :=
| step_no_email st w :
    truthy (c_email contact) = false →
    contact_step k dry_run now contact st w st w
| step_already_sent st w :
    truthy (c_email contact) = true →
    already_sent (c_id contact) (l_results st) = true →
    contact_step k dry_run now contact st w
      (mkLoop (S (success_count st)) (fail_count st) (l_results st) (l_retry_counts st)) w
| step_ceiling st w :
    truthy (c_email contact) = true →
    already_sent (c_id contact) (l_results st) = false →
    (MAX_RETRY_ATTEMPTS ≤ retries_of (c_id contact) (l_retry_counts st))%Z →
    contact_step k dry_run now contact st w
      (mkLoop (success_count st) (S (fail_count st)) (l_results st) (l_retry_counts st)) w
| step_simulated st w :
    truthy (c_email contact) = true →
    already_sent (c_id contact) (l_results st) = false →
    (retries_of (c_id contact) (l_retry_counts st) < MAX_RETRY_ATTEMPTS)%Z →
    dry_run = true →
    contact_step k dry_run now contact st w
      (mkLoop (S (success_count st)) (fail_count st)
         (upsert_result (c_id contact) (sent_entry now contact) (l_results st))
         (l_retry_counts st)) w
| step_delivered st w p :
    truthy (c_email contact) = true →
    already_sent (c_id contact) (l_results st) = false →
    (retries_of (c_id contact) (l_retry_counts st) < MAX_RETRY_ATTEMPTS)%Z →
    dry_run = false →
    contact_step k dry_run now contact st w
      (mkLoop (S (success_count st)) (fail_count st)
         (upsert_result (c_id contact) (sent_entry now contact) (l_results st))
         (l_retry_counts st)) (called k contact p w)
| step_failed st w p :
    truthy (c_email contact) = true →
    already_sent (c_id contact) (l_results st) = false →
    (retries_of (c_id contact) (l_retry_counts st) < MAX_RETRY_ATTEMPTS)%Z →
    dry_run = false →
    contact_step k dry_run now contact st w
      (mkLoop (success_count st) (S (fail_count st)) (l_results st)
         (<[retry_key_of (c_id contact) :=
              (retries_of (c_id contact) (l_retry_counts st) + 1)%Z]> (l_retry_counts st)))
      (called k contact p w).

(** The four ways [process_campaign] can go, with the result it returns,
    the update it sends to the store (none on the first path) and the
    world it leaves. *)
Inductive campaign_step (campaign : Campaign) (dry_run : bool) (db : Db) (w : World)
  : bool * nat * nat → option Update → World → Prop :=
| path_not_due :
    dates_to_process (clock w (ticks w)) campaign = [] →
    campaign_step campaign dry_run db w (false, 0%nat, 0%nat) None (tick w)
| path_no_contacts :
    dates_to_process (clock w (ticks w)) campaign ≠ [] →
    resolve_contacts campaign db = [] →
    campaign_step campaign dry_run db w (true, 0%nat, 0%nat)
      (Some (mkUpdate (Some completed) None None None
               (Some (isoformat (clock w (ticks w)))) None []))
      (tick w)
| path_email_disabled :
    dates_to_process (clock w (ticks w)) campaign ≠ [] →
    resolve_contacts campaign db ≠ [] →
    email_enabled campaign = false →
    campaign_step campaign dry_run db w (true, 0%nat, 0%nat)
      (Some (mkUpdate
               (Some (if set_ge (sentDates campaign
                                   ++ dates_to_process (clock w (ticks w)) campaign)
                           (normalized_dates campaign)
                      then completed else scheduled))
               None None None (Some (isoformat (clock w (ticks w)))) None
               (dates_to_process (clock w (ticks w)) campaign)))
      (tick w)
| path_send_loop st w' :
    dates_to_process (clock w (ticks w)) campaign ≠ [] →
    resolve_contacts campaign db ≠ [] →
    email_enabled campaign = true →
    send_loop (id campaign) dry_run (clock w (ticks w)) ("📢 " +:+ name campaign)
      (message campaign) (mediaUrl campaign) (resolve_contacts campaign db)
      (mkLoop 0 0 (results campaign) (retryCounts campaign)) (tick w) = (st, w') →
    campaign_step campaign dry_run db w (true, success_count st, fail_count st)
      (Some (mkUpdate
               (Some (new_status_of (success_count st) (fail_count st)
                        (set_ge (list_of_set
                                   (sentDates campaign
                                      ++ dates_to_process (clock w (ticks w)) campaign))
                           (normalized_dates campaign))))
               (Some (l_results st))
               (Some (list_of_set
                        (sentDates campaign
                           ++ dates_to_process (clock w (ticks w)) campaign)))
               (Some (l_retry_counts st))
               (Some (isoformat (clock w (ticks w))))
               (Some (isoformat (clock w (ticks w)))) []))
      w'.

(** The store after an optional update of the document [campaign_id]. *)
Definition store_after (campaign_id : string) (ou : option Update) (db : Db) : Db :=
  match ou with
  | Some u => update_one campaign_id u db
  | None => db
  end.

(** "[sentDates] ∪ [due] is a superset of [scheduledDates]", on the
    stored fields of the campaign. *)
Definition all_dates_done (now : Z) (c : Campaign) : Prop :=
  list_to_set (scheduledDates c)
    ⊆@{gset string} list_to_set (sentDates c) ∪ list_to_set (dates_to_process now c).

(** The document [c] after an optional update. *)
Definition doc_after (ou : option Update) (c : Campaign) : Campaign :=
  match ou with
  | Some u => apply_update u c
  | None => c
  end.

(** The filter of the sweep, on one document. *)
Definition is_selected (c : Campaign) : bool :=
  bool_decide (status c ∈ [scheduled; sending]).

(** No stored retry counter of the campaign is above the ceiling. *)
Definition counters_bounded (c : Campaign) : Prop :=
  map_Forall (λ _ v, v ≤ MAX_RETRY_ATTEMPTS)%Z (retryCounts c).

(** [sentDates] is, as a set, within the normalised scheduled dates. *)
Definition dates_consistent (c : Campaign) : Prop :=
  ∀ d, d ∈ sentDates c → d ∈ normalized_dates c.

(** The budget of a contact in the stored document of campaign [k]. *)
Definition stored_budget (k cid : string) (db : Db) : Z :=
  match find_one k db with
  | Some c => budget cid (results c) (retryCounts c)
  | None => 0
  end.

(** The totals of a sweep after one more campaign. *)
Definition tally (acc : nat * nat * nat) (r : bool * nat * nat) : nat * nat * nat :=
  let '(campaigns_processed, total_success, total_fail) := acc in
  let '(processed, success, fail) := r in
  if processed then
    (S campaigns_processed, (total_success + success)%nat, (total_fail + fail)%nat)
  else acc.

(** A document the dispatcher has left alone or written with one of the
    three statuses it writes. *)
Definition kept_or_written (c c' : Campaign) : Prop :=
  c' = c ∨ status c' ∈ [completed; failed; scheduled].

(** ** The entry point *)

(** [main]: one sweep, or with [--loop] a sweep after the other ([sweeps]
    of them here; an exception of a sweep is logged and the loop goes on,
    and none arises in this model). [--interval] only sets how long the
    process sleeps between two sweeps. *)
Definition main (loop dry_run : bool) (sweeps : nat) (db : Db) (w : World) : Db * World :=
  if loop then run_sweeps sweeps dry_run db w
  else let '(_, db', w') := run_scheduler dry_run db w in (db', w').

(** ** Notions used to state the further properties *)

(** [bool(contact.get("email", ""))]. *)
Definition has_email (contact : Contact) : bool := truthy (c_email contact).

(** The request the send loop posts for a contact of a campaign. *)
Definition payload_of (campaign : Campaign) (contact : Contact) : Payload :=
  mkPayload (c_email contact) (c_name contact) ("📢 " +:+ name campaign)
    (message campaign)
    (if truthy (mediaUrl campaign) then Some (mediaUrl campaign) else None).

(** The entry of the trace for that request. *)
Definition call_of (campaign : Campaign) (contact : Contact)
  : option (string * Contact) * Payload :=
  (Some (id campaign, contact), payload_of campaign contact).

(** The email result entries of a contact, and the entries of the other
    channels. *)
Definition email_results_of (contact_id : string) (rs : list ResultEntry)
  : list ResultEntry :=
  List.filter (is_email_result_of contact_id) rs.

Definition other_channel_results (rs : list ResultEntry) : list ResultEntry :=
  List.filter (λ r, negb (bool_decide (r_channel r = "email"))) rs.

(** At most one email result entry per contact. *)
Definition email_unique (rs : list ResultEntry) : Prop :=
  ∀ contact_id, (length (email_results_of contact_id rs) ≤ 1)%nat.

(** The fields of a campaign the dispatcher does not own. *)
Definition same_settings (c c' : Campaign) : Prop :=
  id c' = id c ∧ name c' = name c ∧ message c' = message c ∧
  mediaUrl c' = mediaUrl c ∧ targetType c' = targetType c ∧
  selectedContacts c' = selectedContacts c ∧ channels c' = channels c ∧
  scheduledAt c' = scheduledAt c ∧ scheduledDates c' = scheduledDates c.

(** The request of the send loop, from the arguments the loop is given. *)
Definition loop_call (k : string) (subject message media_url : string) (contact : Contact)
  : option (string * Contact) * Payload :=
  (Some (k, contact),
   mkPayload (c_email contact) (c_name contact) subject message
     (if truthy media_url then Some media_url else None)).

(** The endpoint answers every call with a 200 and [success: true]. *)
Definition accepts (w : World) : Prop :=
  ∀ n, ∃ text e, net_oracle w n = Response 200 text (inr (mkSendResult true e)).

(** Two worlds whose clocks read the same from now on. *)
Definition same_clock (w1 w2 : World) : Prop :=
  clock w1 = clock w2 ∧ ticks w1 = ticks w2.

(** The document [c] with [sent] for its [sentDates]. *)
Definition with_sent_dates (sent : list string) (c : Campaign) : Campaign :=
  mkCampaign (id c) (name c) (message c) (mediaUrl c) (targetType c)
    (selectedContacts c) (channels c) (scheduledAt c) (scheduledDates c)
    sent (status c) (results c) (retryCounts c) (updatedAt c) (lastProcessedAt c).

(** Two documents that differ at most in the order of [sentDates], and
    two stores that hold such documents, one by one, and the same users. *)
Definition same_up_to_order (c c' : Campaign) : Prop :=
  sentDates c ≡ₚ sentDates c' ∧ c' = with_sent_dates (sentDates c') c.

Definition same_stores (db db' : Db) : Prop :=
  db_users db = db_users db' ∧
  Forall2 same_up_to_order (db_campaigns db) (db_campaigns db').

(** * Properties *)

(** ** Sets of dates *)

Lemma elem_of_list_of_set (l : list string) (x : string) :
  x ∈ list_of_set l ↔ x ∈ l.
Proof. unfold list_of_set. rewrite elem_of_elements. apply elem_of_list_to_set. Qed.

Lemma set_ge_spec (a b : list string) :
  set_ge a b = true ↔ ∀ x, x ∈ b → x ∈ a.
Proof.
  unfold set_ge. rewrite bool_decide_eq_true. split.
  - intros H x Hx. apply (elem_of_list_to_set (C := gset string)).
    apply H. by apply elem_of_list_to_set.
  - intros H x Hx. apply elem_of_list_to_set. apply H.
    by apply (elem_of_list_to_set (C := gset string)).
Qed.

Lemma set_ge_gset (a b : list string) :
  set_ge a b = true ↔ list_to_set b ⊆@{gset string} list_to_set a.
Proof. unfold set_ge. apply bool_decide_eq_true. Qed.

Lemma elem_of_add_to_set (each arr : list string) (x : string) :
  x ∈ add_to_set arr each ↔ x ∈ arr ∨ x ∈ each.
Proof.
  unfold add_to_set. revert arr.
  induction each as [|d each IH]; intros arr; simpl.
  - rewrite elem_of_nil. tauto.
  - rewrite IH, elem_of_cons. case_bool_decide as Hd.
    + split; [tauto|]. intros [?|[->|?]]; auto.
    + rewrite elem_of_app, list_elem_of_singleton. tauto.
Qed.

Lemma add_to_set_nil (arr : list string) : add_to_set arr [] = arr.
Proof. reflexivity. Qed.

(** ** The store *)

Lemma apply_update_id (u : Update) (c : Campaign) : id (apply_update u c) = id c.
Proof. reflexivity. Qed.

Lemma update_first_length (i : string) (u : Update) (cs : list Campaign) :
  length (update_first i u cs) = length cs.
Proof.
  induction cs as [|c cs IH]; simpl; [done|].
  case_bool_decide; simpl; congruence.
Qed.

Lemma update_first_ids (i : string) (u : Update) (cs : list Campaign) :
  id <$> update_first i u cs = id <$> cs.
Proof.
  induction cs as [|c cs IH]; simpl; [done|].
  case_bool_decide; rewrite !fmap_cons; [done|by rewrite IH].
Qed.

Lemma update_first_Forall2 (R : Campaign → Campaign → Prop) i u cs :
  (∀ c, R c c) →
  (∀ c, c ∈ cs → id c = i → R c (apply_update u c)) →
  Forall2 R cs (update_first i u cs).
Proof.
  intros Hrefl. induction cs as [|c cs IH]; intros Hupd; simpl; [constructor|].
  case_bool_decide as Hi.
  - constructor; [apply Hupd; [left|done]|]. by apply Forall_Forall2_diag, Forall_forall.
  - constructor; [done|]. apply IH. intros c' Hc'. apply Hupd. by right.
Qed.

Lemma find_one_update_one (i : string) (u : Update) (db : Db) :
  find_one i (update_one i u db) = apply_update u <$> find_one i db.
Proof.
  unfold find_one, update_one; simpl.
  induction (db_campaigns db) as [|c cs IH]; simpl; [done|].
  case_bool_decide as Hi; simpl.
  - rewrite bool_decide_eq_true_2 by done. done.
  - rewrite bool_decide_eq_false_2 by done. done.
Qed.

Lemma find_one_update_one_ne (i j : string) (u : Update) (db : Db) :
  i ≠ j → find_one j (update_one i u db) = find_one j db.
Proof.
  intros Hne. unfold find_one, update_one; simpl.
  induction (db_campaigns db) as [|c cs IH]; simpl; [done|].
  case_bool_decide as Hi; simpl.
  - rewrite !bool_decide_eq_false_2 by congruence. done.
  - rewrite IH. done.
Qed.

Lemma find_one_Some (i : string) (db : Db) (c : Campaign) :
  find_one i db = Some c → c ∈ db_campaigns db ∧ id c = i.
Proof.
  unfold find_one. intros H. apply find_some in H as [Hin Hid].
  apply bool_decide_eq_true in Hid. split; [|done]. by apply list_elem_of_In.
Qed.

(** With unique ids, the snapshot returned by [find] is the document
    [update_one] reaches. *)
Lemma find_one_unique (db : Db) (c : Campaign) :
  NoDup (id <$> db_campaigns db) → c ∈ db_campaigns db →
  find_one (id c) db = Some c.
Proof.
  unfold find_one. induction (db_campaigns db) as [|d cs IH]; simpl.
  - intros _ H. by apply elem_of_nil in H.
  - intros Hnd Hin. apply NoDup_cons in Hnd as [Hd Hnd].
    apply elem_of_cons in Hin as [->|Hin].
    + by rewrite bool_decide_eq_true_2.
    + rewrite bool_decide_eq_false_2; [by apply IH|].
      intros Heq. apply Hd. rewrite Heq. by apply list_elem_of_fmap_2.
Qed.

Lemma update_first_fmap_frame {A} (f : Campaign → A) i u cs :
  (∀ c, f (apply_update u c) = f c) → f <$> update_first i u cs = f <$> cs.
Proof.
  intros Hf. induction cs as [|c cs IH]; simpl; [done|].
  case_bool_decide; rewrite !fmap_cons; [by rewrite Hf|by rewrite IH].
Qed.

(** ** Characters *)

Lemma take_drop_chars n s : take_chars n s +:+ drop_chars n s = s.
Proof.
  revert n. induction s as [|a s IH]; intros n; [done|].
  cbn [take_chars drop_chars].
  destruct (is_continuation a).
  - change (String a (take_chars n s +:+ drop_chars n s) = String a s). by rewrite IH.
  - destruct n; [done|].
    change (String a (take_chars n s +:+ drop_chars n s) = String a s). by rewrite IH.
Qed.

Lemma char_length_take_chars n s : (char_length (take_chars n s) ≤ n)%nat.
Proof.
  revert n. induction s as [|a s IH]; intros n; simpl; [lia|].
  destruct (is_continuation a) eqn:Ha; simpl.
  - rewrite Ha. apply IH.
  - destruct n; simpl; [lia|]. rewrite Ha. specialize (IH n). lia.
Qed.

Lemma take_chars_all n s : (char_length s ≤ n)%nat → take_chars n s = s.
Proof.
  revert n. induction s as [|a s IH]; intros n; simpl; [done|].
  destruct (is_continuation a); [intros; by rewrite IH|].
  destruct n; [lia|]. intros. rewrite IH; [done|lia].
Qed.

(** ** The delivery client *)

(** C9: [send_campaign_email] makes exactly one HTTP call and turns its
    outcome into a pair: [(True, None)] exactly for a 200 answer whose body
    has a true success flag; for a 200 answer without one, [False] with the
    value of the body's ["error"] key (the error text; [None] when the
    body holds [null]) or ["Erreur inconnue"] when the body has no such
    key; ["HTTP <code>: <first 200 characters>"] for another status; a
    diagnostic string for a timeout or any other exception. It is total
    (nothing is raised), and a failure carries a string unless the body
    itself gave an error value that is none. *)
Theorem send_campaign_email_outcome
    (who : option (string * Contact)) (to_email to_name subject message : string)
    (media_url : option string) (w : World) :
  let out := net_oracle w (length (net_calls w)) in
  let r := send_campaign_email who to_email to_name subject message media_url w in
  (∃ p, net_calls r.2 = net_calls w ++ [(who, p)]) ∧
  (r.1 = (true, PyNone) ↔
     ∃ text e, out = Response 200 text (inr (mkSendResult true e))) ∧
  (r.1.1 = true ↔ r.1 = (true, PyNone)) ∧
  (∀ text v, out = Response 200 text (inr (mkSendResult false (Some v))) →
     r.1 = (false, v)) ∧
  (∀ text, out = Response 200 text (inr (mkSendResult false None)) →
     r.1 = (false, PyStr "Erreur inconnue")) ∧
  (∀ code text json, out = Response code text json → code ≠ 200 →
     r.1 = (false, PyStr ("HTTP " +:+ pretty code +:+ ": " +:+ take_chars 200 text)) ∧
     (char_length (take_chars 200 text) ≤ 200)%nat ∧
     take_chars 200 text +:+ drop_chars 200 text = text) ∧
  (out = RaisesTimeout → r.1 = (false, PyStr "Timeout lors de l'envoi")) ∧
  (∀ msg, out = RaisesOther msg → r.1 = (false, PyStr msg)) ∧
  (∀ text exn, out = Response 200 text (inl exn) → r.1 = (false, PyStr exn)) ∧
  (r.1.1 = false →
   (∃ s, r.1.2 = PyStr s) ∨
   ∃ text v, out = Response 200 text (inr (mkSendResult false (Some v))) ∧ r.1.2 = v).
Proof.
  intros out r. subst r. unfold send_campaign_email, requests_post. fold out.
  pose proof char_length_take_chars as Hlen. pose proof take_drop_chars as Htd.
  destruct out as [code text [exn|[[] [v|]]]| |msg] eqn:Hout; simpl;
    try case_bool_decide; simpl;
    (split; [eexists; reflexivity|]);
    repeat split; try (intros; simplify_eq; eauto; done);
    try (intros (? & ? & ?); simplify_eq; done).
Qed.

Example send_campaign_email_http_500 :
  (send_campaign_email None "a@example.org" "A" "s" "m" None
     (mkWorld (λ _, Response 500 "Internal Server Error" (inl "no json")) [] (λ _, 0) 0)).1
  = (false, PyStr "HTTP 500: Internal Server Error").
Proof. reflexivity. Qed.

(** ** The four paths of [process_campaign] *)

Lemma net_calls_tick w : net_calls (tick w) = net_calls w.
Proof. reflexivity. Qed.

Lemma elem_of_dates_to_process now c d :
  d ∈ dates_to_process now c ↔
  d ∈ normalized_dates c ∧ is_due now (sentDates c) d = true.
Proof.
  unfold dates_to_process. rewrite list_elem_of_In, filter_In, <- list_elem_of_In. done.
Qed.

Lemma is_due_not_sent now sent d : is_due now sent d = true → d ∉ sent.
Proof.
  unfold is_due. destruct (parse_scheduled_date d); [|done].
  rewrite andb_true_iff, negb_true_iff, bool_decide_eq_false. tauto.
Qed.

Lemma normalized_dates_nonempty c :
  scheduledDates c ≠ [] → normalized_dates c = scheduledDates c.
Proof. unfold normalized_dates. by destruct (scheduledAt c), (scheduledDates c). Qed.

(** When something is due, covering the stored [scheduledDates] and
    covering the normalised dates are the same condition. *)
Lemma covers_normalized now c (sent' : list string) :
  dates_to_process now c ≠ [] →
  (∀ d, d ∈ dates_to_process now c → d ∈ sent') →
  (∀ d, d ∈ normalized_dates c → d ∈ sent') ↔ (∀ d, d ∈ scheduledDates c → d ∈ sent').
Proof.
  intros Hne Hdue. destruct (scheduledDates c) as [|d0 ds] eqn:Hsd.
  - split; [by intros _ d ?%elem_of_nil|]. intros _ d Hd.
    assert (∃ d1, d1 ∈ dates_to_process now c) as [d1 Hd1].
    { destruct (dates_to_process now c) as [|d1 l]; [done|]. exists d1. left. }
    pose proof (Hdue _ Hd1) as Hs.
    apply elem_of_dates_to_process in Hd1 as [Hd1 _].
    unfold normalized_dates in *. rewrite Hsd in *.
    destruct (scheduledAt c) as [a|]; [|by apply elem_of_nil in Hd].
    destruct (truthy a); [|by apply elem_of_nil in Hd].
    apply list_elem_of_singleton in Hd, Hd1. by subst.
  - rewrite normalized_dates_nonempty by (by rewrite Hsd). by rewrite Hsd.
Qed.

Lemma process_campaign_not_due campaign dry_run db w :
  dates_to_process (clock w (ticks w)) campaign = [] →
  process_campaign campaign dry_run db w = ((false, 0%nat, 0%nat), db, tick w).
Proof.
  intros Hdue. unfold process_campaign; simpl.
  destruct (normalized_dates campaign) eqn:Hn; [done|]. by rewrite Hdue.
Qed.

Lemma process_campaign_due campaign dry_run db w :
  let now := clock w (ticks w) in
  dates_to_process now campaign ≠ [] →
  process_campaign campaign dry_run db w =
    match resolve_contacts campaign db with
    | [] =>
        ((true, 0%nat, 0%nat),
         update_one (id campaign)
           (mkUpdate (Some completed) None None None (Some (isoformat now)) None []) db,
         tick w)
    | contacts =>
        if negb (email_enabled campaign) then
          ((true, 0%nat, 0%nat),
           update_one (id campaign)
             (mkUpdate
                (Some (if set_ge (sentDates campaign ++ dates_to_process now campaign)
                            (normalized_dates campaign)
                       then completed else scheduled))
                None None None (Some (isoformat now)) None
                (dates_to_process now campaign)) db,
           tick w)
        else
          let '(st, w') :=
            send_loop (id campaign) dry_run now ("📢 " +:+ name campaign)
              (message campaign) (mediaUrl campaign) contacts
              (mkLoop 0 0 (results campaign) (retryCounts campaign)) (tick w) in
          let new_sent_dates :=
            list_of_set (sentDates campaign ++ dates_to_process now campaign) in
          ((true, success_count st, fail_count st),
           update_one (id campaign)
             (mkUpdate
                (Some (new_status_of (success_count st) (fail_count st)
                         (set_ge new_sent_dates (normalized_dates campaign))))
                (Some (l_results st)) (Some new_sent_dates)
                (Some (l_retry_counts st)) (Some (isoformat now))
                (Some (isoformat now)) []) db,
           w')
    end.
Proof.
  intros now Hdue. unfold process_campaign; simpl. fold now.
  destruct (normalized_dates campaign) eqn:Hn.
  { exfalso. apply Hdue. unfold dates_to_process. by rewrite Hn. }
  destruct (dates_to_process now campaign) eqn:Hd; [done|].
  by destruct (resolve_contacts campaign db).
Qed.

(** ** One contact of the send loop *)

Lemma string_length_app (s t : string) :
  String.length (s +:+ t) = (String.length s + String.length t)%nat.
Proof. induction s as [|x s IH]; simpl; [done|]. by rewrite IH. Qed.

Lemma retry_key_of_inj a b : retry_key_of a = retry_key_of b → a = b.
Proof.
  unfold retry_key_of. revert b.
  induction a as [|x a IH]; intros [|y b]; simpl; intros H; try done.
  - exfalso. apply (f_equal String.length) in H. simpl in H.
    rewrite string_length_app in H. simpl in H. lia.
  - exfalso. apply (f_equal String.length) in H. simpl in H.
    rewrite string_length_app in H. simpl in H. lia.
  - injection H as -> H. f_equal. by apply IH.
Qed.

Lemma already_sent_upsert_same cid e rs :
  is_email_result_of cid e = true → r_status e = r_sent →
  already_sent cid (upsert_result cid e rs) = true.
Proof.
  intros He Hs. unfold already_sent.
  induction rs as [|r rs IH]; simpl.
  - by rewrite He, Hs.
  - destruct (is_email_result_of cid r) eqn:Hr; simpl.
    + by rewrite He, Hs.
    + by rewrite Hr, IH.
Qed.

Lemma already_sent_upsert_other cid cid' e rs :
  cid' ≠ cid → r_contactId e = cid' →
  already_sent cid (upsert_result cid' e rs) = already_sent cid rs.
Proof.
  intros Hne He. unfold already_sent.
  assert (Hec : is_email_result_of cid e = false).
  { unfold is_email_result_of. by rewrite bool_decide_eq_false_2 by congruence. }
  induction rs as [|r rs IH]; simpl.
  - by rewrite Hec.
  - destruct (is_email_result_of cid' r) eqn:Hr; simpl.
    + rewrite Hec. simpl. f_equal.
      unfold is_email_result_of in *.
      apply andb_true_iff in Hr as [Hr _]. apply bool_decide_eq_true in Hr.
      by rewrite bool_decide_eq_false_2 by congruence.
    + by rewrite IH.
Qed.

Lemma results_of_upsert_other cid cid' e rs :
  cid' ≠ cid → r_contactId e = cid' →
  results_of cid (upsert_result cid' e rs) = results_of cid rs.
Proof.
  intros Hne He. unfold results_of.
  induction rs as [|r rs IH]; simpl.
  - by rewrite bool_decide_eq_false_2 by congruence.
  - destruct (is_email_result_of cid' r) eqn:Hr; simpl.
    + unfold is_email_result_of in Hr.
      apply andb_true_iff in Hr as [Hr _]. apply bool_decide_eq_true in Hr.
      by rewrite !bool_decide_eq_false_2 by congruence.
    + by rewrite IH.
Qed.

Lemma send_campaign_email_world who to_email to_name subject message media_url w :
  ∃ p, (send_campaign_email who to_email to_name subject message media_url w).2
       = mkWorld (net_oracle w) (net_calls w ++ [(who, p)]) (clock w) (ticks w).
Proof.
  unfold send_campaign_email, requests_post. eexists.
  destruct (net_oracle w _) as [code text [exn|[[] e]]| |msg]; simpl;
    try case_bool_decide; reflexivity.
Qed.

(** Every iteration of the send loop is one of the six steps. *)
Lemma send_to_contact_step k dry_run now subject message media_url st w contact :
  let r := send_to_contact k dry_run now subject message media_url (st, w) contact in
  contact_step k dry_run now contact st w r.1 r.2.
Proof.
  unfold send_to_contact. cbv zeta.
  destruct (truthy (c_email contact)) eqn:Hmail; simpl; [|by constructor].
  destruct (already_sent (c_id contact) (l_results st)) eqn:Hsent; simpl;
    [by constructor|].
  fold (retries_of (c_id contact) (l_retry_counts st)).
  case_bool_decide as Hmax; simpl; [by constructor|].
  apply Z.nlt_ge in Hmax || apply Z.nle_gt in Hmax.
  destruct dry_run; simpl.
  - by apply step_simulated.
  - destruct (send_campaign_email_world (Some (k, contact)) (c_email contact)
                (c_name contact) subject message
                (if truthy media_url then Some media_url else None) w) as [p Hp].
    destruct (send_campaign_email _ _ _ _ _ _ w) as [[success error] w'] eqn:Hsend.
    simpl in Hp. subst w'. destruct success; simpl.
    + by apply step_delivered.
    + by apply step_failed.
Qed.

(** An invariant of the steps is an invariant of the loop. *)
Lemma send_loop_ind (P : LoopState → World → Prop)
    k dry_run now subject message media_url contacts st w :
  (∀ contact st w st' w',
     contact ∈ contacts → P st w →
     contact_step k dry_run now contact st w st' w' → P st' w') →
  P st w →
  let r := send_loop k dry_run now subject message media_url contacts st w in
  P r.1 r.2.
Proof.
  unfold send_loop. revert st w.
  induction contacts as [|c cs IH]; intros st w Hstep HP; cbn [fold_left]; [done|].
  destruct (send_to_contact k dry_run now subject message media_url (st, w) c)
    as [st1 w1] eqn:H1.
  apply IH.
  - intros contact ? ? ? ? Hin. apply Hstep. by right.
  - eapply (Hstep c); [by left|exact HP|].
    pose proof (send_to_contact_step k dry_run now subject message media_url st w c) as Hs.
    by rewrite H1 in Hs.
Qed.

(** *** Counting attempts *)

Lemma attempts_app k cid l1 l2 :
  attempts k cid (l1 ++ l2) = (attempts k cid l1 + attempts k cid l2)%nat.
Proof. unfold attempts. by rewrite List.filter_app, length_app. Qed.

Lemma attempts_called_same k contact p w :
  attempts k (c_id contact) (net_calls (called k contact p w))
  = S (attempts k (c_id contact) (net_calls w)).
Proof.
  unfold called; simpl. rewrite attempts_app. unfold attempts at 2; simpl.
  unfold is_attempt; simpl. rewrite !bool_decide_eq_true_2 by done. simpl. lia.
Qed.

Lemma attempts_called_other k k' cid contact p w :
  k' ≠ k ∨ c_id contact ≠ cid →
  attempts k cid (net_calls (called k' contact p w)) = attempts k cid (net_calls w).
Proof.
  intros Hne. unfold called; simpl. rewrite attempts_app. unfold attempts at 2; simpl.
  unfold is_attempt; simpl.
  destruct Hne; [rewrite (bool_decide_eq_false_2 (k' = k)) by done
                |rewrite (bool_decide_eq_false_2 (c_id contact = cid)) by done];
    rewrite ?andb_false_r; simpl; lia.
Qed.

Lemma budget_nonneg cid rs rc : (0 ≤ budget cid rs rc)%Z.
Proof. unfold budget. destruct (already_sent cid rs); lia. Qed.

Lemma retries_of_insert_same cid v rc :
  retries_of cid (<[retry_key_of cid := v]> rc) = v.
Proof. unfold retries_of. by rewrite lookup_insert_eq. Qed.

Lemma retries_of_insert_other cid cid' v rc :
  cid' ≠ cid → retries_of cid (<[retry_key_of cid' := v]> rc) = retries_of cid rc.
Proof.
  intros Hne. unfold retries_of. rewrite lookup_insert_ne; [done|].
  intros H. by apply retry_key_of_inj in H.
Qed.

Lemma sent_entry_is_email now contact :
  is_email_result_of (c_id contact) (sent_entry now contact) = true.
Proof. unfold is_email_result_of, sent_entry; simpl. by rewrite !bool_decide_eq_true_2. Qed.

(** Every attempt made for a contact is paid from its budget. *)
Lemma contact_step_budget k dry_run now contact st w st' w' cid :
  contact_step k dry_run now contact st w st' w' →
  (Z.of_nat (attempts k cid (net_calls w')) + budget cid (l_results st') (l_retry_counts st')
   ≤ Z.of_nat (attempts k cid (net_calls w)) + budget cid (l_results st) (l_retry_counts st))%Z.
Proof.
  intros Hstep. destruct (decide (c_id contact = cid)) as [<-|Hne].
  - inversion Hstep; subst; cbn [l_results l_retry_counts]; try lia.
    + unfold budget. rewrite already_sent_upsert_same by (done || apply sent_entry_is_email).
      destruct (already_sent _ (l_results st)); lia.
    + rewrite attempts_called_same. unfold budget.
      rewrite already_sent_upsert_same by (done || apply sent_entry_is_email).
      match goal with H : already_sent _ _ = false |- _ => rewrite H end.
      unfold MAX_RETRY_ATTEMPTS in *. lia.
    + rewrite attempts_called_same. unfold budget.
      match goal with H : already_sent _ _ = false |- _ => rewrite H end.
      rewrite retries_of_insert_same. unfold MAX_RETRY_ATTEMPTS in *. lia.
  - inversion Hstep; subst; cbn [l_results l_retry_counts]; try lia.
    + unfold budget. rewrite already_sent_upsert_other by done. lia.
    + rewrite attempts_called_other by auto.
      unfold budget. rewrite already_sent_upsert_other by done. lia.
    + rewrite attempts_called_other by auto.
      unfold budget. rewrite retries_of_insert_other by done. lia.
Qed.

(** ** One campaign *)

(** [process_campaign] follows one of the four paths. *)
Lemma process_campaign_step campaign dry_run db w :
  ∃ r ou w',
    process_campaign campaign dry_run db w = (r, store_after (id campaign) ou db, w') ∧
    campaign_step campaign dry_run db w r ou w'.
Proof.
  destruct (decide (dates_to_process (clock w (ticks w)) campaign = [])) as [Hdue|Hne].
  - exists (false, 0%nat, 0%nat), None, (tick w). split.
    + by apply process_campaign_not_due.
    + by constructor.
  - rewrite (process_campaign_due campaign dry_run db w Hne).
    destruct (resolve_contacts campaign db) as [|c0 cs] eqn:Hcontacts.
    + eexists _, (Some _), _. split; [reflexivity|]. by constructor.
    + assert (Hc : resolve_contacts campaign db ≠ []) by (by rewrite Hcontacts).
      destruct (email_enabled campaign) eqn:Hmail; cbn [negb].
      * rewrite <- Hcontacts.
        destruct (send_loop _ _ _ _ _ _ _ _ _) as [st w'] eqn:Hloop.
        eexists _, (Some _), _. split; [reflexivity|]. by constructor.
      * eexists _, (Some _), _. split; [reflexivity|]. by constructor.
Qed.

Lemma all_dates_done_spec now c :
  all_dates_done now c ↔
  ∀ d, d ∈ scheduledDates c → d ∈ sentDates c ++ dates_to_process now c.
Proof.
  unfold all_dates_done. split.
  - intros H d Hd. apply elem_of_app.
    rewrite <- !(elem_of_list_to_set (C := gset string)).
    apply elem_of_union, H. by apply elem_of_list_to_set.
  - intros H d Hd. apply elem_of_list_to_set, H, elem_of_app in Hd.
    apply elem_of_union. by rewrite !elem_of_list_to_set.
Qed.

(** The date test of the email-disabled path. *)
Lemma set_ge_all_dates_done now c :
  dates_to_process now c ≠ [] →
  set_ge (sentDates c ++ dates_to_process now c) (normalized_dates c) = true
  ↔ all_dates_done now c.
Proof.
  intros Hne. rewrite set_ge_spec, all_dates_done_spec.
  apply (covers_normalized now c _ Hne).
  intros d Hd. apply elem_of_app. by right.
Qed.

(** The date test of the send-loop path. *)
Lemma set_ge_list_of_set_all_dates_done now c :
  dates_to_process now c ≠ [] →
  set_ge (list_of_set (sentDates c ++ dates_to_process now c)) (normalized_dates c) = true
  ↔ all_dates_done now c.
Proof.
  intros Hne. rewrite <- (set_ge_all_dates_done now c Hne), !set_ge_spec.
  by setoid_rewrite elem_of_list_of_set.
Qed.

(** C1: on the send-loop path the status written to the store is
    [failed] when some delivery failed and none succeeded, otherwise
    [completed] when [sentDates] ∪ [due] covers [scheduledDates], otherwise
    [scheduled]; the counts are the ones [process_campaign] returns. *)
Theorem process_campaign_status_reduction campaign dry_run db w :
  let now := clock w (ticks w) in
  dates_to_process now campaign ≠ [] →
  resolve_contacts campaign db ≠ [] →
  email_enabled campaign = true →
  is_Some (find_one (id campaign) db) →
  ∃ successes failures db' w' c',
    process_campaign campaign dry_run db w = ((true, successes, failures), db', w') ∧
    find_one (id campaign) db' = Some c' ∧
    ((0 < failures)%nat ∧ successes = 0%nat → status c' = failed) ∧
    (¬ ((0 < failures)%nat ∧ successes = 0%nat) →
       all_dates_done now campaign → status c' = completed) ∧
    (¬ ((0 < failures)%nat ∧ successes = 0%nat) →
       ¬ all_dates_done now campaign → status c' = scheduled).
Proof.
  intros now Hdue Hcontacts Hmail [c0 Hc0].
  destruct (process_campaign_step campaign dry_run db w) as (r & ou & w' & Heq & Hstep).
  inversion Hstep; subst; try done; try congruence.
  eexists _, _, _, _, _. split; [exact Heq|]. fold now.
  cbn [store_after]. rewrite find_one_update_one, Hc0. split; [reflexivity|].
  cbn [apply_update status set_status default from_option]. unfold new_status_of.
  pose proof (set_ge_list_of_set_all_dates_done now campaign Hdue) as Hdone.
  repeat split.
  - intros [Hf Hs]. by rewrite !bool_decide_eq_true_2.
  - intros Hnot Hall. apply Hdone in Hall. rewrite Hall.
    case_bool_decide; case_bool_decide; simpl; try done. tauto.
  - intros Hnot Hall.
    destruct (set_ge _ _) eqn:Hge; [exfalso; by apply Hall, Hdone|].
    case_bool_decide; case_bool_decide; simpl; try done. tauto.
Qed.

Lemma resolve_contacts_selected_none campaign db :
  targetType campaign ≠ "all" →
  (∀ u, u ∈ db_users db → c_id u ∉ selectedContacts campaign) →
  resolve_contacts campaign db = [].
Proof.
  intros Htarget Hnone. unfold resolve_contacts, find_users_in.
  rewrite bool_decide_eq_false_2 by done.
  induction (db_users db) as [|u us IH]; simpl; [done|].
  rewrite bool_decide_eq_false_2 by (apply Hnone; left).
  apply IH. intros u' Hu'. apply Hnone. by right.
Qed.

(** C7: when a date is due and no contact resolves, the campaign is
    marked [completed] at once, the call returns [(True, 0, 0)] (it
    counts as processed with no success and no failure), no HTTP call is
    made and no result entry is added to any campaign. *)
Theorem process_campaign_no_contacts campaign dry_run db w :
  let now := clock w (ticks w) in
  dates_to_process now campaign ≠ [] →
  resolve_contacts campaign db = [] →
  ∃ db' w',
    process_campaign campaign dry_run db w = ((true, 0%nat, 0%nat), db', w') ∧
    net_calls w' = net_calls w ∧
    results <$> db_campaigns db' = results <$> db_campaigns db ∧
    (∀ c, find_one (id campaign) db = Some c →
       ∃ c', find_one (id campaign) db' = Some c' ∧
             status c' = completed ∧ results c' = results c ∧
             sentDates c' = sentDates c ∧ retryCounts c' = retryCounts c).
Proof.
  intros now Hdue Hcontacts.
  destruct (process_campaign_step campaign dry_run db w) as (r & ou & w' & Heq & Hstep).
  inversion Hstep; subst; try done.
  eexists _, _. split; [exact Heq|]. split; [done|]. split.
  - by apply update_first_fmap_frame.
  - intros c Hc. cbn [store_after]. rewrite find_one_update_one, Hc.
    eexists. split; [reflexivity|]. done.
Qed.

(** C6: when a date is due, contacts resolve and the email channel is
    disabled, no HTTP call is made, the due dates are added to the stored
    [sentDates] as to a set, and the status becomes [completed] exactly
    when [sentDates] ∪ [due] covers [scheduledDates], [scheduled]
    otherwise; results and retry counters are left alone. *)
Theorem process_campaign_email_disabled campaign dry_run db w :
  let now := clock w (ticks w) in
  dates_to_process now campaign ≠ [] →
  resolve_contacts campaign db ≠ [] →
  email_enabled campaign = false →
  find_one (id campaign) db = Some campaign →
  ∃ db' w' c',
    process_campaign campaign dry_run db w = ((true, 0%nat, 0%nat), db', w') ∧
    net_calls w' = net_calls w ∧
    find_one (id campaign) db' = Some c' ∧
    (∀ d, d ∈ sentDates c' ↔ d ∈ sentDates campaign ∨ d ∈ dates_to_process now campaign) ∧
    (all_dates_done now campaign → status c' = completed) ∧
    (¬ all_dates_done now campaign → status c' = scheduled) ∧
    results c' = results campaign ∧ retryCounts c' = retryCounts campaign.
Proof.
  intros now Hdue Hcontacts Hmail Hfind.
  destruct (process_campaign_step campaign dry_run db w) as (r & ou & w' & Heq & Hstep).
  inversion Hstep; subst; try done; try congruence.
  eexists _, _, _. split; [exact Heq|]. split; [done|].
  cbn [store_after]. rewrite find_one_update_one, Hfind. split; [reflexivity|].
  cbn [apply_update sentDates status results retryCounts set_sentDates set_status
       set_results set_retryCounts addToSet_sentDates default from_option].
  pose proof (set_ge_all_dates_done now campaign Hdue) as Hdone. fold now.
  split; [apply elem_of_add_to_set|].
  split; [|split]; [| |done].
  - intros Hall. apply Hdone in Hall. by rewrite Hall.
  - intros Hall. destruct (set_ge _ _); [|done]. exfalso. by apply Hall, Hdone.
Qed.

(** *** What a step leaves alone *)

(** A step leaves the oracle and the clock alone and makes calls only
    on behalf of its own campaign. *)
Lemma contact_step_world k dry_run now contact st w st' w' :
  contact_step k dry_run now contact st w st' w' →
  net_oracle w' = net_oracle w ∧ clock w' = clock w ∧ ticks w' = ticks w ∧
  ∀ k' cid, k' ≠ k → attempts k' cid (net_calls w') = attempts k' cid (net_calls w).
Proof.
  intros Hstep. inversion Hstep; subst; repeat split; try done;
    intros k' cid Hne; apply attempts_called_other; auto.
Qed.

(** No stored counter passes the ceiling. *)
Lemma contact_step_ceiling k dry_run now contact st w st' w' :
  contact_step k dry_run now contact st w st' w' →
  map_Forall (λ _ v, v ≤ MAX_RETRY_ATTEMPTS)%Z (l_retry_counts st) →
  map_Forall (λ _ v, v ≤ MAX_RETRY_ATTEMPTS)%Z (l_retry_counts st').
Proof.
  intros Hstep Hall. inversion Hstep; subst; cbn [l_retry_counts]; try done.
  apply map_Forall_insert_2; [lia|done].
Qed.

(** A contact whose counter is at the ceiling is not attempted and its
    counter, like every other, stays as it is. *)
Lemma contact_step_at_ceiling k dry_run now contact st w st' w' :
  contact_step k dry_run now contact st w st' w' →
  (MAX_RETRY_ATTEMPTS ≤ retries_of (c_id contact) (l_retry_counts st))%Z →
  w' = w ∧ l_retry_counts st' = l_retry_counts st ∧ l_results st' = l_results st ∧
  (truthy (c_email contact) = true →
   already_sent (c_id contact) (l_results st) = false →
   fail_count st' = S (fail_count st) ∧ success_count st' = success_count st).
Proof.
  intros Hstep Hmax. inversion Hstep; subst; cbn; repeat split; try done; try lia;
    congruence.
Qed.

(** A contact with a [sent] email result is not attempted; it counts as
    a success when it has an email address. *)
Lemma contact_step_already_sent k dry_run now contact st w st' w' :
  contact_step k dry_run now contact st w st' w' →
  already_sent (c_id contact) (l_results st) = true →
  w' = w ∧ l_results st' = l_results st ∧ l_retry_counts st' = l_retry_counts st ∧
  fail_count st' = fail_count st ∧
  success_count st' =
    (if truthy (c_email contact) then S (success_count st) else success_count st).
Proof.
  intros Hstep Hsent. inversion Hstep; subst; cbn; try congruence.
  - match goal with H : truthy _ = _ |- _ => rewrite H end. done.
  - match goal with H : truthy _ = _ |- _ => rewrite H end. done.
Qed.

(** Whatever contact a step handles, the entries of a contact whose
    email is already [sent] stay as they are and it is not attempted. *)
Lemma contact_step_sent_frame k dry_run now contact st w st' w' cid :
  contact_step k dry_run now contact st w st' w' →
  already_sent cid (l_results st) = true →
  already_sent cid (l_results st') = true ∧
  results_of cid (l_results st') = results_of cid (l_results st) ∧
  attempts k cid (net_calls w') = attempts k cid (net_calls w).
Proof.
  intros Hstep Hsent. destruct (decide (c_id contact = cid)) as [<-|Hne].
  - destruct (contact_step_already_sent _ _ _ _ _ _ _ _ Hstep Hsent)
      as (-> & -> & _). done.
  - inversion Hstep; subst; cbn [l_results]; try done.
    + by rewrite already_sent_upsert_other, results_of_upsert_other.
    + rewrite already_sent_upsert_other, results_of_upsert_other by done.
      by rewrite attempts_called_other by auto.
    + by rewrite attempts_called_other by auto.
Qed.

(** *** The loop *)

Lemma send_loop_budget k dry_run now subject message media_url contacts st w cid :
  let r := send_loop k dry_run now subject message media_url contacts st w in
  (Z.of_nat (attempts k cid (net_calls r.2))
     + budget cid (l_results r.1) (l_retry_counts r.1)
   ≤ Z.of_nat (attempts k cid (net_calls w))
     + budget cid (l_results st) (l_retry_counts st))%Z.
Proof.
  apply (send_loop_ind
    (λ st' w', (Z.of_nat (attempts k cid (net_calls w'))
                  + budget cid (l_results st') (l_retry_counts st')
                ≤ Z.of_nat (attempts k cid (net_calls w))
                  + budget cid (l_results st) (l_retry_counts st))%Z));
    [|lia].
  intros contact st1 w1 st2 w2 _ H1 Hstep.
  pose proof (contact_step_budget _ _ _ _ _ _ _ _ cid Hstep). lia.
Qed.

Lemma send_loop_world k dry_run now subject message media_url contacts st w :
  let r := send_loop k dry_run now subject message media_url contacts st w in
  net_oracle r.2 = net_oracle w ∧ clock r.2 = clock w ∧ ticks r.2 = ticks w ∧
  ∀ k' cid, k' ≠ k → attempts k' cid (net_calls r.2) = attempts k' cid (net_calls w).
Proof.
  apply (send_loop_ind
    (λ st' w', net_oracle w' = net_oracle w ∧ clock w' = clock w ∧ ticks w' = ticks w ∧
       ∀ k' cid, k' ≠ k → attempts k' cid (net_calls w') = attempts k' cid (net_calls w)));
    [|done].
  intros contact st1 w1 st2 w2 _ (Ho & Hc & Ht & Ha) Hstep.
  destruct (contact_step_world _ _ _ _ _ _ _ _ Hstep) as (Ho' & Hc' & Ht' & Ha').
  repeat split; try congruence.
  intros k' cid Hne. by rewrite Ha', Ha.
Qed.

Lemma send_loop_ceiling k dry_run now subject message media_url contacts st w :
  let r := send_loop k dry_run now subject message media_url contacts st w in
  map_Forall (λ _ v, v ≤ MAX_RETRY_ATTEMPTS)%Z (l_retry_counts st) →
  map_Forall (λ _ v, v ≤ MAX_RETRY_ATTEMPTS)%Z (l_retry_counts r.1).
Proof.
  intros r Hall. subst r.
  apply (send_loop_ind
    (λ st' w', map_Forall (λ _ v, v ≤ MAX_RETRY_ATTEMPTS)%Z (l_retry_counts st')));
    [|done].
  intros contact st1 w1 st2 w2 _ H1 Hstep. by eapply contact_step_ceiling.
Qed.

Lemma send_loop_sent_frame k dry_run now subject message media_url contacts st w cid :
  let r := send_loop k dry_run now subject message media_url contacts st w in
  already_sent cid (l_results st) = true →
  already_sent cid (l_results r.1) = true ∧
  results_of cid (l_results r.1) = results_of cid (l_results st) ∧
  attempts k cid (net_calls r.2) = attempts k cid (net_calls w).
Proof.
  intros r Hsent. subst r.
  apply (send_loop_ind
    (λ st' w', already_sent cid (l_results st') = true ∧
               results_of cid (l_results st') = results_of cid (l_results st) ∧
               attempts k cid (net_calls w') = attempts k cid (net_calls w)));
    [|done].
  intros contact st1 w1 st2 w2 _ (H1 & H2 & H3) Hstep.
  destruct (contact_step_sent_frame _ _ _ _ _ _ _ _ cid Hstep H1) as (? & ? & ?).
  repeat split; congruence.
Qed.

(** *** What one campaign's processing does to its document *)

Lemma filter_nil_iff {A} (f : A → bool) (l : list A) :
  List.filter f l = [] ↔ ∀ x, x ∈ l → f x = false.
Proof.
  induction l as [|a l IH]; simpl.
  - split; [by intros _ x ?%elem_of_nil|done].
  - destruct (f a) eqn:Ha.
    + split; [done|]. intros H. specialize (H a). rewrite Ha in H.
      discriminate H. left.
    + rewrite IH. split.
      * intros H x [->|Hx]%elem_of_cons; auto.
      * intros H x Hx. apply H. by right.
Qed.

Lemma is_due_mono now (sent sent' : list string) d :
  (∀ x, x ∈ sent → x ∈ sent') →
  is_due now sent' d = true → is_due now sent d = true.
Proof.
  intros Hsub. unfold is_due. destruct (parse_scheduled_date d); [|done].
  rewrite !andb_true_iff, !negb_true_iff, !bool_decide_eq_false.
  intros [? ?]; split; auto.
Qed.

(** Once the due dates are in [sentDates], nothing is due at the same
    instant. *)
Lemma nothing_due_after now c c' :
  normalized_dates c' = normalized_dates c →
  (∀ d, d ∈ sentDates c ++ dates_to_process now c → d ∈ sentDates c') →
  dates_to_process now c' = [].
Proof.
  intros Hn Hsub. unfold dates_to_process at 1. rewrite Hn.
  apply filter_nil_iff. intros d Hd.
  destruct (is_due now (sentDates c') d) eqn:Hdue; [|done]. exfalso.
  apply (is_due_not_sent _ _ _ Hdue), Hsub, elem_of_app. right.
  apply elem_of_dates_to_process. split; [done|].
  apply (is_due_mono now _ (sentDates c')); [|done].
  intros x Hx. apply Hsub, elem_of_app. by left.
Qed.

Lemma new_status_of_written s f b :
  new_status_of s f b ∈ [completed; failed; scheduled].
Proof.
  unfold new_status_of.
  destruct (_ && _); [set_solver|]. destruct b; set_solver.
Qed.

(** Every status the dispatcher writes is [completed], [failed] or
    [scheduled]. *)
Lemma campaign_step_status c dry_run db w r ou w2 u :
  campaign_step c dry_run db w r ou w2 → ou = Some u →
  ∃ s, set_status u = Some s ∧ s ∈ [completed; failed; scheduled].
Proof.
  intros Hstep Hou. inversion Hstep; subst; simplify_eq; cbn [set_status].
  - eexists; split; [done|set_solver].
  - eexists; split; [done|]. destruct (set_ge _ _); set_solver.
  - eexists; split; [done|]. apply new_status_of_written.
Qed.

Lemma campaign_step_world c dry_run db w r ou w2 :
  campaign_step c dry_run db w r ou w2 →
  net_oracle w2 = net_oracle w ∧ clock w2 = clock w ∧ ticks w2 = S (ticks w) ∧
  ∀ k' cid, k' ≠ id c → attempts k' cid (net_calls w2) = attempts k' cid (net_calls w).
Proof.
  intros Hstep. inversion Hstep; subst; try done.
  match goal with H : send_loop _ _ _ _ _ _ _ _ _ = _ |- _ =>
    pose proof (send_loop_world (id c) dry_run (clock w (ticks w)) ("📢 " +:+ name c)
                  (message c) (mediaUrl c) (resolve_contacts c db)
                  (mkLoop 0 0 (results c) (retryCounts c)) (tick w)) as Hw;
    rewrite H in Hw end.
  exact Hw.
Qed.

(** The calls of a path that does not reach the send loop. *)
Lemma campaign_step_no_call c dry_run db w r ou w2 :
  campaign_step c dry_run db w r ou w2 →
  dates_to_process (clock w (ticks w)) c = [] ∨ resolve_contacts c db = []
    ∨ email_enabled c = false →
  w2 = tick w.
Proof.
  intros Hstep Hpath. inversion Hstep; subst; try done.
  destruct Hpath as [?|[?|?]]; congruence.
Qed.

Lemma campaign_step_budget c dry_run db w r ou w2 cid :
  campaign_step c dry_run db w r ou w2 →
  (Z.of_nat (attempts (id c) cid (net_calls w2))
     + budget cid (results (doc_after ou c)) (retryCounts (doc_after ou c))
   ≤ Z.of_nat (attempts (id c) cid (net_calls w))
     + budget cid (results c) (retryCounts c))%Z.
Proof.
  intros Hstep. inversion Hstep; subst;
    cbn [doc_after apply_update results retryCounts set_results set_retryCounts
         default from_option];
    rewrite ?net_calls_tick; try lia.
  match goal with H : send_loop _ _ _ _ _ _ _ _ _ = _ |- _ =>
    pose proof (send_loop_budget (id c) dry_run (clock w (ticks w)) ("📢 " +:+ name c)
                  (message c) (mediaUrl c) (resolve_contacts c db)
                  (mkLoop 0 0 (results c) (retryCounts c)) (tick w) cid) as Hb;
    rewrite H in Hb end.
  exact Hb.
Qed.

Lemma campaign_step_ceiling c dry_run db w r ou w2 :
  campaign_step c dry_run db w r ou w2 →
  counters_bounded c → counters_bounded (doc_after ou c).
Proof.
  unfold counters_bounded.
  intros Hstep Hall. inversion Hstep; subst; cbn; try done.
  match goal with H : send_loop _ _ _ _ _ _ _ _ _ = _ |- _ =>
    pose proof (send_loop_ceiling (id c) dry_run (clock w (ticks w)) ("📢 " +:+ name c)
                  (message c) (mediaUrl c) (resolve_contacts c db)
                  (mkLoop 0 0 (results c) (retryCounts c)) (tick w)) as Hb;
    rewrite H in Hb end.
  by apply Hb.
Qed.

Lemma campaign_step_sent_frame c dry_run db w r ou w2 cid :
  campaign_step c dry_run db w r ou w2 →
  already_sent cid (results c) = true →
  already_sent cid (results (doc_after ou c)) = true ∧
  results_of cid (results (doc_after ou c)) = results_of cid (results c) ∧
  attempts (id c) cid (net_calls w2) = attempts (id c) cid (net_calls w).
Proof.
  intros Hstep Hsent. inversion Hstep; subst; cbn; try done.
  match goal with H : send_loop _ _ _ _ _ _ _ _ _ = _ |- _ =>
    pose proof (send_loop_sent_frame (id c) dry_run (clock w (ticks w))
                  ("📢 " +:+ name c)
                  (message c) (mediaUrl c) (resolve_contacts c db)
                  (mkLoop 0 0 (results c) (retryCounts c)) (tick w) cid) as Hb;
    rewrite H in Hb end.
  by apply Hb.
Qed.

Lemma normalized_dates_doc_after ou c :
  normalized_dates (doc_after ou c) = normalized_dates c.
Proof. by destruct ou. Qed.

Lemma campaign_step_dates c dry_run db w r ou w2 :
  campaign_step c dry_run db w r ou w2 →
  dates_consistent c → dates_consistent (doc_after ou c).
Proof.
  unfold dates_consistent. intros Hstep Hsub d.
  rewrite normalized_dates_doc_after.
  inversion Hstep; subst; cbn -[add_to_set list_of_set]; auto.
  - rewrite elem_of_add_to_set.
    intros [?|Hd]; [auto|]. by apply elem_of_dates_to_process in Hd as [? _].
  - rewrite add_to_set_nil, elem_of_list_of_set, elem_of_app.
    intros [?|Hd]; [auto|]. by apply elem_of_dates_to_process in Hd as [? _].
Qed.

(** After its processing a campaign is out of the sweep's filter or has
    nothing due at the instant it was processed. *)
Lemma campaign_step_quiet c dry_run db w r ou w2 :
  campaign_step c dry_run db w r ou w2 →
  is_selected (doc_after ou c) = false
  ∨ dates_to_process (clock w (ticks w)) (doc_after ou c) = [].
Proof.
  intros Hstep. inversion Hstep; subst.
  - by right.
  - left. reflexivity.
  - right. apply (nothing_due_after _ c); [done|].
    intros d Hd. cbn -[add_to_set]. apply elem_of_add_to_set. by apply elem_of_app in Hd.
  - right. apply (nothing_due_after _ c); [done|].
    intros d Hd. cbn -[list_of_set]. by rewrite elem_of_list_of_set.
Qed.

(** ** The store under [process_campaign] *)

Lemma store_after_ids i ou db :
  id <$> db_campaigns (store_after i ou db) = id <$> db_campaigns db.
Proof. destruct ou; [apply update_first_ids|done]. Qed.

Lemma store_after_users i ou db : db_users (store_after i ou db) = db_users db.
Proof. by destruct ou. Qed.

Lemma find_one_store_after i ou db :
  find_one i (store_after i ou db) = doc_after ou <$> find_one i db.
Proof.
  destruct ou; simpl; [apply find_one_update_one|].
  by destruct (find_one i db).
Qed.

Lemma find_one_store_after_ne i j ou db :
  i ≠ j → find_one j (store_after i ou db) = find_one j db.
Proof. intros. destruct ou; [by apply find_one_update_one_ne|done]. Qed.

Lemma elem_of_update_first i u cs c d :
  NoDup (id <$> cs) →
  List.find (λ c, bool_decide (id c = i)) cs = Some c →
  d ∈ update_first i u cs →
  (d ∈ cs ∧ id d ≠ i) ∨ d = apply_update u c.
Proof.
  induction cs as [|c0 cs IH]; cbn [update_first List.find]; [done|].
  rewrite fmap_cons, NoDup_cons. intros [Hc0 Hnd].
  case_bool_decide as Hi.
  - intros [= ->] [->|Hd]%elem_of_cons; [by right|]. left. split; [by right|].
    intros Hd'. apply Hc0. rewrite Hi, <- Hd'. by apply list_elem_of_fmap_2.
  - intros Hfind [->|Hd]%elem_of_cons.
    + left. split; [left|done].
    + destruct (IH Hnd Hfind Hd) as [[? ?]|?]; [left|by right].
      split; [by right|done].
Qed.

Lemma elem_of_store_after i ou db c d :
  NoDup (id <$> db_campaigns db) →
  find_one i db = Some c →
  d ∈ db_campaigns (store_after i ou db) →
  (d ∈ db_campaigns db ∧ id d ≠ i) ∨ d = doc_after ou c.
Proof.
  intros Hnd Hfind. destruct ou as [u|]; simpl.
  - by apply elem_of_update_first.
  - intros Hd. destruct (decide (id d = i)) as [Hi|Hi]; [|by left].
    right. pose proof (find_one_unique db d Hnd Hd) as Hd'.
    rewrite Hi in Hd'. congruence.
Qed.

Lemma elem_of_store_after_other i ou db d :
  d ∈ db_campaigns db → id d ≠ i → d ∈ db_campaigns (store_after i ou db).
Proof.
  intros Hd Hi. destruct ou as [u|]; simpl; [|done].
  induction (db_campaigns db) as [|c0 cs IH]; simpl; [done|].
  apply elem_of_cons in Hd as [->|Hd].
  - rewrite bool_decide_eq_false_2 by done. left.
  - case_bool_decide; right; auto.
Qed.

(** ** One sweep *)

Lemma run_campaign_tally dry_run acc db w c :
  ∃ r ou w',
    run_campaign dry_run (acc, db, w) c = (tally acc r, store_after (id c) ou db, w') ∧
    campaign_step c dry_run db w r ou w'.
Proof.
  destruct (process_campaign_step c dry_run db w) as (r & ou & w' & Heq & Hstep).
  exists r, ou, w'. split; [|done].
  unfold run_campaign. destruct acc as [[p s] f]. rewrite Heq.
  destruct r as [[[] s'] f']; reflexivity.
Qed.

Lemma elem_of_find_scheduled db c :
  c ∈ find_scheduled db ↔ c ∈ db_campaigns db ∧ is_selected c = true.
Proof.
  unfold find_scheduled, is_selected.
  by rewrite list_elem_of_In, filter_In, <- list_elem_of_In.
Qed.

Lemma NoDup_find_scheduled_ids db :
  NoDup (id <$> db_campaigns db) → NoDup (id <$> find_scheduled db).
Proof.
  unfold find_scheduled.
  induction (db_campaigns db) as [|c cs IH]; cbn [List.filter]; [done|].
  rewrite fmap_cons, NoDup_cons. intros [Hc Hnd].
  destruct (bool_decide _); [|by apply IH].
  rewrite fmap_cons, NoDup_cons. split; [|by apply IH].
  intros (c' & Hid & Hc')%list_elem_of_fmap. apply Hc.
  rewrite Hid. apply list_elem_of_fmap_2.
  apply list_elem_of_In in Hc'. apply filter_In in Hc' as [Hc' _].
  by apply list_elem_of_In.
Qed.

(** The induction principle of a sweep over a store with unique ids:
    when a campaign is processed, the snapshot the sweep holds is still
    the stored document. The invariant may mention the campaigns not yet
    processed and the running totals. *)
Lemma sweep_fold_ind
    (Inv : list Campaign → nat * nat * nat → Db → World → Prop) dry_run :
  (∀ c l acc db w r ou w',
     NoDup (id <$> db_campaigns db) →
     find_one (id c) db = Some c →
     is_selected c = true →
     id c ∉ id <$> l →
     Inv (c :: l) acc db w →
     campaign_step c dry_run db w r ou w' →
     Inv l (tally acc r) (store_after (id c) ou db) w') →
  ∀ l acc db w,
    NoDup (id <$> db_campaigns db) →
    NoDup (id <$> l) →
    (∀ c, c ∈ l → c ∈ db_campaigns db ∧ is_selected c = true) →
    Inv l acc db w →
    let res := fold_left (run_campaign dry_run) l (acc, db, w) in
    Inv [] res.1.1 res.1.2 res.2 ∧ NoDup (id <$> db_campaigns res.1.2).
Proof.
  intros Hstep l. induction l as [|c l IH]; intros acc db w Hnd Hl Hin HInv;
    cbn [fold_left]; [done|].
  destruct (run_campaign_tally dry_run acc db w c) as (r & ou & w' & -> & Hc).
  rewrite fmap_cons, NoDup_cons in Hl. destruct Hl as [Hcl Hl].
  destruct (Hin c) as [Hcdb Hsel]; [left|].
  apply IH.
  - by rewrite store_after_ids.
  - done.
  - intros c' Hc'. destruct (Hin c') as [? ?]; [by right|]. split; [|done].
    apply elem_of_store_after_other; [done|].
    intros Heq. apply Hcl. rewrite <- Heq. by apply list_elem_of_fmap_2.
  - eapply Hstep; eauto. by apply find_one_unique.
Qed.

Lemma run_scheduler_fold dry_run db w :
  run_scheduler dry_run db w
  = fold_left (run_campaign dry_run) (find_scheduled db) ((0%nat, 0%nat, 0%nat), db, tick w).
Proof. reflexivity. Qed.

(** The same for an invariant of the store and the world alone. *)
Lemma run_scheduler_ind (Inv : Db → World → Prop) dry_run db w :
  (∀ db w, Inv db w → Inv db (tick w)) →
  (∀ c db w r ou w',
     NoDup (id <$> db_campaigns db) →
     find_one (id c) db = Some c →
     is_selected c = true →
     Inv db w →
     campaign_step c dry_run db w r ou w' →
     Inv (store_after (id c) ou db) w') →
  NoDup (id <$> db_campaigns db) →
  Inv db w →
  let res := run_scheduler dry_run db w in
  Inv res.1.2 res.2 ∧ NoDup (id <$> db_campaigns res.1.2).
Proof.
  intros Htick Hstep Hnd HInv. rewrite run_scheduler_fold.
  apply (sweep_fold_ind (λ _ _, Inv)); auto.
  - intros; eapply Hstep; eauto.
  - by apply NoDup_find_scheduled_ids.
  - intros c. by rewrite elem_of_find_scheduled.
Qed.

Lemma run_sweeps_ind (Inv : Db → World → Prop) dry_run n db w :
  (∀ db w, Inv db w → Inv db (tick w)) →
  (∀ c db w r ou w',
     NoDup (id <$> db_campaigns db) →
     find_one (id c) db = Some c →
     is_selected c = true →
     Inv db w →
     campaign_step c dry_run db w r ou w' →
     Inv (store_after (id c) ou db) w') →
  NoDup (id <$> db_campaigns db) →
  Inv db w →
  let res := run_sweeps n dry_run db w in
  Inv res.1 res.2 ∧ NoDup (id <$> db_campaigns res.1).
Proof.
  intros Htick Hstep. revert db w.
  induction n as [|n IH]; intros db w Hnd HInv; cbn [run_sweeps]; [done|].
  destruct (run_scheduler_ind Inv dry_run db w Htick Hstep Hnd HInv) as [H1 H2].
  destruct (run_scheduler dry_run db w) as [[acc db'] w'].
  by apply IH.
Qed.

(** ** Statuses *)

Lemma kept_or_written_trans c1 c2 c3 :
  kept_or_written c1 c2 → kept_or_written c2 c3 → kept_or_written c1 c3.
Proof. unfold kept_or_written. intros [->|?] [->|?]; auto. Qed.

Lemma campaign_step_kept_or_written c dry_run db w r ou w' :
  campaign_step c dry_run db w r ou w' →
  Forall2 kept_or_written (db_campaigns db) (db_campaigns (store_after (id c) ou db)).
Proof.
  intros Hstep. destruct ou as [u|]; simpl.
  - destruct (campaign_step_status _ _ _ _ _ _ _ u Hstep eq_refl) as (s & Hs & Hin).
    apply update_first_Forall2; [by left|].
    intros d _ _. right. cbn. by rewrite Hs.
  - apply Forall_Forall2_diag, Forall_forall. by left.
Qed.

Lemma sweep_fold_kept_or_written dry_run l acc db w :
  Forall2 kept_or_written (db_campaigns db)
    (db_campaigns (fold_left (run_campaign dry_run) l (acc, db, w)).1.2).
Proof.
  revert acc db w. induction l as [|c l IH]; intros acc db w; cbn [fold_left].
  - apply Forall_Forall2_diag, Forall_forall. by left.
  - destruct (run_campaign_tally dry_run acc db w c) as (r & ou & w' & -> & Hc).
    eapply Forall2_trans; [apply kept_or_written_trans| |apply IH].
    by eapply campaign_step_kept_or_written.
Qed.

Lemma run_sweeps_kept_or_written n dry_run db w :
  Forall2 kept_or_written (db_campaigns db) (db_campaigns (run_sweeps n dry_run db w).1).
Proof.
  revert db w. induction n as [|n IH]; intros db w; cbn [run_sweeps].
  - apply Forall_Forall2_diag, Forall_forall. by left.
  - pose proof (sweep_fold_kept_or_written dry_run (find_scheduled db)
                  (0%nat, 0%nat, 0%nat) db (tick w)) as H.
    rewrite <- run_scheduler_fold in H.
    destruct (run_scheduler dry_run db w) as [[acc db'] w'].
    eapply Forall2_trans; [apply kept_or_written_trans|exact H|apply IH].
Qed.

(** C10: every status the dispatcher persists is [completed], [failed]
    or [scheduled]. A campaign in status [sending] is selected by the
    sweep; a call of [process_campaign] that reports the
    campaign as processed leaves its stored document with one of these
    three; and after any number of sweeps every document of the store is
    either exactly as it was or carries one of these three, so a
    document the dispatcher has written never carries [sending]. *)
Theorem dispatcher_never_writes_sending dry_run db w :
  (∀ c, c ∈ db_campaigns db → status c = sending → c ∈ find_scheduled db) ∧
  (∀ campaign c,
     (process_campaign campaign dry_run db w).1.1.1.1 = true →
     find_one (id campaign) db = Some c →
     ∃ c', find_one (id campaign) (process_campaign campaign dry_run db w).1.2 = Some c' ∧
           status c' ∈ [completed; failed; scheduled]) ∧
  (∀ n, Forall2 (λ c c', c' = c ∨ status c' ∈ [completed; failed; scheduled])
          (db_campaigns db) (db_campaigns (run_sweeps n dry_run db w).1)) ∧
  (∀ n i c c',
     db_campaigns db !! i = Some c →
     db_campaigns (run_sweeps n dry_run db w).1 !! i = Some c' →
     c' ≠ c → status c' ≠ sending).
Proof.
  split; [|split; [|split]].
  - intros c Hc Hs. apply elem_of_find_scheduled. split; [done|].
    unfold is_selected. by rewrite Hs.
  - intros campaign c Hprocessed Hfind.
    destruct (process_campaign_step campaign dry_run db w) as (r & ou & w' & Heq & Hstep).
    rewrite Heq in *. cbn [fst snd] in *.
    rewrite find_one_store_after, Hfind. eexists; split; [reflexivity|].
    destruct ou as [u|]; [|by inversion Hstep; subst].
    destruct (campaign_step_status _ _ _ _ _ _ _ u Hstep eq_refl) as (s & Hs & Hin).
    cbn. by rewrite Hs.
  - intros n. apply run_sweeps_kept_or_written.
  - intros n i c c' Hc Hc' Hne.
    destruct (Forall2_lookup_lr _ _ _ i c c'
                (run_sweeps_kept_or_written n dry_run db w) Hc Hc') as [->|Hst]; [done|].
    intros Hs. rewrite Hs in Hst.
    by repeat (apply elem_of_cons in Hst as [?|Hst]; [done|]); apply elem_of_nil in Hst.
Qed.

(** ** Failed campaigns *)

Lemma failed_not_selected c : status c = failed → is_selected c = false.
Proof. intros H. unfold is_selected. by rewrite H. Qed.

Lemma failed_step_untouched c c2 dry_run db w r ou w' :
  status c = failed →
  find_one (id c2) db = Some c2 → is_selected c2 = true →
  find_one (id c) db = Some c →
  campaign_step c2 dry_run db w r ou w' →
  find_one (id c) (store_after (id c2) ou db) = Some c.
Proof.
  intros Hfailed Hc2 Hsel Hc _.
  destruct (decide (id c2 = id c)) as [Heq|Hne].
  - rewrite Heq in Hc2. assert (c2 = c) as -> by congruence.
    by rewrite failed_not_selected in Hsel.
  - by rewrite find_one_store_after_ne.
Qed.

Lemma run_scheduler_failed_untouched dry_run db w c :
  NoDup (id <$> db_campaigns db) → c ∈ db_campaigns db → status c = failed →
  find_one (id c) (run_scheduler dry_run db w).1.2 = Some c.
Proof.
  intros Hnd Hc Hfailed.
  apply (run_scheduler_ind (λ db1 _, find_one (id c) db1 = Some c)); auto.
  - intros c2 db1 w1 r ou w2 _ Hc2 Hsel Hfind Hstep.
    by eapply failed_step_untouched.
  - by apply find_one_unique.
Qed.

Lemma run_sweeps_failed_untouched n dry_run db w c :
  NoDup (id <$> db_campaigns db) → c ∈ db_campaigns db → status c = failed →
  find_one (id c) (run_sweeps n dry_run db w).1 = Some c.
Proof.
  intros Hnd Hc Hfailed.
  apply (run_sweeps_ind (λ db1 _, find_one (id c) db1 = Some c)); auto.
  - intros c2 db1 w1 r ou w2 _ Hc2 Hsel Hfind Hstep.
    by eapply failed_step_untouched.
  - by apply find_one_unique.
Qed.

(** C8, as the code has it: in a store with unique ids a campaign whose
    status is [failed] is not among the campaigns a sweep selects, and
    after any number of sweeps its stored document is exactly what it
    was; [failed] is terminal for the dispatcher. *)
Theorem failed_is_terminal n dry_run db w c :
  NoDup (id <$> db_campaigns db) → c ∈ db_campaigns db → status c = failed →
  (c ∉ find_scheduled db) ∧
  find_one (id c) (run_sweeps n dry_run db w).1 = Some c.
Proof.
  intros Hnd Hc Hfailed. split; [|by apply run_sweeps_failed_untouched].
  rewrite elem_of_find_scheduled, failed_not_selected by done. by intros [_ ?].
Qed.

(** ** Sent dates and scheduled dates *)

Lemma dates_consistent_step c2 dry_run db w r ou w' :
  NoDup (id <$> db_campaigns db) →
  find_one (id c2) db = Some c2 →
  (∀ c, c ∈ db_campaigns db → dates_consistent c) →
  campaign_step c2 dry_run db w r ou w' →
  ∀ c, c ∈ db_campaigns (store_after (id c2) ou db) → dates_consistent c.
Proof.
  intros Hnd Hc2 Hall Hstep c Hc.
  destruct (elem_of_store_after _ _ _ _ _ Hnd Hc2 Hc) as [[? _]| ->]; [auto|].
  eapply campaign_step_dates; [done|]. by apply Hall, (find_one_Some (id c2)).
Qed.

(** C2, as the code has it: in a store with unique ids, if every
    campaign has its [sentDates] within its normalised scheduled dates
    ([scheduledDates] when not empty, else the single [scheduledAt]),
    then so has every campaign after any number of sweeps; in
    particular [sentDates] is a subset of [scheduledDates] for every
    campaign whose [scheduledDates] is not empty. *)
Theorem sent_dates_within_scheduled n dry_run db w :
  NoDup (id <$> db_campaigns db) →
  Forall (λ c, sentDates c ⊆ normalized_dates c) (db_campaigns db) →
  Forall (λ c', sentDates c' ⊆ normalized_dates c' ∧
                (scheduledDates c' ≠ [] → sentDates c' ⊆ scheduledDates c'))
    (db_campaigns (run_sweeps n dry_run db w).1).
Proof.
  intros Hnd Hall. rewrite Forall_forall in Hall.
  assert (Hinv : ∀ c', c' ∈ db_campaigns (run_sweeps n dry_run db w).1 →
                       dates_consistent c').
  { apply (run_sweeps_ind (λ db1 _, ∀ c, c ∈ db_campaigns db1 → dates_consistent c));
      auto.
    intros c2 db1 w1 r ou w2 Hnd1 Hc2 _ Hall1 Hstep.
    by eapply dates_consistent_step. }
  apply Forall_forall. intros c' Hc'. split; [by apply Hinv|].
  intros Hne d Hd. rewrite <- (normalized_dates_nonempty c' Hne). by apply Hinv.
Qed.

(** ** Nothing due *)

Lemma nothing_due_iff now c :
  dates_to_process now c = [] ↔
  ∀ d, d ∈ normalized_dates c →
    parse_scheduled_date d = None
    ∨ (∃ dt, parse_scheduled_date d = Some dt ∧ (now < instant dt)%Z)
    ∨ d ∈ sentDates c.
Proof.
  unfold dates_to_process. rewrite filter_nil_iff.
  apply forall_proper; intros d. apply forall_proper; intros Hd.
  unfold is_due. destruct (parse_scheduled_date d) as [dt|]; [|by intuition].
  rewrite andb_false_iff, negb_false_iff, bool_decide_eq_false, bool_decide_eq_true.
  split.
  - intros [Hlt|Hin]; [right; left|by right; right].
    exists dt. split; [done|lia].
  - intros [?|[(dt' & [= <-] & Hlt)|Hin]]; [done|left; lia|by right].
Qed.

(** A sweep over campaigns with nothing due reads the clock and does
    nothing else. *)
Lemma quiet_fold dry_run l acc db w :
  (∀ c n, c ∈ l → dates_to_process (clock w n) c = []) →
  ∃ w', fold_left (run_campaign dry_run) l (acc, db, w) = (acc, db, w') ∧
        net_calls w' = net_calls w ∧ clock w' = clock w ∧ net_oracle w' = net_oracle w.
Proof.
  revert w. induction l as [|c l IH]; intros w Hquiet; cbn [fold_left].
  - by exists w.
  - assert (Hc : run_campaign dry_run (acc, db, w) c = (acc, db, tick w)).
    { unfold run_campaign. destruct acc as [[p s] f].
      rewrite process_campaign_not_due; [done|]. apply Hquiet. left. }
    rewrite Hc. destruct (IH (tick w)) as (w' & Hfold & Hcalls & Hclock & Horacle).
    { intros c' n Hc'. apply (Hquiet c' n). by right. }
    exists w'. by rewrite Hfold, Hcalls, Hclock, Horacle.
Qed.

(** After a sweep in which the clock stood still, every campaign is out
    of the filter or has nothing due. *)
Lemma run_scheduler_quiet dry_run db w t :
  NoDup (id <$> db_campaigns db) →
  (∀ n, clock w n = t) →
  let res := run_scheduler dry_run db w in
  clock res.2 = clock w ∧
  ∀ d, d ∈ db_campaigns res.1.2 → is_selected d = false ∨ dates_to_process t d = [].
Proof.
  intros Hnd Hclock. rewrite run_scheduler_fold.
  pose (Inv := λ (l : list Campaign) (_ : nat * nat * nat) (db1 : Db) (w1 : World),
          clock w1 = clock w ∧
          ∀ d, d ∈ db_campaigns db1 →
               d ∈ l ∨ is_selected d = false ∨ dates_to_process t d = []).
  destruct (sweep_fold_ind Inv dry_run) with
    (l := find_scheduled db) (acc := (0%nat, 0%nat, 0%nat)) (db := db) (w := tick w)
    as [[Hc Hq] _].
  - intros c l acc db1 w1 r ou w2 Hnd1 Hc1 Hsel Hcl [Hclk Hq] Hstep. split.
    + destruct (campaign_step_world _ _ _ _ _ _ _ Hstep) as (_ & -> & _). done.
    + intros d Hd.
      destruct (elem_of_store_after _ _ _ _ _ Hnd1 Hc1 Hd) as [[Hd1 Hne]| ->].
      * destruct (Hq d Hd1) as [[->|?]%elem_of_cons|?]; auto. done.
      * right. pose proof (campaign_step_quiet _ _ _ _ _ _ _ Hstep) as Hquiet.
        by rewrite Hclk, Hclock in Hquiet.
  - done.
  - by apply NoDup_find_scheduled_ids.
  - intros c. by rewrite elem_of_find_scheduled.
  - split; [done|]. intros d Hd.
    destruct (is_selected d) eqn:Hsel; [left|by right; left].
    by apply elem_of_find_scheduled.
  - split; [done|]. intros d Hd. destruct (Hq d Hd) as [?%elem_of_nil|?]; done.
Qed.

(** C4: a campaign with nothing due (each scheduled date unparseable,
    in the future or already in [sentDates]) is returned as not
    processed, the store is left as it is and no HTTP call is made. So a
    sweep in which no selected campaign has a date due changes nothing,
    calls nothing and counts nothing; and in a store with unique ids,
    with the clock standing still, the sweep that follows a sweep is
    such a sweep. *)
Theorem nothing_due_is_a_no_op dry_run db w :
  (∀ campaign,
     (∀ d, d ∈ normalized_dates campaign →
        parse_scheduled_date d = None
        ∨ (∃ dt, parse_scheduled_date d = Some dt ∧ (clock w (ticks w) < instant dt)%Z)
        ∨ d ∈ sentDates campaign) →
     process_campaign campaign dry_run db w = ((false, 0%nat, 0%nat), db, tick w) ∧
     net_calls (tick w) = net_calls w) ∧
  ((∀ c n, c ∈ find_scheduled db → dates_to_process (clock w n) c = []) →
   ∃ w', run_scheduler dry_run db w = ((0%nat, 0%nat, 0%nat), db, w') ∧
         net_calls w' = net_calls w) ∧
  (NoDup (id <$> db_campaigns db) → (∀ n, clock w n = clock w 0%nat) →
   ∃ w2, run_scheduler dry_run (run_scheduler dry_run db w).1.2
           (run_scheduler dry_run db w).2
         = ((0%nat, 0%nat, 0%nat), (run_scheduler dry_run db w).1.2, w2) ∧
         net_calls w2 = net_calls (run_scheduler dry_run db w).2).
Proof.
  split; [|split].
  - intros campaign Hdue. split; [|done].
    by apply process_campaign_not_due, nothing_due_iff.
  - intros Hquiet. rewrite run_scheduler_fold.
    destruct (quiet_fold dry_run (find_scheduled db) (0%nat, 0%nat, 0%nat) db (tick w))
      as (w' & Hfold & Hcalls & _); [by intros c n; apply Hquiet|].
    by exists w'.
  - intros Hnd Hclock.
    destruct (run_scheduler_quiet dry_run db w (clock w 0%nat) Hnd Hclock) as [Hclk Hq].
    destruct (run_scheduler dry_run db w) as [[acc db1] w1]. cbn [fst snd] in *.
    rewrite run_scheduler_fold.
    destruct (quiet_fold dry_run (find_scheduled db1) (0%nat, 0%nat, 0%nat) db1 (tick w1))
      as (w2 & Hfold & Hcalls & _).
    { intros c n [Hc Hsel]%elem_of_find_scheduled.
      change (clock (tick w1) n) with (clock w1 n). rewrite Hclk, Hclock.
      destruct (Hq c Hc); congruence. }
    by exists w2.
Qed.

(** ** Retries across sweeps *)

Lemma attempts_budget_step k cid c2 dry_run db w r ou w' :
  find_one (id c2) db = Some c2 →
  campaign_step c2 dry_run db w r ou w' →
  (Z.of_nat (attempts k cid (net_calls w')) + stored_budget k cid (store_after (id c2) ou db)
   ≤ Z.of_nat (attempts k cid (net_calls w)) + stored_budget k cid db)%Z.
Proof.
  intros Hc2 Hstep. unfold stored_budget.
  destruct (decide (id c2 = k)) as [<-|Hne].
  - rewrite find_one_store_after, Hc2. cbn [fmap option_fmap option_map].
    exact (campaign_step_budget _ _ _ _ _ _ _ cid Hstep).
  - rewrite find_one_store_after_ne by done.
    destruct (campaign_step_world _ _ _ _ _ _ _ Hstep) as (_ & _ & _ & Ha).
    rewrite Ha by done. lia.
Qed.

Lemma run_sweeps_attempts_budget n dry_run db w k cid :
  NoDup (id <$> db_campaigns db) →
  let res := run_sweeps n dry_run db w in
  (Z.of_nat (attempts k cid (net_calls res.2)) + stored_budget k cid res.1
   ≤ Z.of_nat (attempts k cid (net_calls w)) + stored_budget k cid db)%Z.
Proof.
  intros Hnd.
  apply (run_sweeps_ind
    (λ db1 w1, (Z.of_nat (attempts k cid (net_calls w1)) + stored_budget k cid db1
                ≤ Z.of_nat (attempts k cid (net_calls w)) + stored_budget k cid db)%Z));
    auto; [|lia].
  intros c2 db1 w1 r ou w2 _ Hc2 _ Hinv Hstep.
  pose proof (attempts_budget_step k cid _ _ _ _ _ _ _ Hc2 Hstep). lia.
Qed.

Lemma stored_budget_bounds k cid db :
  (0 ≤ stored_budget k cid db)%Z ∧
  (∀ c, find_one k db = Some c → (0 ≤ retries_of cid (retryCounts c))%Z →
        (stored_budget k cid db ≤ MAX_RETRY_ATTEMPTS)%Z).
Proof.
  unfold stored_budget. split.
  - destruct (find_one k db); [apply budget_nonneg|done].
  - intros c -> Hpos. unfold budget, MAX_RETRY_ATTEMPTS.
    destruct (already_sent _ _); lia.
Qed.

Lemma run_sweeps_counters_bounded n dry_run db w :
  NoDup (id <$> db_campaigns db) →
  (∀ c, c ∈ db_campaigns db → counters_bounded c) →
  ∀ c', c' ∈ db_campaigns (run_sweeps n dry_run db w).1 → counters_bounded c'.
Proof.
  intros Hnd Hall.
  apply (run_sweeps_ind (λ db1 _, ∀ c, c ∈ db_campaigns db1 → counters_bounded c));
    auto.
  intros c2 db1 w1 r ou w2 Hnd1 Hc2 _ Hall1 Hstep c Hc.
  destruct (elem_of_store_after _ _ _ _ _ Hnd1 Hc2 Hc) as [[? _]| ->]; [auto|].
  eapply campaign_step_ceiling; [done|]. by apply Hall1, (find_one_Some (id c2)).
Qed.

(** C3: a contact whose retry counter has reached
    the ceiling is not attempted and no counter changes; it is counted
    as a failure when it has an email address and no [sent] email
    result. In a store with unique ids no stored counter passes the
    ceiling if none did before, every delivery attempt for a contact of
    a campaign is paid from that contact's budget, and a contact whose
    counter starts at zero or more is attempted at most three times over
    any number of sweeps. *)
Theorem retry_ceiling_respected dry_run db w :
  (∀ k now subject message media_url st w0 contact,
     (MAX_RETRY_ATTEMPTS ≤ retries_of (c_id contact) (l_retry_counts st))%Z →
     let r := send_to_contact k dry_run now subject message media_url (st, w0) contact in
     r.2 = w0 ∧ l_retry_counts r.1 = l_retry_counts st ∧
     (truthy (c_email contact) = true →
      already_sent (c_id contact) (l_results st) = false →
      fail_count r.1 = S (fail_count st) ∧ success_count r.1 = success_count st)) ∧
  (NoDup (id <$> db_campaigns db) →
   (∀ c, c ∈ db_campaigns db → counters_bounded c) →
   ∀ n c', c' ∈ db_campaigns (run_sweeps n dry_run db w).1 →
     ∀ key v, retryCounts c' !! key = Some v → (v ≤ 3)%Z) ∧
  (NoDup (id <$> db_campaigns db) →
   ∀ n k cid,
     (Z.of_nat (attempts k cid (net_calls (run_sweeps n dry_run db w).2))
        + stored_budget k cid (run_sweeps n dry_run db w).1
      ≤ Z.of_nat (attempts k cid (net_calls w)) + stored_budget k cid db)%Z) ∧
  (NoDup (id <$> db_campaigns db) →
   ∀ n k cid c,
     find_one k db = Some c → (0 ≤ retries_of cid (retryCounts c))%Z →
     (attempts k cid (net_calls (run_sweeps n dry_run db w).2)
      ≤ attempts k cid (net_calls w) + 3)%nat).
Proof.
  split; [|split; [|split]].
  - intros k now subject message media_url st w0 contact Hmax r.
    pose proof (send_to_contact_step k dry_run now subject message media_url st w0 contact)
      as Hstep.
    destruct (contact_step_at_ceiling _ _ _ _ _ _ _ _ Hstep Hmax) as (? & ? & _ & ?).
    done.
  - intros Hnd Hall n c' Hc' key v Hv.
    by apply (run_sweeps_counters_bounded n dry_run db w Hnd Hall c' Hc' key v).
  - intros Hnd n k cid. by apply run_sweeps_attempts_budget.
  - intros Hnd n k cid c Hc Hpos.
    pose proof (run_sweeps_attempts_budget n dry_run db w k cid Hnd) as Hb.
    destruct (stored_budget_bounds k cid db) as [_ Hle].
    destruct (stored_budget_bounds k cid (run_sweeps n dry_run db w).1) as [Hge _].
    specialize (Hle c Hc Hpos). cbv zeta in Hb. unfold MAX_RETRY_ATTEMPTS in Hle. lia.
Qed.

(** ** Contacts already served *)

Lemma run_sweeps_sent_frame n dry_run db w k cid c :
  NoDup (id <$> db_campaigns db) →
  find_one k db = Some c →
  already_sent cid (results c) = true →
  let res := run_sweeps n dry_run db w in
  attempts k cid (net_calls res.2) = attempts k cid (net_calls w) ∧
  ∃ c', find_one k res.1 = Some c' ∧
        already_sent cid (results c') = true ∧
        results_of cid (results c') = results_of cid (results c).
Proof.
  intros Hnd Hc Hsent.
  apply (run_sweeps_ind
    (λ db1 w1, attempts k cid (net_calls w1) = attempts k cid (net_calls w) ∧
               ∃ c', find_one k db1 = Some c' ∧
                     already_sent cid (results c') = true ∧
                     results_of cid (results c') = results_of cid (results c)));
    auto; [|by eauto].
  intros c2 db1 w1 r ou w2 _ Hc2 _ (Ha & c1 & Hc1 & Hs & Hr) Hstep.
  destruct (decide (id c2 = k)) as [<-|Hne].
  - assert (c1 = c2) as -> by congruence.
    destruct (campaign_step_sent_frame _ _ _ _ _ _ _ cid Hstep Hs) as (Hs' & Hr' & Ha').
    split; [congruence|]. exists (doc_after ou c2).
    rewrite find_one_store_after, Hc2. repeat split; [done|congruence].
  - destruct (campaign_step_world _ _ _ _ _ _ _ Hstep) as (_ & _ & _ & Ha').
    split; [by rewrite Ha'|]. exists c1. by rewrite find_one_store_after_ne.
Qed.

(** C5: a contact with a [sent] email result is
    not attempted, its results and every retry counter stay as they are,
    and it counts as a success when it has an email address (a contact
    without one is skipped and not counted). In a store with unique ids
    this lasts over any number of sweeps: no attempt is made for that
    contact on behalf of that campaign and its result entries stay what
    they were. *)
Theorem already_sent_contact_is_skipped dry_run db w :
  (∀ k now subject message media_url st w0 contact,
     already_sent (c_id contact) (l_results st) = true →
     let r := send_to_contact k dry_run now subject message media_url (st, w0) contact in
     r.2 = w0 ∧ l_results r.1 = l_results st ∧
     l_retry_counts r.1 = l_retry_counts st ∧ fail_count r.1 = fail_count st ∧
     (truthy (c_email contact) = true → success_count r.1 = S (success_count st)) ∧
     (truthy (c_email contact) = false → success_count r.1 = success_count st)) ∧
  (NoDup (id <$> db_campaigns db) →
   ∀ n k cid c,
     find_one k db = Some c → already_sent cid (results c) = true →
     attempts k cid (net_calls (run_sweeps n dry_run db w).2)
       = attempts k cid (net_calls w) ∧
     ∃ c', find_one k (run_sweeps n dry_run db w).1 = Some c' ∧
           already_sent cid (results c') = true ∧
           results_of cid (results c') = results_of cid (results c)).
Proof.
  split.
  - intros k now subject message media_url st w0 contact Hsent r.
    pose proof (send_to_contact_step k dry_run now subject message media_url st w0 contact)
      as Hstep.
    destruct (contact_step_already_sent _ _ _ _ _ _ _ _ Hstep Hsent)
      as (? & ? & ? & ? & Hs).
    repeat split; try done; intros Hmail; fold r in Hs; by rewrite Hmail in Hs.
  - intros Hnd n k cid c Hc Hsent. by apply run_sweeps_sent_frame.
Qed.

(** * Further properties *)

(** ** Parsing a scheduled date *)

Lemma contains_char_replace_Z s : contains_char "Z" (replace_Z s) = false.
Proof.
  induction s as [|a s IH]; simpl; [done|].
  destruct (Ascii.eqb a "Z") eqn:Ha; simpl; [done|]. by rewrite Ha.
Qed.

Lemma replace_Z_without_Z s : contains_char "Z" s = false → replace_Z s = s.
Proof.
  induction s as [|a s IH]; simpl; [done|].
  destruct (Ascii.eqb a "Z"); [done|]. intros H. by rewrite IH.
Qed.

Lemma truthy_replace_Z s : truthy (replace_Z s) = truthy s.
Proof. destruct s as [|a s]; simpl; [done|]. by destruct (Ascii.eqb a "Z"). Qed.

(** X1: a scheduled date is read the same whether its UTC designator is
    written [Z] or [+00:00]; the empty string and every string
    [fromisoformat] rejects give no date (nothing is raised); and a date
    that is parsed is always timezone-aware, a naive one being read as
    UTC. *)
Theorem parse_scheduled_date_robust :
  (∀ s, parse_scheduled_date (replace_Z s) = parse_scheduled_date s) ∧
  parse_scheduled_date "" = None ∧
  (∀ s, fromisoformat (replace_Z s) = None → parse_scheduled_date s = None) ∧
  (∀ s dt, parse_scheduled_date s = Some dt → is_Some (dt_tzinfo dt)) ∧
  (∀ s fields, fromisoformat (replace_Z s) = Some (mkDatetime fields None) →
     instant <$> parse_scheduled_date s = (if truthy s then Some fields else None)).
Proof.
  assert (Hnorm : ∀ s, (if contains_char "Z" s then replace_Z s else s) = replace_Z s).
  { intros s. destruct (contains_char "Z" s) eqn:HZ; [done|].
    by rewrite replace_Z_without_Z. }
  split; [|split; [|split; [|split]]].
  - intros s. unfold parse_scheduled_date.
    rewrite truthy_replace_Z, contains_char_replace_Z, Hnorm. done.
  - done.
  - intros s Hnone. unfold parse_scheduled_date.
    destruct (truthy s); [|done]. cbn [negb]. rewrite Hnorm.
    destruct (_ || _); by rewrite Hnone.
  - intros s dt. unfold parse_scheduled_date.
    destruct (truthy s); [|done]. cbn [negb]. rewrite Hnorm.
    destruct (_ || _); destruct (fromisoformat (replace_Z s)) as [[f [o|]]|];
      simpl; intros [= <-]; simpl; eauto.
  - intros s fields Hdt. unfold parse_scheduled_date.
    destruct (truthy s); [|done]. cbn [negb]. rewrite Hnorm, Hdt.
    destruct (_ || _); simpl; unfold instant; simpl; f_equal; lia.
Qed.

(** ** Dates due *)

Lemma filter_sublist_impl {A} (f g : A → bool) (l : list A) :
  (∀ x, x ∈ l → f x = true → g x = true) →
  sublist (List.filter f l) (List.filter g l).
Proof.
  induction l as [|a l IH]; intros Himpl; simpl; [constructor|].
  assert (IH' : sublist (List.filter f l) (List.filter g l)).
  { apply IH. intros x Hx. apply Himpl. by right. }
  destruct (f a) eqn:Hf.
  - rewrite (Himpl a) by (done || left). by constructor.
  - destruct (g a); [by constructor|done].
Qed.

Lemma filter_sublist {A} (f : A → bool) (l : list A) : sublist (List.filter f l) l.
Proof.
  induction l as [|a l IH]; simpl; [constructor|].
  destruct (f a); by constructor.
Qed.

(** X2: the dates to process are taken from the scheduled dates in their
    order, none of them is in [sentDates], and a date that is due stays
    due as time passes (for the same document): what is due at an instant
    is due, in the same order, at every later instant. *)
Theorem dates_to_process_grows now now' c :
  (now ≤ now')%Z →
  sublist (dates_to_process now c) (dates_to_process now' c) ∧
  sublist (dates_to_process now' c) (normalized_dates c) ∧
  Forall (λ d, d ∉ sentDates c) (dates_to_process now' c).
Proof.
  intros Hle. split; [|split].
  - apply filter_sublist_impl. intros d _. unfold is_due.
    destruct (parse_scheduled_date d); [|done].
    rewrite !andb_true_iff, !bool_decide_eq_true. intros [? ?]. split; [lia|done].
  - apply filter_sublist.
  - apply Forall_forall. intros d [_ Hd]%elem_of_dates_to_process.
    by eapply is_due_not_sent.
Qed.

(** ** What the send loop counts and whom it calls *)

Lemma send_loop_cons k dry_run now subject message media_url c cs st w :
  send_loop k dry_run now subject message media_url (c :: cs) st w
  = send_loop k dry_run now subject message media_url cs
      (send_to_contact k dry_run now subject message media_url (st, w) c).1
      (send_to_contact k dry_run now subject message media_url (st, w) c).2.
Proof.
  unfold send_loop. cbn [fold_left].
  by destruct (send_to_contact k dry_run now subject message media_url (st, w) c).
Qed.

Lemma contact_step_counts k dry_run now contact st w st' w' :
  contact_step k dry_run now contact st w st' w' →
  (success_count st' + fail_count st'
   = success_count st + fail_count st + (if has_email contact then 1 else 0))%nat.
Proof.
  unfold has_email. intros Hstep.
  inversion Hstep; subst; cbn [success_count fail_count];
    match goal with H : truthy _ = _ |- _ => rewrite H end; lia.
Qed.

Lemma send_loop_counts k dry_run now subject message media_url contacts st w :
  let r := send_loop k dry_run now subject message media_url contacts st w in
  (success_count r.1 + fail_count r.1
   = success_count st + fail_count st + length (List.filter has_email contacts))%nat.
Proof.
  revert st w. induction contacts as [|c cs IH]; intros st w.
  - cbn. lia.
  - rewrite send_loop_cons. cbv zeta in IH |- *. rewrite IH.
    pose proof (contact_step_counts _ _ _ _ _ _ _ _
                  (send_to_contact_step k dry_run now subject message media_url st w c))
      as Hc.
    cbn [List.filter]. destruct (has_email c); cbn [length]; lia.
Qed.

Lemma send_campaign_email_posts who to_email to_name subject message media_url w :
  (send_campaign_email who to_email to_name subject message media_url w).2
  = mkWorld (net_oracle w)
      (net_calls w
         ++ [(who, mkPayload to_email to_name subject message
                     (match media_url with
                      | Some m => if truthy m then Some m else None
                      | None => None
                      end))])
      (clock w) (ticks w).
Proof.
  unfold send_campaign_email, requests_post.
  destruct (net_oracle w _) as [code text [exn|[[] e]]| |msg]; simpl;
    try case_bool_decide; reflexivity.
Qed.

Lemma send_to_contact_call k dry_run now subject message media_url st w contact :
  let r := send_to_contact k dry_run now subject message media_url (st, w) contact in
  r.2 = w
  ∨ (dry_run = false ∧ has_email contact = true ∧
     net_calls r.2 = net_calls w ++ [loop_call k subject message media_url contact]).
Proof.
  unfold send_to_contact, has_email. cbv zeta.
  destruct (truthy (c_email contact)) eqn:Hmail; simpl; [|by left].
  destruct (already_sent _ _); simpl; [by left|].
  case_bool_decide; simpl; [by left|].
  destruct dry_run; simpl; [by left|]. right. split; [done|]. split; [done|].
  pose proof (send_campaign_email_posts (Some (k, contact)) (c_email contact)
                (c_name contact) subject message
                (if truthy media_url then Some media_url else None) w) as Hp.
  destruct (send_campaign_email _ _ _ _ _ _ w) as [[success error] w'].
  simpl in Hp. subst w'. unfold loop_call.
  destruct success; simpl; destruct (truthy media_url) eqn:Hm; simpl; by rewrite ?Hm.
Qed.

Lemma send_loop_calls k dry_run now subject message media_url contacts st w :
  let r := send_loop k dry_run now subject message media_url contacts st w in
  ∃ attempted,
    sublist attempted (List.filter has_email contacts) ∧
    net_calls r.2 = net_calls w ++ (loop_call k subject message media_url <$> attempted) ∧
    (dry_run = true → attempted = []).
Proof.
  revert st w. induction contacts as [|c cs IH]; intros st w.
  - exists []. cbn. by rewrite app_nil_r.
  - rewrite send_loop_cons. cbv zeta in IH |- *.
    destruct (IH (send_to_contact k dry_run now subject message media_url (st, w) c).1
                 (send_to_contact k dry_run now subject message media_url (st, w) c).2)
      as (attempted & Hsub & Hcalls & Hdry).
    destruct (send_to_contact_call k dry_run now subject message media_url st w c)
      as [Hw|(Hd & Hmail & Hw)].
    + exists attempted. rewrite Hcalls, Hw. split; [|done].
      cbn [List.filter]. destruct (has_email c); [by constructor|done].
    + exists (c :: attempted). rewrite Hcalls, Hw. cbn [List.filter]. rewrite Hmail.
      split; [by constructor|]. split; [by rewrite fmap_cons, <- app_assoc|].
      intros ->. done.
Qed.

(** ** What processing a campaign counts and whom it calls *)

Lemma elem_of_resolve_contacts campaign db contact :
  contact ∈ resolve_contacts campaign db →
  contact ∈ db_users db ∧
  (targetType campaign ≠ "all" → c_id contact ∈ selectedContacts campaign).
Proof.
  unfold resolve_contacts, find_all_users, find_users_in.
  case_bool_decide as Hall; [done|].
  rewrite list_elem_of_In, filter_In, <- list_elem_of_In, bool_decide_eq_true.
  intros [? ?]. done.
Qed.

Lemma resolve_contacts_sublist campaign db :
  sublist (resolve_contacts campaign db) (db_users db).
Proof.
  unfold resolve_contacts, find_all_users, find_users_in.
  case_bool_decide; [done|apply filter_sublist].
Qed.

Lemma length_filter_sublist {A} (f : A → bool) (l1 l2 : list A) :
  sublist l1 l2 → (length (List.filter f l1) ≤ length (List.filter f l2))%nat.
Proof.
  induction 1 as [|x l1 l2 _ IH|x l1 l2 _ IH]; simpl; [done| |].
  - destruct (f x); simpl; lia.
  - destruct (f x); simpl; lia.
Qed.

(** The counts a path returns. *)
Lemma campaign_step_counts c dry_run db w r ou w' :
  campaign_step c dry_run db w r ou w' →
  (r.1.1 = true ↔ dates_to_process (clock w (ticks w)) c ≠ []) ∧
  (r.1.1 = true ↔ is_Some ou) ∧
  (r.1.2 + r.2 ≤ length (List.filter has_email (resolve_contacts c db)))%nat ∧
  (email_enabled c = true → dates_to_process (clock w (ticks w)) c ≠ [] →
   (r.1.2 + r.2 = length (List.filter has_email (resolve_contacts c db)))%nat) ∧
  (email_enabled c = false ∨ dates_to_process (clock w (ticks w)) c = [] →
   r.1.2 = 0%nat ∧ r.2 = 0%nat).
Proof.
  intros Hstep. inversion Hstep; subst; cbn [fst snd].
  4: match goal with H : send_loop _ _ _ _ _ _ _ _ _ = _ |- _ =>
       pose proof (send_loop_counts (id c) dry_run (clock w (ticks w)) ("📢 " +:+ name c)
                     (message c) (mediaUrl c) (resolve_contacts c db)
                     (mkLoop 0 0 (results c) (retryCounts c)) (tick w)) as Hcount;
       rewrite H in Hcount;
       cbn [fst snd success_count fail_count] in Hcount end.
  all: repeat match goal with |- _ ∧ _ => split | |- _ ↔ _ => split end.
  all: try (intros; (done || lia || congruence || by eexists)).
  all: try (by intros [? ?]).
  all: try (intros [?|?]; congruence).
  intros _ _. match goal with H : resolve_contacts _ _ = [] |- _ => by rewrite H end.
Qed.

(** The calls a path makes. *)
Lemma campaign_step_calls c dry_run db w r ou w' :
  campaign_step c dry_run db w r ou w' →
  ∃ attempted,
    sublist attempted (List.filter has_email (resolve_contacts c db)) ∧
    net_calls w' = net_calls w ++ (call_of c <$> attempted) ∧
    (dry_run = true ∨ email_enabled c = false
       ∨ dates_to_process (clock w (ticks w)) c = [] → attempted = []).
Proof.
  intros Hstep. inversion Hstep; subst.
  1-3: exists []; split; [apply sublist_nil_l|];
       split; [by rewrite net_calls_tick, app_nil_r|done].
  match goal with H : send_loop _ _ _ _ _ _ _ _ _ = _ |- _ =>
    destruct (send_loop_calls (id c) dry_run (clock w (ticks w)) ("📢 " +:+ name c)
                (message c) (mediaUrl c) (resolve_contacts c db)
                (mkLoop 0 0 (results c) (retryCounts c)) (tick w))
      as (attempted & Hsub & Hcalls & Hdry);
    rewrite H in Hcalls end.
  exists attempted. split; [done|]. split; [exact Hcalls|].
  intros [?|[?|?]]; [auto|congruence|congruence].
Qed.

(** X3: [process_campaign] reports a campaign as processed exactly when
    one of its dates is due. On the send-loop path every resolved contact
    with an email address is counted exactly once, as a success or as a
    failure, and the contacts without one are not counted; on the other
    paths both counts are zero. *)
Theorem process_campaign_counts campaign dry_run db w :
  let r := (process_campaign campaign dry_run db w).1.1 in
  let due := dates_to_process (clock w (ticks w)) campaign in
  (r.1.1 = true ↔ due ≠ []) ∧
  (email_enabled campaign = true → due ≠ [] →
   (r.1.2 + r.2 = length (List.filter has_email (resolve_contacts campaign db)))%nat) ∧
  (email_enabled campaign = false ∨ due = [] → r.1.2 = 0%nat ∧ r.2 = 0%nat) ∧
  (r.1.2 + r.2 ≤ length (List.filter has_email (db_users db)))%nat.
Proof.
  destruct (process_campaign_step campaign dry_run db w) as (r & ou & w' & Heq & Hstep).
  rewrite Heq. cbn [fst snd].
  destruct (campaign_step_counts _ _ _ _ _ _ _ Hstep) as (H1 & _ & H2 & H3 & H4).
  repeat split; try apply H1; try done; try (by apply H4).
  etrans; [exact H2|]. apply length_filter_sublist, resolve_contacts_sublist.
Qed.

(** X4: the HTTP calls of [process_campaign] go, in the order of the
    directory and at most once each, to resolved contacts that have an
    email address: users of the directory, and for a target other than
    ["all"] only users whose id is selected. Each request carries the
    contact's own address and name, the campaign's name as subject, its
    message, and its media link only when that is not empty. None is made
    in dry-run mode, when the email channel is off or when nothing is
    due. *)
Theorem process_campaign_calls_targets campaign dry_run db w :
  ∃ attempted,
    sublist attempted (List.filter has_email (resolve_contacts campaign db)) ∧
    net_calls (process_campaign campaign dry_run db w).2
      = net_calls w ++ (call_of campaign <$> attempted) ∧
    Forall (λ contact,
              contact ∈ db_users db ∧ has_email contact = true ∧
              (targetType campaign ≠ "all" → c_id contact ∈ selectedContacts campaign))
      attempted ∧
    (dry_run = true ∨ email_enabled campaign = false
       ∨ dates_to_process (clock w (ticks w)) campaign = [] → attempted = []).
Proof.
  destruct (process_campaign_step campaign dry_run db w) as (r & ou & w' & Heq & Hstep).
  rewrite Heq. cbn [snd].
  destruct (campaign_step_calls _ _ _ _ _ _ _ Hstep) as (attempted & Hsub & Hcalls & Hnone).
  exists attempted. repeat split; try done.
  apply Forall_forall. intros contact Hc.
  assert (Hin : contact ∈ List.filter has_email (resolve_contacts campaign db))
    by (by eapply elem_of_sublist).
  apply list_elem_of_In, filter_In in Hin as [Hin Hmail]. apply list_elem_of_In in Hin.
  destruct (elem_of_resolve_contacts _ _ _ Hin). done.
Qed.

(** ** Sweeps over any store *)

(** The induction principle of a sweep when nothing is assumed of the
    store. *)
Lemma sweep_fold_ind_any (Inv : Db → World → Prop) dry_run :
  (∀ c db w r ou w',
     Inv db w → campaign_step c dry_run db w r ou w' →
     Inv (store_after (id c) ou db) w') →
  ∀ l acc db w,
    Inv db w →
    let res := fold_left (run_campaign dry_run) l (acc, db, w) in
    Inv res.1.2 res.2.
Proof.
  intros Hstep l. induction l as [|c l IH]; intros acc db w HInv; cbn [fold_left]; [done|].
  destruct (run_campaign_tally dry_run acc db w c) as (r & ou & w' & -> & Hc).
  apply IH. by eapply Hstep.
Qed.

Lemma run_sweeps_ind_any (Inv : Db → World → Prop) dry_run n db w :
  (∀ db w, Inv db w → Inv db (tick w)) →
  (∀ c db w r ou w',
     Inv db w → campaign_step c dry_run db w r ou w' →
     Inv (store_after (id c) ou db) w') →
  Inv db w →
  Inv (run_sweeps n dry_run db w).1 (run_sweeps n dry_run db w).2.
Proof.
  intros Htick Hstep. revert db w.
  induction n as [|n IH]; intros db w HInv; cbn [run_sweeps]; [done|].
  pose proof (sweep_fold_ind_any Inv dry_run Hstep (find_scheduled db)
                (0%nat, 0%nat, 0%nat) db (tick w) (Htick _ _ HInv)) as H.
  rewrite <- run_scheduler_fold in H.
  destruct (run_scheduler dry_run db w) as [[acc db'] w'].
  by apply IH.
Qed.

Lemma main_run_sweeps loop dry_run n db w :
  main loop dry_run n db w = run_sweeps (if loop then n else 1) dry_run db w.
Proof.
  unfold main. destruct loop; [done|]. cbn [run_sweeps].
  by destruct (run_scheduler dry_run db w) as [[acc db'] w'].
Qed.

(** X5: in dry-run mode no HTTP call is made, whatever the store, the
    answers the endpoint would give and the number of sweeps, in one-shot
    and in loop mode alike. *)
Theorem dry_run_makes_no_call loop n db w :
  net_calls (main loop true n db w).2 = net_calls w.
Proof.
  rewrite main_run_sweeps.
  apply (run_sweeps_ind_any (λ _ w1, net_calls w1 = net_calls w)); [done| |done].
  intros c db1 w1 r ou w2 Hcalls Hstep.
  destruct (campaign_step_calls _ _ _ _ _ _ _ Hstep) as (attempted & _ & -> & Hnone).
  rewrite Hnone by auto. by rewrite app_nil_r.
Qed.

(** ** The fields the dispatcher does not own *)

Lemma same_settings_refl c : same_settings c c.
Proof. by repeat split. Qed.

Lemma same_settings_trans c1 c2 c3 :
  same_settings c1 c2 → same_settings c2 c3 → same_settings c1 c3.
Proof.
  unfold same_settings. intros (?&?&?&?&?&?&?&?&?) (?&?&?&?&?&?&?&?&?).
  repeat split; congruence.
Qed.

Lemma same_settings_store_after i ou db :
  Forall2 same_settings (db_campaigns db) (db_campaigns (store_after i ou db)).
Proof.
  destruct ou as [u|]; simpl.
  - apply update_first_Forall2; [apply same_settings_refl|].
    intros c _ _. by repeat split.
  - apply Forall_Forall2_diag, Forall_forall. intros c _. apply same_settings_refl.
Qed.

(** X6: the dispatcher writes nothing but the fields it owns. After any
    number of sweeps the directory of users is what it was, the store
    holds the same number of campaigns in the same order, and each has
    kept its id, name, message, media link, target, selected contacts,
    channels, [scheduledAt] and [scheduledDates]. *)
Theorem dispatcher_keeps_settings loop dry_run n db w :
  db_users (main loop dry_run n db w).1 = db_users db ∧
  Forall2 same_settings (db_campaigns db) (db_campaigns (main loop dry_run n db w).1).
Proof.
  rewrite main_run_sweeps.
  apply (run_sweeps_ind_any
    (λ db1 _, db_users db1 = db_users db ∧
              Forall2 same_settings (db_campaigns db) (db_campaigns db1))).
  - done.
  - intros c db1 w1 r ou w2 [Hu HF] _. split; [by rewrite store_after_users|].
    eapply Forall2_trans; [apply same_settings_trans|exact HF|].
    apply same_settings_store_after.
  - split; [done|]. apply Forall_Forall2_diag, Forall_forall. intros c _.
    apply same_settings_refl.
Qed.

(** ** The totals of a sweep *)

Lemma sweep_fold_totals dry_run l acc db w :
  let res := fold_left (run_campaign dry_run) l (acc, db, w) in
  let contacts := length (List.filter has_email (db_users db)) in
  (acc.1.1 ≤ res.1.1.1.1 ≤ acc.1.1 + length l)%nat ∧
  (res.1.1.1.2 + res.1.1.2 + acc.1.1 * contacts
   ≤ acc.1.2 + acc.2 + res.1.1.1.1 * contacts)%nat.
Proof.
  revert acc db w. induction l as [|c l IH]; intros acc db w; cbn [fold_left].
  - cbn. lia.
  - destruct (run_campaign_tally dry_run acc db w c) as (r & ou & w' & -> & Hc).
    specialize (IH (tally acc r) (store_after (id c) ou db) w').
    cbv zeta in IH |- *. rewrite store_after_users in IH.
    destruct (campaign_step_counts _ _ _ _ _ _ _ Hc) as (_ & _ & Hle & _ & _).
    pose proof (length_filter_sublist has_email _ _ (resolve_contacts_sublist c db)) as Hsub.
    destruct acc as [[p s] f], r as [[processed s'] f']. cbn [fst snd] in *.
    destruct processed; cbn [tally fst snd length] in *; nia.
Qed.

(** X7: the totals a sweep logs are bounded by what it was given: it
    reports at most as many campaigns as it selected, and the successes
    and failures together are at most the number of campaigns processed
    times the number of users with an email address. A store with no
    selected campaign gives three zeros. *)
Theorem run_scheduler_totals dry_run db w :
  let totals := (run_scheduler dry_run db w).1.1 in
  (totals.1.1 ≤ length (find_scheduled db))%nat ∧
  (totals.1.2 + totals.2
   ≤ totals.1.1 * length (List.filter has_email (db_users db)))%nat ∧
  (find_scheduled db = [] → run_scheduler dry_run db w = ((0%nat, 0%nat, 0%nat), db, tick w)).
Proof.
  rewrite run_scheduler_fold.
  pose proof (sweep_fold_totals dry_run (find_scheduled db) (0%nat, 0%nat, 0%nat) db (tick w))
    as H.
  cbv zeta in H |- *. cbn [fst snd] in H. split; [lia|]. split; [lia|].
  intros ->. done.
Qed.

(** ** Result entries *)

Lemma email_results_of_upsert_same cid e rs :
  is_email_result_of cid e = true →
  length (email_results_of cid (upsert_result cid e rs))
  = Nat.max 1 (length (email_results_of cid rs)).
Proof.
  intros He. unfold email_results_of.
  induction rs as [|r rs IH]; simpl.
  - by rewrite He.
  - destruct (is_email_result_of cid r) eqn:Hr; simpl.
    + by rewrite He.
    + by rewrite Hr, IH.
Qed.

Lemma is_email_result_of_other cid cid' r :
  cid' ≠ cid → is_email_result_of cid' r = true → is_email_result_of cid r = false.
Proof.
  unfold is_email_result_of. intros Hne [Hr _]%andb_true_iff.
  apply bool_decide_eq_true in Hr. by rewrite bool_decide_eq_false_2 by congruence.
Qed.

Lemma email_results_of_upsert_other cid cid' e rs :
  cid' ≠ cid → is_email_result_of cid' e = true →
  email_results_of cid (upsert_result cid' e rs) = email_results_of cid rs.
Proof.
  intros Hne He. unfold email_results_of.
  pose proof (is_email_result_of_other cid cid' e Hne He) as Hec.
  induction rs as [|r rs IH]; simpl.
  - by rewrite Hec.
  - destruct (is_email_result_of cid' r) eqn:Hr; simpl.
    + by rewrite Hec, (is_email_result_of_other cid cid' r Hne Hr).
    + by rewrite IH.
Qed.

Lemma is_email_result_of_channel cid r :
  is_email_result_of cid r = true →
  negb (bool_decide (r_channel r = "email")) = false.
Proof.
  unfold is_email_result_of. intros [_ Hr]%andb_true_iff.
  apply bool_decide_eq_true in Hr. by rewrite bool_decide_eq_true_2.
Qed.

Lemma other_channel_results_upsert cid e rs :
  is_email_result_of cid e = true →
  other_channel_results (upsert_result cid e rs) = other_channel_results rs.
Proof.
  intros He%is_email_result_of_channel. unfold other_channel_results.
  induction rs as [|r rs IH]; cbn [upsert_result List.filter].
  - by rewrite He.
  - destruct (is_email_result_of cid r) eqn:Hr; cbn [List.filter].
    + apply is_email_result_of_channel in Hr. by rewrite He, Hr.
    + by rewrite IH.
Qed.

Lemma length_upsert_result cid e rs :
  (length rs ≤ length (upsert_result cid e rs) ≤ S (length rs))%nat.
Proof.
  induction rs as [|r rs IH]; simpl; [lia|].
  destruct (is_email_result_of cid r); simpl; lia.
Qed.

(** What a step keeps of the results. *)
Lemma contact_step_results k dry_run now contact st w st' w' :
  contact_step k dry_run now contact st w st' w' →
  (email_unique (l_results st) → email_unique (l_results st')) ∧
  other_channel_results (l_results st') = other_channel_results (l_results st) ∧
  (length (l_results st) ≤ length (l_results st'))%nat.
Proof.
  intros Hstep.
  assert (Hup : (email_unique (l_results st) →
                 email_unique (upsert_result (c_id contact) (sent_entry now contact)
                                 (l_results st))) ∧
                other_channel_results
                  (upsert_result (c_id contact) (sent_entry now contact) (l_results st))
                = other_channel_results (l_results st) ∧
                (length (l_results st)
                 ≤ length (upsert_result (c_id contact) (sent_entry now contact)
                             (l_results st)))%nat).
  { split; [|split].
    - intros Hu cid. destruct (decide (c_id contact = cid)) as [<-|Hne].
      + rewrite email_results_of_upsert_same by apply sent_entry_is_email.
        specialize (Hu (c_id contact)). lia.
      + rewrite email_results_of_upsert_other; [apply Hu|done|apply sent_entry_is_email].
    - apply other_channel_results_upsert with (cid := c_id contact), sent_entry_is_email.
    - apply length_upsert_result. }
  inversion Hstep; subst; cbn [l_results]; done.
Qed.

Lemma send_loop_results k dry_run now subject message media_url contacts st w :
  let r := send_loop k dry_run now subject message media_url contacts st w in
  (email_unique (l_results st) → email_unique (l_results r.1)) ∧
  other_channel_results (l_results r.1) = other_channel_results (l_results st) ∧
  (length (l_results st) ≤ length (l_results r.1))%nat.
Proof.
  apply (send_loop_ind
    (λ st' _, (email_unique (l_results st) → email_unique (l_results st')) ∧
              other_channel_results (l_results st') = other_channel_results (l_results st) ∧
              (length (l_results st) ≤ length (l_results st'))%nat)); [|done].
  intros contact st1 w1 st2 w2 _ (H1 & H2 & H3) Hstep.
  destruct (contact_step_results _ _ _ _ _ _ _ _ Hstep) as (H1' & H2' & H3').
  split; [auto|]. split; [congruence|lia].
Qed.

Lemma campaign_step_results c dry_run db w r ou w' :
  campaign_step c dry_run db w r ou w' →
  (email_unique (results c) → email_unique (results (doc_after ou c))) ∧
  other_channel_results (results (doc_after ou c)) = other_channel_results (results c) ∧
  (length (results c) ≤ length (results (doc_after ou c)))%nat.
Proof.
  intros Hstep. inversion Hstep; subst; cbn; try done.
  match goal with H : send_loop _ _ _ _ _ _ _ _ _ = _ |- _ =>
    pose proof (send_loop_results (id c) dry_run (clock w (ticks w)) ("📢 " +:+ name c)
                  (message c) (mediaUrl c) (resolve_contacts c db)
                  (mkLoop 0 0 (results c) (retryCounts c)) (tick w)) as Hr;
    rewrite H in Hr end.
  exact Hr.
Qed.

(** With unique ids, what holds between a campaign and its document
    after processing holds between the stores, document by document. *)
Lemma store_after_Forall2_unique (R : Campaign → Campaign → Prop) c ou db :
  (∀ d, R d d) →
  NoDup (id <$> db_campaigns db) →
  find_one (id c) db = Some c →
  R c (doc_after ou c) →
  Forall2 R (db_campaigns db) (db_campaigns (store_after (id c) ou db)).
Proof.
  intros Hrefl Hnd Hfind HR. destruct ou as [u|]; simpl.
  - apply update_first_Forall2; [done|]. intros d Hd Hid.
    pose proof (find_one_unique db d Hnd Hd) as Hd'. rewrite Hid in Hd'.
    assert (d = c) as -> by congruence. exact HR.
  - by apply Forall_Forall2_diag, Forall_forall.
Qed.

(** A relation kept by every processing is kept by any number of sweeps. *)
Lemma run_sweeps_Forall2 (R : Campaign → Campaign → Prop) n dry_run db w :
  (∀ d, R d d) →
  (∀ d1 d2 d3, R d1 d2 → R d2 d3 → R d1 d3) →
  (∀ c db w r ou w', campaign_step c dry_run db w r ou w' → R c (doc_after ou c)) →
  NoDup (id <$> db_campaigns db) →
  Forall2 R (db_campaigns db) (db_campaigns (run_sweeps n dry_run db w).1).
Proof.
  intros Hrefl Htrans Hstep Hnd.
  apply (run_sweeps_ind (λ db1 _, Forall2 R (db_campaigns db) (db_campaigns db1)));
    auto.
  - intros c db1 w1 r ou w2 Hnd1 Hc _ HF Hs.
    eapply Forall2_trans; [exact Htrans|exact HF|].
    apply store_after_Forall2_unique; eauto.
  - by apply Forall_Forall2_diag, Forall_forall.
Qed.

(** X8: in a store with unique ids, over any number of sweeps, the
    result entries of the channels other than email are left exactly as
    they are, no result list gets shorter, and a campaign that has at most
    one email result per contact keeps at most one: a success overwrites
    the contact's entry or appends the first one. *)
Theorem results_stay_well_formed n dry_run db w :
  NoDup (id <$> db_campaigns db) →
  Forall2 (λ c c',
             other_channel_results (results c') = other_channel_results (results c) ∧
             (length (results c) ≤ length (results c'))%nat ∧
             (email_unique (results c) → email_unique (results c')))
    (db_campaigns db) (db_campaigns (run_sweeps n dry_run db w).1).
Proof.
  intros Hnd. apply run_sweeps_Forall2; [done| | |done].
  - intros d1 d2 d3 (H1 & H2 & H3) (H1' & H2' & H3').
    split; [congruence|]. split; [lia|auto].
  - intros c db1 w1 r ou w2 Hstep.
    destruct (campaign_step_results _ _ _ _ _ _ _ Hstep) as (H1 & H2 & H3). done.
Qed.

(** ** Sent dates *)

Lemma NoDup_add_to_set arr each : NoDup arr → NoDup (add_to_set arr each).
Proof.
  unfold add_to_set. revert arr.
  induction each as [|d each IH]; intros arr Hnd; simpl; [done|].
  apply IH. case_bool_decide as Hd; [done|].
  apply NoDup_app. split; [done|]. split; [|apply NoDup_singleton].
  intros x Hx ->%list_elem_of_singleton. done.
Qed.

Lemma campaign_step_sent_dates c dry_run db w r ou w' :
  campaign_step c dry_run db w r ou w' →
  sentDates c ⊆ sentDates (doc_after ou c) ∧
  (NoDup (sentDates c) → NoDup (sentDates (doc_after ou c))) ∧
  (resolve_contacts c db ≠ [] →
   dates_to_process (clock w (ticks w)) c ⊆ sentDates (doc_after ou c)).
Proof.
  intros Hstep. inversion Hstep; subst; cbn -[add_to_set list_of_set].
  - split; [done|]. split; [done|].
    match goal with H : dates_to_process _ _ = [] |- _ => rewrite H end.
    intros _ d Hd. by apply elem_of_nil in Hd.
  - done.
  - split; [|split].
    + intros d Hd. apply elem_of_add_to_set. by left.
    + apply NoDup_add_to_set.
    + intros _ d Hd. apply elem_of_add_to_set. by right.
  - rewrite add_to_set_nil. split; [|split].
    + intros d Hd. apply elem_of_list_of_set, elem_of_app. by left.
    + intros _. unfold list_of_set. apply NoDup_elements.
    + intros _ d Hd. apply elem_of_list_of_set, elem_of_app. by right.
Qed.

(** X9: in a store with unique ids no sweep removes a date from
    [sentDates], and a [sentDates] without duplicates stays without
    duplicates; and once a campaign with resolved contacts has been
    processed every date that was due is in its stored [sentDates],
    whatever the outcome of the deliveries. *)
Theorem sent_dates_only_grow dry_run db w :
  NoDup (id <$> db_campaigns db) →
  (∀ n, Forall2 (λ c c', sentDates c ⊆ sentDates c' ∧
                         (NoDup (sentDates c) → NoDup (sentDates c')))
          (db_campaigns db) (db_campaigns (run_sweeps n dry_run db w).1)) ∧
  (∀ campaign,
     find_one (id campaign) db = Some campaign →
     resolve_contacts campaign db ≠ [] →
     ∃ c', find_one (id campaign) (process_campaign campaign dry_run db w).1.2 = Some c' ∧
           dates_to_process (clock w (ticks w)) campaign ⊆ sentDates c').
Proof.
  intros Hnd. split.
  - intros n. apply run_sweeps_Forall2; [done| | |done].
    + intros d1 d2 d3 [H1 H2] [H1' H2']. split; [by etrans|auto].
    + intros c db1 w1 r ou w2 Hstep.
      destruct (campaign_step_sent_dates _ _ _ _ _ _ _ Hstep) as (H1 & H2 & _). done.
  - intros campaign Hfind Hcontacts.
    destruct (process_campaign_step campaign dry_run db w) as (r & ou & w' & Heq & Hstep).
    rewrite Heq. cbn [fst snd]. rewrite find_one_store_after, Hfind.
    eexists. split; [reflexivity|].
    by apply (campaign_step_sent_dates _ _ _ _ _ _ _ Hstep).
Qed.

(** ** Campaigns the sweep does not select *)

Lemma run_sweeps_unselected n dry_run db w c :
  NoDup (id <$> db_campaigns db) →
  find_one (id c) db = Some c → is_selected c = false →
  find_one (id c) (run_sweeps n dry_run db w).1 = Some c ∧
  ∀ cid, attempts (id c) cid (net_calls (run_sweeps n dry_run db w).2)
         = attempts (id c) cid (net_calls w).
Proof.
  intros Hnd Hc Hsel.
  apply (run_sweeps_ind
    (λ db1 w1, find_one (id c) db1 = Some c ∧
               ∀ cid, attempts (id c) cid (net_calls w1)
                      = attempts (id c) cid (net_calls w))); auto.
  intros c2 db1 w1 r ou w2 _ Hc2 Hsel2 [Hfind Hcalls] Hstep.
  assert (Hne : id c2 ≠ id c).
  { intros Heq. rewrite Heq in Hc2. assert (c2 = c) as -> by congruence. congruence. }
  split; [by rewrite find_one_store_after_ne|].
  intros cid. destruct (campaign_step_world _ _ _ _ _ _ _ Hstep) as (_ & _ & _ & Ha).
  rewrite Ha by done. apply Hcalls.
Qed.

(** X10: in a store with unique ids a campaign whose status is neither
    [scheduled] nor [sending] (a draft, a completed or a failed one) is
    out of the dispatcher's reach: after any number of sweeps its stored
    document is exactly what it was and no HTTP call has been made on its
    behalf, for any contact. *)
Theorem unselected_campaign_left_alone n dry_run db w c :
  NoDup (id <$> db_campaigns db) →
  c ∈ db_campaigns db →
  status c ≠ scheduled → status c ≠ sending →
  find_one (id c) (run_sweeps n dry_run db w).1 = Some c ∧
  ∀ cid, attempts (id c) cid (net_calls (run_sweeps n dry_run db w).2)
         = attempts (id c) cid (net_calls w).
Proof.
  intros Hnd Hc Hs1 Hs2. apply run_sweeps_unselected; [done|by apply find_one_unique|].
  unfold is_selected. apply bool_decide_eq_false_2.
  intros [?|[?|H]%elem_of_cons]%elem_of_cons; [done|done|by apply elem_of_nil in H].
Qed.

(** ** A sweep in which every delivery failed *)

(** X11: when [process_campaign] returns with no success and at least
    one failure, the stored campaign is [failed] with every due date in
    [sentDates]; in a store with unique ids no later sweep changes the
    document or makes a call for it: the contacts that failed are not
    tried again, although their retry counters may be below the ceiling. *)
Theorem total_failure_is_final campaign dry_run db w f n dry_run' :
  NoDup (id <$> db_campaigns db) →
  find_one (id campaign) db = Some campaign →
  (process_campaign campaign dry_run db w).1.1 = (true, 0%nat, S f) →
  let after := process_campaign campaign dry_run db w in
  ∃ c', find_one (id campaign) after.1.2 = Some c' ∧
        status c' = failed ∧
        dates_to_process (clock w (ticks w)) campaign ⊆ sentDates c' ∧
        find_one (id campaign) (run_sweeps n dry_run' after.1.2 after.2).1 = Some c' ∧
        ∀ cid, attempts (id campaign) cid
                 (net_calls (run_sweeps n dry_run' after.1.2 after.2).2)
               = attempts (id campaign) cid (net_calls after.2).
Proof.
  intros Hnd Hfind Hres. cbv zeta.
  destruct (process_campaign_step campaign dry_run db w) as (r & ou & w' & Heq & Hstep).
  rewrite Heq in *. cbn [fst snd] in *.
  assert (Hstored : find_one (id campaign) (store_after (id campaign) ou db)
                    = Some (doc_after ou campaign)).
  { rewrite find_one_store_after, Hfind. by destruct ou. }
  assert (Hid : id (doc_after ou campaign) = id campaign).
  { destruct ou; [apply apply_update_id|done]. }
  assert (Hfailed : status (doc_after ou campaign) = failed).
  { destruct Hstep; try discriminate. injection Hres as Hs Hf.
    cbn. rewrite Hs, Hf. unfold new_status_of.
    rewrite bool_decide_eq_true_2 by lia. by rewrite bool_decide_eq_true_2. }
  exists (doc_after ou campaign). split; [done|]. split; [done|]. split.
  - apply (campaign_step_sent_dates _ _ _ _ _ _ _ Hstep).
    destruct Hstep; try discriminate; done.
  - rewrite <- Hid.
    apply run_sweeps_unselected.
    + by rewrite store_after_ids.
    + by rewrite Hid.
    + by apply failed_not_selected.
Qed.

(** ** Retry counters and calls *)

Lemma contact_step_retries k dry_run now contact st w st' w' cid :
  contact_step k dry_run now contact st w st' w' →
  (retries_of cid (l_retry_counts st) ≤ retries_of cid (l_retry_counts st'))%Z ∧
  (retries_of cid (l_retry_counts st') - retries_of cid (l_retry_counts st)
   ≤ Z.of_nat (attempts k cid (net_calls w')) - Z.of_nat (attempts k cid (net_calls w)))%Z ∧
  (dry_run = true → l_retry_counts st' = l_retry_counts st).
Proof.
  intros Hstep. inversion Hstep; subst; cbn [l_retry_counts]; try (split; [lia|split; [lia|done]]).
  - destruct (decide (c_id contact = cid)) as [<-|Hne].
    + rewrite attempts_called_same. lia.
    + rewrite attempts_called_other by auto. lia.
  - destruct (decide (c_id contact = cid)) as [<-|Hne].
    + rewrite retries_of_insert_same, attempts_called_same. lia.
    + rewrite retries_of_insert_other, attempts_called_other by auto. lia.
Qed.

Lemma send_loop_retries k dry_run now subject message media_url contacts st w cid :
  let r := send_loop k dry_run now subject message media_url contacts st w in
  (retries_of cid (l_retry_counts st) ≤ retries_of cid (l_retry_counts r.1))%Z ∧
  (retries_of cid (l_retry_counts r.1) - retries_of cid (l_retry_counts st)
   ≤ Z.of_nat (attempts k cid (net_calls r.2)) - Z.of_nat (attempts k cid (net_calls w)))%Z ∧
  (dry_run = true → l_retry_counts r.1 = l_retry_counts st).
Proof.
  apply (send_loop_ind
    (λ st' w',
       (retries_of cid (l_retry_counts st) ≤ retries_of cid (l_retry_counts st'))%Z ∧
       (retries_of cid (l_retry_counts st') - retries_of cid (l_retry_counts st)
        ≤ Z.of_nat (attempts k cid (net_calls w')) - Z.of_nat (attempts k cid (net_calls w)))%Z ∧
       (dry_run = true → l_retry_counts st' = l_retry_counts st)));
    [|split; [lia|split; [lia|done]]].
  intros contact st1 w1 st2 w2 _ (H1 & H2 & H3) Hstep.
  destruct (contact_step_retries _ _ _ _ _ _ _ _ cid Hstep) as (H1' & H2' & H3').
  split; [lia|]. split; [lia|]. intros Hdry. by rewrite H3', H3.
Qed.

Lemma campaign_step_retries c dry_run db w r ou w' cid :
  campaign_step c dry_run db w r ou w' →
  (retries_of cid (retryCounts c) ≤ retries_of cid (retryCounts (doc_after ou c)))%Z ∧
  (retries_of cid (retryCounts (doc_after ou c)) - retries_of cid (retryCounts c)
   ≤ Z.of_nat (attempts (id c) cid (net_calls w'))
     - Z.of_nat (attempts (id c) cid (net_calls w)))%Z ∧
  (dry_run = true → retryCounts (doc_after ou c) = retryCounts c).
Proof.
  intros Hstep. inversion Hstep; subst;
    cbn [doc_after apply_update retryCounts set_retryCounts default from_option];
    rewrite ?net_calls_tick; try (split; [lia|split; [lia|done]]).
  match goal with H : send_loop _ _ _ _ _ _ _ _ _ = _ |- _ =>
    pose proof (send_loop_retries (id c) dry_run (clock w (ticks w)) ("📢 " +:+ name c)
                  (message c) (mediaUrl c) (resolve_contacts c db)
                  (mkLoop 0 0 (results c) (retryCounts c)) (tick w) cid) as Hr;
    rewrite H in Hr end.
  exact Hr.
Qed.

(** X12: in a store with unique ids, over any number of sweeps, the
    retry counter of a contact of a campaign never goes down, and it
    grows by at most the number of HTTP calls made for that contact on
    behalf of that campaign; in dry-run mode no retry counter changes. *)
Theorem retry_counter_tracks_calls n dry_run db w k cid c :
  NoDup (id <$> db_campaigns db) →
  find_one k db = Some c →
  ∃ c', find_one k (run_sweeps n dry_run db w).1 = Some c' ∧
        (retries_of cid (retryCounts c) ≤ retries_of cid (retryCounts c'))%Z ∧
        (retries_of cid (retryCounts c') - retries_of cid (retryCounts c)
         ≤ Z.of_nat (attempts k cid (net_calls (run_sweeps n dry_run db w).2))
           - Z.of_nat (attempts k cid (net_calls w)))%Z ∧
        (dry_run = true → retryCounts c' = retryCounts c).
Proof.
  intros Hnd Hc.
  apply (run_sweeps_ind
    (λ db1 w1,
       ∃ c', find_one k db1 = Some c' ∧
             (retries_of cid (retryCounts c) ≤ retries_of cid (retryCounts c'))%Z ∧
             (retries_of cid (retryCounts c') - retries_of cid (retryCounts c)
              ≤ Z.of_nat (attempts k cid (net_calls w1))
                - Z.of_nat (attempts k cid (net_calls w)))%Z ∧
             (dry_run = true → retryCounts c' = retryCounts c))); auto.
  - intros c2 db1 w1 r ou w2 _ Hc2 _ (c1 & Hfind & H1 & H2 & H3) Hstep.
    destruct (decide (id c2 = k)) as [<-|Hne].
    + assert (c1 = c2) as -> by congruence.
      destruct (campaign_step_retries _ _ _ _ _ _ _ cid Hstep) as (H1' & H2' & H3').
      exists (doc_after ou c2). split.
      * rewrite find_one_store_after, Hc2. by destruct ou.
      * split; [lia|]. split; [lia|]. intros Hdry. by rewrite H3', H3.
    + exists c1. rewrite find_one_store_after_ne by done. split; [done|].
      destruct (campaign_step_world _ _ _ _ _ _ _ Hstep) as (_ & _ & _ & Ha).
      rewrite Ha by done. done.
  - exists c. split; [done|]. split; [lia|]. split; [lia|done].
Qed.

(** ** The stored status and the stored dates *)

Lemma set_ge_false (a b : list string) :
  set_ge a b = false → ∃ x, x ∈ b ∧ x ∉ a.
Proof.
  intros Hge.
  destruct (decide (Forall (λ x, x ∈ a) b)) as [Hall|Hex].
  - assert (set_ge a b = true) as Ht; [|congruence].
    apply set_ge_spec. by apply Forall_forall.
  - apply not_Forall_Exists in Hex; [|intros x; apply _].
    apply Exists_exists in Hex as (x & Hx & Hna). by exists x.
Qed.

Lemma new_status_of_completed s f b : new_status_of s f b = completed → b = true.
Proof. unfold new_status_of. destruct (_ && _); [done|]. by destruct b. Qed.

Lemma new_status_of_scheduled s f b : new_status_of s f b = scheduled → b = false.
Proof. unfold new_status_of. destruct (_ && _); [done|]. by destruct b. Qed.

(** X13: the status [process_campaign] stores agrees with the dates it
    stores. When a date was due and contacts were resolved, a campaign
    stored as [completed] has every scheduled date in its stored
    [sentDates], and a campaign stored as [scheduled] has a scheduled
    date that is neither in its stored [sentDates] nor was due: a date
    still to come, or one that cannot be parsed. *)
Theorem stored_status_agrees_with_dates campaign dry_run db w :
  find_one (id campaign) db = Some campaign →
  dates_to_process (clock w (ticks w)) campaign ≠ [] →
  resolve_contacts campaign db ≠ [] →
  ∃ c', find_one (id campaign) (process_campaign campaign dry_run db w).1.2 = Some c' ∧
        (status c' = completed → normalized_dates campaign ⊆ sentDates c') ∧
        (status c' = scheduled →
         ∃ d, d ∈ normalized_dates campaign ∧ (d ∉ sentDates c') ∧
              is_due (clock w (ticks w)) (sentDates campaign) d = false).
Proof.
  intros Hfind Hdue Hcontacts.
  destruct (process_campaign_step campaign dry_run db w) as (r & ou & w' & Heq & Hstep).
  rewrite Heq. cbn [fst snd]. rewrite find_one_store_after, Hfind.
  assert (Hnot_due : ∀ d (sent' : list string),
            d ∈ normalized_dates campaign →
            d ∉ (sentDates campaign ++ dates_to_process (clock w (ticks w)) campaign) →
            is_due (clock w (ticks w)) (sentDates campaign) d = false).
  { intros d sent' Hd Hnot. apply not_true_is_false. intros Hisdue. apply Hnot.
    apply elem_of_app. right. by apply elem_of_dates_to_process. }
  destruct Hstep; try done; (eexists; split; [reflexivity|]);
    cbn -[add_to_set list_of_set]; split.
  - destruct (set_ge _ _) eqn:Hge; [|done]. intros _ d Hd.
    apply elem_of_add_to_set, elem_of_app. by apply (proj1 (set_ge_spec _ _) Hge).
  - destruct (set_ge _ _) eqn:Hge; [done|]. intros _.
    destruct (set_ge_false _ _ Hge) as (d & Hd & Hnot). exists d.
    split; [done|]. split; [|by apply (Hnot_due d [])].
    by rewrite elem_of_add_to_set, <- elem_of_app.
  - intros Hge%new_status_of_completed d Hd.
    by apply (proj1 (set_ge_spec _ _) Hge).
  - intros Hge%new_status_of_scheduled.
    destruct (set_ge_false _ _ Hge) as (d & Hd & Hnot). exists d.
    split; [done|]. split; [done|]. apply (Hnot_due d []); [done|].
    by rewrite <- elem_of_list_of_set.
Qed.

(** ** Dry runs and deliveries that all succeed *)

Lemma same_clock_tick w1 w2 : same_clock w1 w2 → same_clock (tick w1) (tick w2).
Proof. unfold same_clock, tick; simpl. intros [-> ->]. done. Qed.

Lemma accepts_tick w : accepts w → accepts (tick w).
Proof. done. Qed.

Lemma send_campaign_email_accepts who to_email to_name subject message media_url w :
  accepts w →
  let r := send_campaign_email who to_email to_name subject message media_url w in
  r.1 = (true, PyNone) ∧ accepts r.2 ∧ clock r.2 = clock w ∧ ticks r.2 = ticks w.
Proof.
  intros Hacc. unfold send_campaign_email, requests_post. cbv zeta.
  destruct (Hacc (length (net_calls w))) as (text & e & ->). simpl. done.
Qed.

(** One iteration in dry-run mode, and the same iteration against an
    endpoint that accepts: the same counts, results and counters. *)
Lemma send_to_contact_dry_run k now subject message media_url st w1 w2 contact :
  accepts w2 → same_clock w1 w2 →
  let r1 := send_to_contact k true now subject message media_url (st, w1) contact in
  let r2 := send_to_contact k false now subject message media_url (st, w2) contact in
  r1.1 = r2.1 ∧ accepts r2.2 ∧ same_clock r1.2 r2.2.
Proof.
  intros Hacc Hclock. unfold send_to_contact. cbv zeta.
  destruct (truthy (c_email contact)); simpl; [|done].
  destruct (already_sent (c_id contact) (l_results st)); simpl; [done|].
  case_bool_decide; simpl; [done|].
  destruct (send_campaign_email_accepts (Some (k, contact)) (c_email contact)
              (c_name contact) subject message
              (if truthy media_url then Some media_url else None) w2 Hacc)
    as (Hr & Hacc' & Hc & Ht).
  destruct (send_campaign_email _ _ _ _ _ _ w2) as [[success error] w2'].
  simpl in Hr, Hacc', Hc, Ht. injection Hr as -> ->. simpl.
  split; [done|]. split; [done|]. destruct Hclock as [Hc1 Ht1].
  split; congruence.
Qed.

Lemma send_loop_dry_run k now subject message media_url contacts st w1 w2 :
  accepts w2 → same_clock w1 w2 →
  let r1 := send_loop k true now subject message media_url contacts st w1 in
  let r2 := send_loop k false now subject message media_url contacts st w2 in
  r1.1 = r2.1 ∧ accepts r2.2 ∧ same_clock r1.2 r2.2.
Proof.
  unfold send_loop. revert st w1 w2.
  induction contacts as [|c cs IH]; intros st w1 w2 Hacc Hclock; cbn [fold_left]; [done|].
  destruct (send_to_contact_dry_run k now subject message media_url st w1 w2 c Hacc Hclock)
    as (Hst & Hacc' & Hclock').
  destruct (send_to_contact k true _ _ _ _ (st, w1) c) as [st1 w1'].
  destruct (send_to_contact k false _ _ _ _ (st, w2) c) as [st2 w2'].
  simpl in Hst, Hacc', Hclock'. subst st2. by apply IH.
Qed.

Lemma process_campaign_dry_run campaign db w1 w2 :
  accepts w2 → same_clock w1 w2 →
  let r1 := process_campaign campaign true db w1 in
  let r2 := process_campaign campaign false db w2 in
  r1.1 = r2.1 ∧ accepts r2.2 ∧ same_clock r1.2 r2.2.
Proof.
  intros Hacc Hclock. cbv zeta.
  assert (Hnow : clock w1 (ticks w1) = clock w2 (ticks w2)).
  { destruct Hclock as [-> ->]. done. }
  pose proof (same_clock_tick _ _ Hclock) as Htick.
  destruct (decide (dates_to_process (clock w2 (ticks w2)) campaign = [])) as [Hdue|Hdue].
  - rewrite (process_campaign_not_due campaign true db w1) by (by rewrite Hnow).
    rewrite (process_campaign_not_due campaign false db w2) by done. done.
  - rewrite (process_campaign_due campaign true db w1) by (by rewrite Hnow).
    rewrite (process_campaign_due campaign false db w2) by done.
    rewrite Hnow.
    destruct (resolve_contacts campaign db) as [|c0 cs]; [done|].
    destruct (email_enabled campaign); cbn [negb]; [|done].
    destruct (send_loop_dry_run (id campaign) (clock w2 (ticks w2))
                ("📢 " +:+ name campaign) (message campaign) (mediaUrl campaign)
                (c0 :: cs) (mkLoop 0 0 (results campaign) (retryCounts campaign))
                (tick w1) (tick w2) (accepts_tick _ Hacc) Htick)
      as (Hst & Hacc' & Hclock').
    destruct (send_loop _ true _ _ _ _ _ _ _) as [st1 w1'].
    destruct (send_loop _ false _ _ _ _ _ _ _) as [st2 w2'].
    simpl in Hst, Hacc', Hclock'. subst st2. done.
Qed.

Lemma run_campaign_process dry_run acc db w c :
  run_campaign dry_run (acc, db, w) c
  = (tally acc (process_campaign c dry_run db w).1.1,
     (process_campaign c dry_run db w).1.2, (process_campaign c dry_run db w).2).
Proof.
  unfold run_campaign, tally. destruct acc as [[n s] f].
  destruct (process_campaign c dry_run db w) as [[[[p s1] f1] db1] w1]. by destruct p.
Qed.

Lemma sweep_fold_dry_run l acc db w1 w2 :
  accepts w2 → same_clock w1 w2 →
  let r1 := fold_left (run_campaign true) l (acc, db, w1) in
  let r2 := fold_left (run_campaign false) l (acc, db, w2) in
  r1.1 = r2.1 ∧ accepts r2.2 ∧ same_clock r1.2 r2.2.
Proof.
  revert acc db w1 w2.
  induction l as [|c l IH]; intros acc db w1 w2 Hacc Hclock; cbn [fold_left]; [done|].
  destruct (process_campaign_dry_run c db w1 w2 Hacc Hclock) as (Hr & Hacc' & Hclock').
  rewrite !run_campaign_process, Hr. exact (IH _ _ _ _ Hacc' Hclock').
Qed.

Lemma run_scheduler_dry_run db w1 w2 :
  accepts w2 → same_clock w1 w2 →
  let r1 := run_scheduler true db w1 in
  let r2 := run_scheduler false db w2 in
  r1.1 = r2.1 ∧ accepts r2.2 ∧ same_clock r1.2 r2.2.
Proof.
  intros Hacc Hclock. rewrite !run_scheduler_fold.
  apply sweep_fold_dry_run; [done|by apply same_clock_tick].
Qed.

Lemma run_sweeps_dry_run n db w1 w2 :
  accepts w2 → same_clock w1 w2 →
  (run_sweeps n true db w1).1 = (run_sweeps n false db w2).1.
Proof.
  revert db w1 w2.
  induction n as [|n IH]; intros db w1 w2 Hacc Hclock; cbn [run_sweeps]; [done|].
  destruct (run_scheduler_dry_run db w1 w2 Hacc Hclock) as (Hr & Hacc' & Hclock').
  destruct (run_scheduler true db w1) as [[acc1 db1] w1'].
  destruct (run_scheduler false db w2) as [[acc2 db2] w2'].
  simpl in Hr, Hacc', Hclock'. injection Hr as -> ->. by apply IH.
Qed.

(** *** The order of [sentDates]

    [list(set(...))] may give the dates in any order, so two runs can
    store the same dates in two orders. The dispatcher reads [sentDates]
    only through membership and as a set, so the order makes no
    difference to what it does later. *)

Lemma same_up_to_order_refl c : same_up_to_order c c.
Proof. split; [done|]. by destruct c. Qed.

Lemma same_stores_refl db : same_stores db db.
Proof.
  split; [done|]. apply Forall_Forall2_diag, Forall_forall.
  intros c _. apply same_up_to_order_refl.
Qed.

Lemma is_due_order now (sent sent' : list string) d :
  sent ≡ₚ sent' → is_due now sent d = is_due now sent' d.
Proof.
  intros Hp. unfold is_due. destruct (parse_scheduled_date d); [|done].
  f_equal. f_equal. apply bool_decide_ext. by rewrite Hp.
Qed.

Lemma add_to_set_order (arr arr' each : list string) :
  arr ≡ₚ arr' → add_to_set arr each ≡ₚ add_to_set arr' each.
Proof.
  unfold add_to_set. revert arr arr'.
  induction each as [|d each IH]; intros arr arr' Hp; simpl; [done|].
  apply IH.
  rewrite (bool_decide_ext (d ∈ arr) (d ∈ arr')) by (by rewrite Hp).
  case_bool_decide; [done|]. by rewrite Hp.
Qed.

Lemma apply_update_order u c c' :
  same_up_to_order c c' → same_up_to_order (apply_update u c) (apply_update u c').
Proof.
  intros [Hp ->]. destruct c; cbn in *. split; cbn.
  - apply add_to_set_order. by destruct (set_sentDates u).
  - reflexivity.
Qed.

(** What [process_campaign] reads of a campaign is the same for two
    documents that differ in the order of [sentDates]. *)
Lemma same_up_to_order_reads c c' db db' :
  same_up_to_order c c' → db_users db = db_users db' →
  id c' = id c ∧ name c' = name c ∧ message c' = message c ∧
  mediaUrl c' = mediaUrl c ∧ results c' = results c ∧
  retryCounts c' = retryCounts c ∧ status c' = status c ∧
  normalized_dates c' = normalized_dates c ∧
  email_enabled c' = email_enabled c ∧
  resolve_contacts c' db' = resolve_contacts c db ∧
  (∀ now, dates_to_process now c' = dates_to_process now c) ∧
  (∀ due dates, set_ge (sentDates c' ++ due) dates = set_ge (sentDates c ++ due) dates) ∧
  (∀ due dates, set_ge (list_of_set (sentDates c' ++ due)) dates
                = set_ge (list_of_set (sentDates c ++ due)) dates) ∧
  (∀ due, list_of_set (sentDates c' ++ due) = list_of_set (sentDates c ++ due)).
Proof.
  intros [Hp ->] Husers.
  assert (Hset : ∀ due, list_to_set (sentDates c' ++ due)
                        =@{gset string} list_to_set (sentDates c ++ due)).
  { intros due. apply list_to_set_perm_L. by rewrite Hp. }
  repeat split; try done.
  - unfold resolve_contacts, find_all_users, find_users_in. cbn. by rewrite Husers.
  - intros now. unfold dates_to_process, normalized_dates. cbn.
    apply List.filter_ext. intros d. by apply is_due_order.
  - intros due dates. unfold set_ge. cbn. by rewrite Hset.
  - intros due dates. unfold set_ge, list_of_set. cbn. by rewrite Hset.
  - intros due. unfold list_of_set. cbn. by rewrite Hset.
Qed.

Lemma campaign_step_order c c' dry_run db db' w r ou w' :
  same_up_to_order c c' → db_users db = db_users db' →
  campaign_step c dry_run db w r ou w' → campaign_step c' dry_run db' w r ou w'.
Proof.
  intros Hsame Husers Hstep.
  destruct (same_up_to_order_reads c c' db db' Hsame Husers)
    as (Hid & Hname & Hmsg & Hmedia & Hres & Hrc & _ & Hnorm & Hmail & Hcontacts
        & Hdue & Hge & Hge' & Hlist).
  inversion Hstep; subst.
  - apply path_not_due. by rewrite Hdue.
  - apply path_no_contacts; by rewrite ?Hdue, ?Hcontacts.
  - rewrite <- Hge, <- Hnorm, <- !Hdue.
    apply path_email_disabled; by rewrite ?Hdue, ?Hcontacts, ?Hmail.
  - rewrite <- Hge', <- Hlist, <- Hnorm, <- !Hdue.
    apply path_send_loop; rewrite ?Hdue, ?Hcontacts, ?Hmail, ?Hid, ?Hname, ?Hmsg,
      ?Hmedia, ?Hres, ?Hrc; done.
Qed.

(** The four paths exclude each other. *)
Lemma campaign_step_det c dry_run db w r1 ou1 w1 r2 ou2 w2 :
  campaign_step c dry_run db w r1 ou1 w1 →
  campaign_step c dry_run db w r2 ou2 w2 →
  r1 = r2 ∧ ou1 = ou2 ∧ w1 = w2.
Proof.
  intros H1 H2. inversion H1; subst; inversion H2; subst; try done; try congruence.
  match goal with
  | Ha : send_loop _ _ _ _ _ _ _ _ _ = (?st, ?wa),
    Hb : send_loop _ _ _ _ _ _ _ _ _ = (?st', ?wb) |- _ =>
      rewrite Ha in Hb; injection Hb as <- <-
  end.
  done.
Qed.

Lemma update_first_order i u cs cs' :
  Forall2 same_up_to_order cs cs' →
  Forall2 same_up_to_order (update_first i u cs) (update_first i u cs').
Proof.
  induction 1 as [|c c' cs cs' Hc Hcs IH]; cbn [update_first]; [constructor|].
  assert (Hid : id c' = id c) by (destruct Hc as [_ ->]; done).
  rewrite Hid. case_bool_decide.
  - constructor; [by apply apply_update_order|done].
  - by constructor.
Qed.

Lemma store_after_order i ou db db' :
  same_stores db db' → same_stores (store_after i ou db) (store_after i ou db').
Proof.
  intros [Husers Hcs]. destruct ou as [u|]; [|done].
  split; [done|]. by apply update_first_order.
Qed.

Lemma find_scheduled_order db db' :
  same_stores db db' →
  Forall2 same_up_to_order (find_scheduled db) (find_scheduled db').
Proof.
  intros [_ Hcs]. unfold find_scheduled.
  induction Hcs as [|c c' cs cs' Hc Hcs IH]; cbn [List.filter]; [constructor|].
  assert (Hs : status c' = status c) by (destruct Hc as [_ ->]; done).
  rewrite Hs. case_bool_decide; [by constructor|done].
Qed.

(** One campaign, processed from two stores that differ in the order
    of [sentDates]: the same result, the same calls, and two stores that
    differ in that order only. *)
Lemma run_campaign_order dry_run acc db db' w c c' :
  same_up_to_order c c' → same_stores db db' →
  let r1 := run_campaign dry_run (acc, db, w) c in
  let r2 := run_campaign dry_run (acc, db', w) c' in
  r1.1.1 = r2.1.1 ∧ same_stores r1.1.2 r2.1.2 ∧ r1.2 = r2.2.
Proof.
  intros Hc Hdb. cbv zeta.
  destruct (run_campaign_tally dry_run acc db w c) as (r & ou & w1 & -> & Hstep).
  destruct (run_campaign_tally dry_run acc db' w c') as (r' & ou' & w1' & -> & Hstep').
  pose proof (campaign_step_order c c' dry_run db db' w r ou w1 Hc (proj1 Hdb) Hstep)
    as Hstep2.
  destruct (campaign_step_det _ _ _ _ _ _ _ _ _ _ Hstep2 Hstep') as (<- & <- & <-).
  assert (Hid : id c' = id c) by (destruct Hc as [_ ->]; done).
  rewrite Hid. cbn [fst snd]. split; [done|]. split; [|done].
  by apply store_after_order.
Qed.

Lemma sweep_fold_order dry_run l l' acc db db' w :
  Forall2 same_up_to_order l l' → same_stores db db' →
  let r1 := fold_left (run_campaign dry_run) l (acc, db, w) in
  let r2 := fold_left (run_campaign dry_run) l' (acc, db', w) in
  r1.1.1 = r2.1.1 ∧ same_stores r1.1.2 r2.1.2 ∧ r1.2 = r2.2.
Proof.
  intros Hl. revert acc db db' w.
  induction Hl as [|c c' l l' Hc Hl IH]; intros acc db db' w Hdb; cbn [fold_left]; [done|].
  destruct (run_campaign_order dry_run acc db db' w c c' Hc Hdb) as (Hacc & Hdb' & Hw).
  destruct (run_campaign dry_run (acc, db, w) c) as [[acc1 db1] w1].
  destruct (run_campaign dry_run (acc, db', w) c') as [[acc2 db2] w2].
  cbn [fst snd] in Hacc, Hdb', Hw. subst acc2 w2. by apply IH.
Qed.

Lemma run_scheduler_order dry_run db db' w :
  same_stores db db' →
  let r1 := run_scheduler dry_run db w in
  let r2 := run_scheduler dry_run db' w in
  r1.1.1 = r2.1.1 ∧ same_stores r1.1.2 r2.1.2 ∧ r1.2 = r2.2.
Proof.
  intros Hdb. rewrite !run_scheduler_fold.
  apply sweep_fold_order; [by apply find_scheduled_order|done].
Qed.

(** A sweep in dry-run mode and a real sweep whose calls are all
    accepted, from two stores that differ in the order of [sentDates]. *)
Lemma run_scheduler_rehearsal db1 db2 w1 w2 :
  same_stores db1 db2 → accepts w2 → same_clock w1 w2 →
  let r1 := run_scheduler true db1 w1 in
  let r2 := run_scheduler false db2 w2 in
  r1.1.1 = r2.1.1 ∧ same_stores r1.1.2 r2.1.2 ∧ accepts r2.2 ∧ same_clock r1.2 r2.2.
Proof.
  intros Hdb Hacc Hclock. cbv zeta.
  destruct (run_scheduler_order true db1 db2 w1 Hdb) as (Ht & Hs & Hw).
  destruct (run_scheduler_dry_run db2 w1 w2 Hacc Hclock) as (Hr & Hacc' & Hclock').
  rewrite Ht, Hw. rewrite <- Hr. done.
Qed.

Lemma run_sweeps_rehearsal n db1 db2 w1 w2 :
  same_stores db1 db2 → accepts w2 → same_clock w1 w2 →
  same_stores (run_sweeps n true db1 w1).1 (run_sweeps n false db2 w2).1.
Proof.
  revert db1 db2 w1 w2.
  induction n as [|n IH]; intros db1 db2 w1 w2 Hdb Hacc Hclock; cbn [run_sweeps]; [done|].
  destruct (run_scheduler_rehearsal db1 db2 w1 w2 Hdb Hacc Hclock)
    as (_ & Hdb' & Hacc' & Hclock').
  destruct (run_scheduler true db1 w1) as [[acc1 db1'] w1'].
  destruct (run_scheduler false db2 w2) as [[acc2 db2'] w2'].
  by apply IH.
Qed.

(** X14: a dry run is a faithful rehearsal of a run in which every
    delivery succeeds. From two stores that hold the same documents up
    to the order of [sentDates] (the same store, for one) and with
    clocks that read the same, a sweep in dry-run mode and a real sweep
    against an endpoint that accepts every call report the same totals
    and leave stores that again hold the same documents up to the order
    of [sentDates]; so does [main] after any number of sweeps. A dry run
    writes results, sent dates and statuses to the store. *)
Theorem dry_run_is_an_accepted_run loop n db1 db2 w1 w2 :
  same_stores db1 db2 →
  accepts w2 → clock w1 = clock w2 → ticks w1 = ticks w2 →
  (run_scheduler true db1 w1).1.1 = (run_scheduler false db2 w2).1.1 ∧
  same_stores (run_scheduler true db1 w1).1.2 (run_scheduler false db2 w2).1.2 ∧
  same_stores (main loop true n db1 w1).1 (main loop false n db2 w2).1.
Proof.
  intros Hdb Hacc Hc Ht. assert (Hclock : same_clock w1 w2) by done.
  destruct (run_scheduler_rehearsal db1 db2 w1 w2 Hdb Hacc Hclock) as (H1 & H2 & _).
  split; [done|]. split; [done|].
  rewrite !main_run_sweeps. by apply run_sweeps_rehearsal.
Qed.

(** ** Deliveries that succeed *)

(** One iteration when the delivery cannot fail (a dry run, or an
    endpoint that accepts): no counter changes, nothing recorded as sent
    is lost, and the contact is recorded as sent unless it has no email
    address or is stopped by the ceiling. *)
Lemma send_to_contact_accepted k dry_run now subject message media_url st w contact :
  dry_run = true ∨ accepts w →
  let r := send_to_contact k dry_run now subject message media_url (st, w) contact in
  l_retry_counts r.1 = l_retry_counts st ∧
  (dry_run = true ∨ accepts r.2) ∧
  (∀ cid, already_sent cid (l_results st) = true →
          already_sent cid (l_results r.1) = true) ∧
  (truthy (c_email contact) = true →
   (retries_of (c_id contact) (l_retry_counts st) < MAX_RETRY_ATTEMPTS)%Z
   ∨ already_sent (c_id contact) (l_results st) = true →
   already_sent (c_id contact) (l_results r.1) = true) ∧
  ((retries_of (c_id contact) (l_retry_counts st) < MAX_RETRY_ATTEMPTS)%Z →
   fail_count r.1 = fail_count st).
Proof.
  intros Hok. unfold send_to_contact. cbv zeta.
  destruct (truthy (c_email contact)); simpl; [|done].
  destruct (already_sent (c_id contact) (l_results st)) eqn:Hsent; simpl; [done|].
  fold (retries_of (c_id contact) (l_retry_counts st)).
  case_bool_decide as Hmax; simpl.
  { split; [done|]. split; [done|]. split; [done|].
    split; [intros _ [?|?]; [lia|done]|lia]. }
  assert (Hup : ∀ cid, already_sent cid (l_results st) = true →
                already_sent cid
                  (upsert_result (c_id contact) (sent_entry now contact) (l_results st))
                = true).
  { intros cid Hcid. destruct (decide (c_id contact = cid)) as [<-|Hne]; [congruence|].
    by rewrite already_sent_upsert_other. }
  assert (Hself : already_sent (c_id contact)
                    (upsert_result (c_id contact) (sent_entry now contact) (l_results st))
                  = true).
  { apply already_sent_upsert_same; [apply sent_entry_is_email|done]. }
  destruct dry_run; simpl.
  - auto.
  - destruct Hok as [?|Hacc]; [done|].
    destruct (send_campaign_email_accepts (Some (k, contact)) (c_email contact)
                (c_name contact) subject message
                (if truthy media_url then Some media_url else None) w Hacc)
      as (Hr & Hacc' & _ & _).
    destruct (send_campaign_email _ _ _ _ _ _ w) as [[success error] w'].
    simpl in Hr, Hacc'. injection Hr as -> ->. simpl. auto.
Qed.

Lemma send_loop_accepted k dry_run now subject message media_url contacts st w :
  dry_run = true ∨ accepts w →
  let r := send_loop k dry_run now subject message media_url contacts st w in
  l_retry_counts r.1 = l_retry_counts st ∧
  (∀ cid, already_sent cid (l_results st) = true →
          already_sent cid (l_results r.1) = true) ∧
  (∀ contact, contact ∈ contacts → truthy (c_email contact) = true →
     (retries_of (c_id contact) (l_retry_counts st) < MAX_RETRY_ATTEMPTS)%Z
     ∨ already_sent (c_id contact) (l_results st) = true →
     already_sent (c_id contact) (l_results r.1) = true) ∧
  (Forall (λ contact, (retries_of (c_id contact) (l_retry_counts st)
                       < MAX_RETRY_ATTEMPTS)%Z) contacts →
   fail_count r.1 = fail_count st).
Proof.
  unfold send_loop. revert st w.
  induction contacts as [|c cs IH]; intros st w Hok; cbn [fold_left].
  { split; [done|]. split; [done|]. split; [|done].
    intros contact Hin. by apply elem_of_nil in Hin. }
  destruct (send_to_contact_accepted k dry_run now subject message media_url st w c Hok)
    as (Hrc & Hok' & Hmono & Hc & Hf).
  destruct (send_to_contact k dry_run now subject message media_url (st, w) c)
    as [st1 w1].
  simpl in Hrc, Hok', Hmono, Hc, Hf.
  destruct (IH st1 w1 Hok') as (Hrc' & Hmono' & Hall & Hfail).
  split; [congruence|]. split; [auto|]. split.
  - intros contact [->|Hin]%elem_of_cons Hmail Hcan.
    + by apply Hmono', Hc.
    + apply Hall; [done|done|]. rewrite Hrc. destruct Hcan; auto.
  - intros [Hc0 Hcs]%Forall_cons. rewrite Hfail by (by rewrite Hrc). auto.
Qed.

(** X15: when deliveries cannot fail (a dry run, or an endpoint that
    accepts every call), processing a campaign with a date due and the
    email channel on leaves every resolved contact that has an email
    address and is below the retry ceiling, or was already served,
    recorded as sent in the stored document; no retry counter changes and
    the status stored is not [failed] unless a contact at the ceiling was
    counted. *)
Theorem accepted_deliveries_are_recorded campaign dry_run db w :
  dry_run = true ∨ accepts w →
  find_one (id campaign) db = Some campaign →
  dates_to_process (clock w (ticks w)) campaign ≠ [] →
  email_enabled campaign = true →
  ∃ c', find_one (id campaign) (process_campaign campaign dry_run db w).1.2 = Some c' ∧
        retryCounts c' = retryCounts campaign ∧
        (∀ contact, contact ∈ resolve_contacts campaign db → has_email contact = true →
           (retries_of (c_id contact) (retryCounts campaign) < MAX_RETRY_ATTEMPTS)%Z
           ∨ already_sent (c_id contact) (results campaign) = true →
           already_sent (c_id contact) (results c') = true) ∧
        (Forall (λ contact, (retries_of (c_id contact) (retryCounts campaign)
                             < MAX_RETRY_ATTEMPTS)%Z)
           (resolve_contacts campaign db) →
         (process_campaign campaign dry_run db w).1.1.2 = 0%nat ∧ status c' ≠ failed).
Proof.
  intros Hok Hfind Hdue Hmail.
  rewrite (process_campaign_due campaign dry_run db w Hdue).
  destruct (resolve_contacts campaign db) as [|c0 cs] eqn:Hcontacts.
  { cbn [fst snd]. rewrite find_one_update_one, Hfind. eexists. split; [reflexivity|].
    split; [done|]. split; [|done]. intros contact Hin. by apply elem_of_nil in Hin. }
  rewrite Hmail. cbn [negb].
  assert (Hok' : dry_run = true ∨ accepts (tick w)) by (destruct Hok; auto).
  pose proof (send_loop_accepted (id campaign) dry_run (clock w (ticks w))
                ("📢 " +:+ name campaign) (message campaign) (mediaUrl campaign)
                (c0 :: cs) (mkLoop 0 0 (results campaign) (retryCounts campaign))
                (tick w) Hok') as (Hrc & _ & Hall & Hfail).
  destruct (send_loop _ _ _ _ _ _ _ _ _) as [st w'].
  cbn [fst snd l_results l_retry_counts fail_count] in *.
  rewrite find_one_update_one, Hfind. eexists. split; [reflexivity|].
  cbn. split; [done|]. split; [exact Hall|].
  intros Hbelow. specialize (Hfail Hbelow). split; [done|].
  rewrite Hfail. unfold new_status_of. rewrite bool_decide_eq_false_2 by lia.
  cbn. by destruct (set_ge _ _).
Qed.

End Scheduler.

(** * The properties on concrete data *)

Ltac by_evaluation := vm_compute; first [reflexivity | exact I | discriminate | done].

Lemma NoDup_by_evaluation (l : list string) : bool_decide (NoDup l) = true → NoDup l.
Proof. apply bool_decide_eq_true. Qed.

(** The scenario of the specification: one past date, one contact, the
    endpoint accepts; the campaign ends [completed] with one [sent] result
    and the date in [sentDates]. *)
Example scenario_delivery_succeeds :
  (process_campaign fromisoformat_ex isoformat_ex camp_single false db_single w_accepting).1.1
    = (true, 1%nat, 0%nat) ∧
  (λ c, (status c, sentDates c, r_status <$> results c))
    <$> db_campaigns
          (process_campaign fromisoformat_ex isoformat_ex camp_single false db_single
             w_accepting).1.2
    = [(completed, ["2024-01-01T00:00:00Z"], [r_sent])].
Proof. split; by_evaluation. Qed.

(** The same campaign when every call times out: [failed] after the first
    sweep, and the second sweep does not select it any more. *)
Example scenario_delivery_fails :
  (λ c, (status c, retryCounts c !! "u1_email"))
    <$> db_campaigns
          (run_scheduler fromisoformat_ex isoformat_ex false db_single w_timing_out).1.2
    = [(failed, Some 1)] ∧
  (run_sweeps fromisoformat_ex isoformat_ex 3 false db_single w_timing_out).1
    = (run_scheduler fromisoformat_ex isoformat_ex false db_single w_timing_out).1.2 ∧
  length (net_calls (run_sweeps fromisoformat_ex isoformat_ex 3 false db_single
                       w_timing_out).2) = 1%nat.
Proof. repeat split; by_evaluation. Qed.

(** C1 on [camp_single] with an endpoint that accepts. *)
Lemma process_campaign_status_reduction_witness :
  ∃ successes failures db' w' c',
    process_campaign fromisoformat_ex isoformat_ex camp_single false db_single w_accepting
      = ((true, successes, failures), db', w') ∧
    find_one (id camp_single) db' = Some c' ∧
    ((0 < failures)%nat ∧ successes = 0%nat → status c' = failed) ∧
    (¬ ((0 < failures)%nat ∧ successes = 0%nat) →
       all_dates_done fromisoformat_ex (clock w_accepting (ticks w_accepting)) camp_single →
       status c' = completed) ∧
    (¬ ((0 < failures)%nat ∧ successes = 0%nat) →
       ¬ all_dates_done fromisoformat_ex (clock w_accepting (ticks w_accepting)) camp_single →
       status c' = scheduled).
Proof.
  apply (process_campaign_status_reduction fromisoformat_ex isoformat_ex
           camp_single false db_single w_accepting).
  - vm_compute. discriminate.
  - vm_compute. discriminate.
  - vm_compute. reflexivity.
  - exists camp_single. vm_compute. reflexivity.
Defined.

(** C6 on [camp_two_dates]: the first date is folded in, the second is
    still to come. *)
Lemma process_campaign_email_disabled_witness :
  ∃ db' w' c',
    process_campaign fromisoformat_ex isoformat_ex camp_two_dates false db_two_dates
      w_accepting = ((true, 0%nat, 0%nat), db', w') ∧
    net_calls w' = net_calls w_accepting ∧
    find_one (id camp_two_dates) db' = Some c' ∧
    (∀ d, d ∈ sentDates c' ↔
          d ∈ sentDates camp_two_dates
          ∨ d ∈ dates_to_process fromisoformat_ex (clock w_accepting (ticks w_accepting))
                  camp_two_dates) ∧
    (all_dates_done fromisoformat_ex (clock w_accepting (ticks w_accepting)) camp_two_dates →
       status c' = completed) ∧
    (¬ all_dates_done fromisoformat_ex (clock w_accepting (ticks w_accepting)) camp_two_dates →
       status c' = scheduled) ∧
    results c' = results camp_two_dates ∧ retryCounts c' = retryCounts camp_two_dates.
Proof.
  apply (process_campaign_email_disabled fromisoformat_ex isoformat_ex
           camp_two_dates false db_two_dates w_accepting).
  - vm_compute. discriminate.
  - vm_compute. discriminate.
  - vm_compute. reflexivity.
  - vm_compute. reflexivity.
Defined.

Example email_disabled_stays_scheduled :
  (λ c, (status c, sentDates c))
    <$> db_campaigns
          (process_campaign fromisoformat_ex isoformat_ex camp_two_dates false db_two_dates
             w_accepting).1.2
    = [(scheduled, ["2024-01-01T00:00:00Z"])].
Proof. by_evaluation. Qed.

(** C7 on [camp_selected_none]. *)
Lemma process_campaign_no_contacts_witness :
  ∃ db' w',
    process_campaign fromisoformat_ex isoformat_ex camp_selected_none false
      db_selected_none w_accepting = ((true, 0%nat, 0%nat), db', w') ∧
    net_calls w' = net_calls w_accepting ∧
    results <$> db_campaigns db' = results <$> db_campaigns db_selected_none ∧
    (∀ c, find_one (id camp_selected_none) db_selected_none = Some c →
       ∃ c', find_one (id camp_selected_none) db' = Some c' ∧
             status c' = completed ∧ results c' = results c ∧
             sentDates c' = sentDates c ∧ retryCounts c' = retryCounts c).
Proof.
  apply (process_campaign_no_contacts fromisoformat_ex isoformat_ex
           camp_selected_none false db_selected_none w_accepting).
  - vm_compute. discriminate.
  - vm_compute. reflexivity.
Defined.

(** C8 on [camp_failed], over two sweeps. *)
Lemma failed_is_terminal_witness :
  (camp_failed ∉ find_scheduled db_failed) ∧
  find_one (id camp_failed)
    (run_sweeps fromisoformat_ex isoformat_ex 2 false db_failed w_accepting).1
  = Some camp_failed.
Proof.
  apply (failed_is_terminal fromisoformat_ex isoformat_ex 2 false db_failed w_accepting
           camp_failed).
  - apply NoDup_by_evaluation. vm_compute. reflexivity.
  - left.
  - reflexivity.
Defined.

(** C8 as stated fails: a [failed] campaign is never among the campaigns
    a sweep processes, and no sweep over a store with unique ids turns a
    [failed] campaign into a [scheduled] one. *)
Lemma failed_never_rescheduled :
  (¬ ∃ (db : Db) (c : Campaign), status c = failed ∧ c ∈ find_scheduled db) ∧
  ¬ ∃ (fromisoformat : string → option datetime) (isoformat : Z → string)
      (dry_run : bool) (db : Db) (w : World) (c c' : Campaign),
      NoDup (id <$> db_campaigns db) ∧ c ∈ db_campaigns db ∧ status c = failed ∧
      find_one (id c) (run_scheduler fromisoformat isoformat dry_run db w).1.2 = Some c' ∧
      status c' = scheduled.
Proof.
  split.
  - intros (db & c & Hfailed & [_ Hsel]%elem_of_find_scheduled).
    by rewrite failed_not_selected in Hsel.
  - intros (f & i & dry_run & db & w & c & c' & Hnd & Hc & Hfailed & Hfind & Hs).
    rewrite (run_scheduler_failed_untouched f i dry_run db w c Hnd Hc Hfailed) in Hfind.
    congruence.
Qed.

(** C2 on [db_single], over two sweeps. *)
Lemma sent_dates_within_scheduled_witness :
  Forall (λ c', sentDates c' ⊆ normalized_dates c' ∧
                (scheduledDates c' ≠ [] → sentDates c' ⊆ scheduledDates c'))
    (db_campaigns
       (run_sweeps fromisoformat_ex isoformat_ex 2 false db_single w_accepting).1).
Proof.
  apply (sent_dates_within_scheduled fromisoformat_ex isoformat_ex 2 false db_single
           w_accepting).
  - apply NoDup_by_evaluation. vm_compute. reflexivity.
  - apply (bool_decide_unpack _). vm_compute. exact I.
Defined.

(** C2 as stated fails: [camp_single] has only a [scheduledAt]; before the
    sweep its [sentDates] is empty, after it [sentDates] holds that date
    and the stored [scheduledDates] is still empty. *)
Lemma sent_dates_outside_scheduled_dates :
  Forall (λ c, sentDates c ⊆ scheduledDates c) (db_campaigns db_single) ∧
  (λ c, (sentDates c, scheduledDates c))
    <$> db_campaigns
          (run_scheduler fromisoformat_ex isoformat_ex false db_single w_accepting).1.2
    = [(["2024-01-01T00:00:00Z"], [])] ∧
  ¬ Forall (λ c, sentDates c ⊆ scheduledDates c)
      (db_campaigns
         (run_scheduler fromisoformat_ex isoformat_ex false db_single w_accepting).1.2).
Proof.
  split; [|split].
  - apply (bool_decide_unpack _). vm_compute. exact I.
  - by_evaluation.
  - apply (bool_decide_eq_false_1 _). vm_compute. reflexivity.
Qed.

(** The order of the tests: Alice's counter is at the ceiling and her
    email is recorded as [sent]; the already-sent test comes first and
    the loop counts her as a success, without a call. *)
Lemma ceiling_contact_counted_as_success :
  retries_of "u1" (retryCounts camp_served) = MAX_RETRY_ATTEMPTS ∧
  (process_campaign fromisoformat_ex isoformat_ex camp_served false db_served
     w_accepting).1.1 = (true, 1%nat, 0%nat) ∧
  net_calls (process_campaign fromisoformat_ex isoformat_ex camp_served false db_served
               w_accepting).2 = [].
Proof. repeat split; by_evaluation. Qed.

(** The order of the tests: Bob has an email result recorded as [sent]
    and no email address; the address test comes first and the loop
    skips him without counting him. *)
Lemma sent_contact_without_email_not_counted :
  already_sent (c_id bob) (results camp_no_email) = true ∧
  (process_campaign fromisoformat_ex isoformat_ex camp_no_email false db_no_email
     w_accepting).1.1 = (true, 0%nat, 0%nat).
Proof. split; by_evaluation. Qed.

(** The scenario of the specification: two dates, only the first due. *)
Example scenario_first_date_only :
  (process_campaign fromisoformat_ex isoformat_ex camp_two_dates_email false
     db_two_dates_email w_accepting).1.1 = (true, 1%nat, 0%nat) ∧
  (λ c, (status c, sentDates c))
    <$> db_campaigns
          (process_campaign fromisoformat_ex isoformat_ex camp_two_dates_email false
             db_two_dates_email w_accepting).1.2
    = [(scheduled, ["2024-01-01T00:00:00Z"])] ∧
  snd <$> net_calls
            (process_campaign fromisoformat_ex isoformat_ex camp_two_dates_email false
               db_two_dates_email w_accepting).2
    = [mkPayload "alice@example.org" "Alice" "📢 Rentree" "hello"
         (Some "https://example.org/a.png")].
Proof. repeat split; by_evaluation. Qed.

(** C9 on a 503 answer whose body has 250 characters, the first 150 of
    two bytes each, and on a 200 answer whose error is [null]. *)
Lemma send_campaign_email_outcome_witness :
  (send_campaign_email None "alice@example.org" "Alice" "s" "m" None w_unavailable).1
  = (false, PyStr ("HTTP " +:+ pretty 503 +:+ ": " +:+ take_chars 200 body_accents)) ∧
  (send_campaign_email None "alice@example.org" "Alice" "s" "m" None w_null_error).1
  = (false, PyNone).
Proof.
  split.
  - destruct (send_campaign_email_outcome None "alice@example.org" "Alice" "s" "m" None
                w_unavailable) as (_ & _ & _ & _ & _ & H & _).
    apply (H 503 body_accents (inl "Expecting value")).
    + reflexivity.
    + discriminate.
  - destruct (send_campaign_email_outcome None "alice@example.org" "Alice" "s" "m" None
                w_null_error) as (_ & _ & _ & H & _).
    apply (H "{}" PyNone). reflexivity.
Defined.

(** The cut is made between characters: 150 characters of two bytes and
    50 of one are kept, 350 bytes in all. *)
Example truncation_counts_characters :
  take_chars 200 body_accents = body_accents_200 ∧
  char_length body_accents = 250%nat ∧
  String.length (take_chars 200 body_accents) = 350%nat ∧
  (send_campaign_email None "alice@example.org" "Alice" "s" "m" None w_unavailable).1
  = (false, PyStr ("HTTP 503: " +:+ body_accents_200)).
Proof. repeat split; by_evaluation. Qed.

(** The last six characters, of a date, of a string that ends in
    accented letters and of a short string. *)
Example last_six_characters :
  last6 "2024-01-01T00:00:00" = ":00:00" ∧
  last6 "x-ééééé" = "-ééééé" ∧
  last6 "abc" = "abc".
Proof. repeat split; by_evaluation. Qed.

(** C10 on [camp_served], a campaign in status [sending]. *)
Lemma dispatcher_never_writes_sending_witness :
  ∃ c', find_one (id camp_served)
          (process_campaign fromisoformat_ex isoformat_ex camp_served false db_served
             w_accepting).1.2 = Some c' ∧
        status c' ∈ [completed; failed; scheduled].
Proof.
  destruct (dispatcher_never_writes_sending fromisoformat_ex isoformat_ex false db_served
              w_accepting) as (_ & H & _).
  apply (H camp_served camp_served).
  - vm_compute. reflexivity.
  - vm_compute. reflexivity.
Defined.

(** C4 on [db_two_dates_email]: the sweep after a sweep, the clock
    standing still. *)
Lemma nothing_due_is_a_no_op_witness :
  ∃ w2,
    run_scheduler fromisoformat_ex isoformat_ex false
      (run_scheduler fromisoformat_ex isoformat_ex false db_two_dates_email w_accepting).1.2
      (run_scheduler fromisoformat_ex isoformat_ex false db_two_dates_email w_accepting).2
    = ((0%nat, 0%nat, 0%nat),
       (run_scheduler fromisoformat_ex isoformat_ex false db_two_dates_email w_accepting).1.2,
       w2) ∧
    net_calls w2
    = net_calls
        (run_scheduler fromisoformat_ex isoformat_ex false db_two_dates_email w_accepting).2.
Proof.
  destruct (nothing_due_is_a_no_op fromisoformat_ex isoformat_ex false db_two_dates_email
              w_accepting) as (_ & _ & H).
  apply H.
  - apply NoDup_by_evaluation. vm_compute. reflexivity.
  - intros n. reflexivity.
Defined.

(** C3 on Carol, whose counter is at the ceiling and who has no result:
    no call, no counter changed, one failure more; and on [db_daily],
    where she fails on three days running and reaches the ceiling: over
    five sweeps she is attempted at most three times. *)
Lemma retry_ceiling_respected_witness :
  (let r := send_to_contact isoformat_daily "c9" false 1704326400 "s" "hello" ""
              (st_ceiling, w_flaky) carol in
   r.2 = w_flaky ∧ l_retry_counts r.1 = l_retry_counts st_ceiling ∧
   (truthy (c_email carol) = true →
    already_sent (c_id carol) (l_results st_ceiling) = false →
    fail_count r.1 = S (fail_count st_ceiling) ∧
    success_count r.1 = success_count st_ceiling)) ∧
  (attempts "c9" "u3"
     (net_calls (run_sweeps fromisoformat_daily isoformat_daily 5 false db_daily w_flaky).2)
   ≤ attempts "c9" "u3" (net_calls w_flaky) + 3)%nat.
Proof.
  destruct (retry_ceiling_respected fromisoformat_daily isoformat_daily false db_daily
              w_flaky) as (Hstep & _ & _ & H).
  split.
  - apply (Hstep "c9" 1704326400 "s" "hello" "" st_ceiling w_flaky carol).
    vm_compute. discriminate.
  - assert (Hnd : NoDup (id <$> db_campaigns db_daily))
      by (apply NoDup_by_evaluation; vm_compute; reflexivity).
    apply (H Hnd 5%nat "c9" "u3" camp_daily).
    + vm_compute. reflexivity.
    + vm_compute. discriminate.
Defined.

(** The run of [db_daily]: Alice is served on the first day; Carol's
    three calls, one a day, time out; on the fourth and fifth day she is
    at the ceiling, has no [sent] result, is counted as a failure and is
    not called; her counter stays at three. *)
Example ceiling_reached_after_three_failures :
  (λ n, attempts "c9" "u3"
          (net_calls (run_sweeps fromisoformat_daily isoformat_daily n false db_daily
                        w_flaky).2))
    <$> [1; 2; 3; 4; 5]%nat = [1; 2; 3; 3; 3]%nat ∧
  (λ n, (λ c, (status c, retryCounts c !! "u3_email", already_sent "u3" (results c)))
          <$> db_campaigns
                (run_sweeps fromisoformat_daily isoformat_daily n false db_daily w_flaky).1)
    <$> [3; 4; 5]%nat
  = [[(scheduled, Some 3, false)]; [(scheduled, Some 3, false)];
     [(completed, Some 3, false)]] ∧
  (run_scheduler fromisoformat_daily isoformat_daily false
     (run_sweeps fromisoformat_daily isoformat_daily 3 false db_daily w_flaky).1
     (run_sweeps fromisoformat_daily isoformat_daily 3 false db_daily w_flaky).2).1.1
  = (1%nat, 1%nat, 1%nat).
Proof. repeat split; by_evaluation. Qed.

(** C5 on [db_served]: over three sweeps no call is made for Alice. *)
Lemma already_sent_contact_is_skipped_witness :
  attempts "c5" "u1"
    (net_calls (run_sweeps fromisoformat_ex isoformat_ex 3 false db_served w_accepting).2)
  = attempts "c5" "u1" (net_calls w_accepting) ∧
  ∃ c', find_one "c5"
          (run_sweeps fromisoformat_ex isoformat_ex 3 false db_served w_accepting).1
        = Some c' ∧
        already_sent "u1" (results c') = true ∧
        results_of "u1" (results c') = results_of "u1" (results camp_served).
Proof.
  destruct (already_sent_contact_is_skipped fromisoformat_ex isoformat_ex false db_served
              w_accepting) as (_ & H).
  assert (Hnd : NoDup (id <$> db_campaigns db_served))
    by (apply NoDup_by_evaluation; vm_compute; reflexivity).
  apply (H Hnd 3%nat "c5" "u1" camp_served).
  - vm_compute. reflexivity.
  - vm_compute. reflexivity.
Defined.

(** ** The further properties on concrete data *)

(** X2 on [camp_two_dates], a day after the first date and on the second. *)
Lemma dates_to_process_grows_witness :
  sublist (dates_to_process fromisoformat_ex jan2 camp_two_dates)
    (dates_to_process fromisoformat_ex 1704240000 camp_two_dates) ∧
  sublist (dates_to_process fromisoformat_ex 1704240000 camp_two_dates)
    (normalized_dates camp_two_dates) ∧
  Forall (λ d, d ∉ sentDates camp_two_dates)
    (dates_to_process fromisoformat_ex 1704240000 camp_two_dates).
Proof.
  apply (dates_to_process_grows fromisoformat_ex isoformat_ex jan2 1704240000 camp_two_dates).
  unfold jan2. lia.
Defined.

Example two_dates_due_in_turn :
  dates_to_process fromisoformat_ex jan2 camp_two_dates = ["2024-01-01T00:00:00Z"] ∧
  dates_to_process fromisoformat_ex 1704240000 camp_two_dates
  = ["2024-01-01T00:00:00Z"; "2024-01-03T00:00:00Z"].
Proof. split; by_evaluation. Qed.

(** X8 on [db_mixed], over two sweeps. *)
Lemma results_stay_well_formed_witness :
  Forall2 (λ c c',
             other_channel_results (results c') = other_channel_results (results c) ∧
             (length (results c) ≤ length (results c'))%nat ∧
             (email_unique (results c) → email_unique (results c')))
    (db_campaigns db_mixed)
    (db_campaigns (run_sweeps fromisoformat_ex isoformat_ex 2 false db_mixed w_accepting).1).
Proof.
  apply (results_stay_well_formed fromisoformat_ex isoformat_ex 2 false db_mixed w_accepting).
  apply NoDup_by_evaluation. vm_compute. reflexivity.
Defined.

(** X9 on [db_single] when every call times out. *)
Lemma sent_dates_only_grow_witness :
  (∀ n, Forall2 (λ c c', sentDates c ⊆ sentDates c' ∧
                         (NoDup (sentDates c) → NoDup (sentDates c')))
          (db_campaigns db_single)
          (db_campaigns
             (run_sweeps fromisoformat_ex isoformat_ex n false db_single w_timing_out).1)) ∧
  (∀ campaign,
     find_one (id campaign) db_single = Some campaign →
     resolve_contacts campaign db_single ≠ [] →
     ∃ c', find_one (id campaign)
             (process_campaign fromisoformat_ex isoformat_ex campaign false db_single
                w_timing_out).1.2 = Some c' ∧
           dates_to_process fromisoformat_ex
             (clock w_timing_out (ticks w_timing_out)) campaign ⊆ sentDates c').
Proof.
  apply (sent_dates_only_grow fromisoformat_ex isoformat_ex false db_single w_timing_out).
  apply NoDup_by_evaluation. vm_compute. reflexivity.
Defined.

Example failed_delivery_marks_the_date :
  (λ c, (status c, sentDates c))
    <$> db_campaigns
          (process_campaign fromisoformat_ex isoformat_ex camp_single false db_single
             w_timing_out).1.2
    = [(failed, ["2024-01-01T00:00:00Z"])].
Proof. by_evaluation. Qed.

(** X10 on [db_mixed]: the completed campaign over three sweeps, while
    the other campaign of the store is processed. *)
Lemma unselected_campaign_left_alone_witness :
  find_one (id camp_completed)
    (run_sweeps fromisoformat_ex isoformat_ex 3 false db_mixed w_accepting).1
  = Some camp_completed ∧
  ∀ cid, attempts (id camp_completed) cid
           (net_calls (run_sweeps fromisoformat_ex isoformat_ex 3 false db_mixed
                         w_accepting).2)
         = attempts (id camp_completed) cid (net_calls w_accepting).
Proof.
  apply (unselected_campaign_left_alone fromisoformat_ex isoformat_ex 3 false db_mixed
           w_accepting camp_completed).
  - apply NoDup_by_evaluation. vm_compute. reflexivity.
  - left.
  - vm_compute. discriminate.
  - vm_compute. discriminate.
Defined.

(** X11 on [db_single] when every call times out: one failed call, then
    three sweeps without any. *)
Lemma total_failure_is_final_witness :
  ∃ c', find_one (id camp_single)
          (process_campaign fromisoformat_ex isoformat_ex camp_single false db_single
             w_timing_out).1.2 = Some c' ∧
        status c' = failed ∧
        dates_to_process fromisoformat_ex (clock w_timing_out (ticks w_timing_out))
          camp_single ⊆ sentDates c' ∧
        find_one (id camp_single)
          (run_sweeps fromisoformat_ex isoformat_ex 3 false
             (process_campaign fromisoformat_ex isoformat_ex camp_single false db_single
                w_timing_out).1.2
             (process_campaign fromisoformat_ex isoformat_ex camp_single false db_single
                w_timing_out).2).1 = Some c' ∧
        ∀ cid, attempts (id camp_single) cid
                 (net_calls
                    (run_sweeps fromisoformat_ex isoformat_ex 3 false
                       (process_campaign fromisoformat_ex isoformat_ex camp_single false
                          db_single w_timing_out).1.2
                       (process_campaign fromisoformat_ex isoformat_ex camp_single false
                          db_single w_timing_out).2).2)
               = attempts (id camp_single) cid
                   (net_calls
                      (process_campaign fromisoformat_ex isoformat_ex camp_single false
                         db_single w_timing_out).2).
Proof.
  apply (total_failure_is_final fromisoformat_ex isoformat_ex camp_single false db_single
           w_timing_out 0 3 false).
  - apply NoDup_by_evaluation. vm_compute. reflexivity.
  - vm_compute. reflexivity.
  - vm_compute. reflexivity.
Defined.

(** X12 on [db_single] when every call times out, over two sweeps. *)
Lemma retry_counter_tracks_calls_witness :
  ∃ c', find_one "c1"
          (run_sweeps fromisoformat_ex isoformat_ex 2 false db_single w_timing_out).1
        = Some c' ∧
        (retries_of "u1" (retryCounts camp_single) ≤ retries_of "u1" (retryCounts c'))%Z ∧
        (retries_of "u1" (retryCounts c') - retries_of "u1" (retryCounts camp_single)
         ≤ Z.of_nat (attempts "c1" "u1"
                       (net_calls (run_sweeps fromisoformat_ex isoformat_ex 2 false
                                     db_single w_timing_out).2))
           - Z.of_nat (attempts "c1" "u1" (net_calls w_timing_out)))%Z ∧
        (false = true → retryCounts c' = retryCounts camp_single).
Proof.
  apply (retry_counter_tracks_calls fromisoformat_ex isoformat_ex 2 false db_single
           w_timing_out "c1" "u1" camp_single).
  - apply NoDup_by_evaluation. vm_compute. reflexivity.
  - vm_compute. reflexivity.
Defined.

(** X13 on [camp_two_dates_email]: the first date is sent, the second is
    still to come, the campaign stays [scheduled]. *)
Lemma stored_status_agrees_with_dates_witness :
  ∃ c', find_one (id camp_two_dates_email)
          (process_campaign fromisoformat_ex isoformat_ex camp_two_dates_email false
             db_two_dates_email w_accepting).1.2 = Some c' ∧
        (status c' = completed → normalized_dates camp_two_dates_email ⊆ sentDates c') ∧
        (status c' = scheduled →
         ∃ d, d ∈ normalized_dates camp_two_dates_email ∧ (d ∉ sentDates c') ∧
              is_due fromisoformat_ex (clock w_accepting (ticks w_accepting))
                (sentDates camp_two_dates_email) d = false).
Proof.
  apply (stored_status_agrees_with_dates fromisoformat_ex isoformat_ex
           camp_two_dates_email false db_two_dates_email w_accepting).
  - vm_compute. reflexivity.
  - vm_compute. discriminate.
  - vm_compute. discriminate.
Defined.

(** X14 on two stores that record the two dates already sent in two
    orders, on the third day: a dry run against an endpoint that would
    time out, and a real run against one that accepts. *)
Lemma dry_run_is_an_accepted_run_witness :
  (run_scheduler fromisoformat_daily isoformat_daily true db_third_day
     w_third_day_timing_out).1.1
  = (run_scheduler fromisoformat_daily isoformat_daily false db_third_day_swapped
       w_third_day_accepting).1.1 ∧
  same_stores
    (run_scheduler fromisoformat_daily isoformat_daily true db_third_day
       w_third_day_timing_out).1.2
    (run_scheduler fromisoformat_daily isoformat_daily false db_third_day_swapped
       w_third_day_accepting).1.2 ∧
  same_stores
    (main fromisoformat_daily isoformat_daily true true 3 db_third_day
       w_third_day_timing_out).1
    (main fromisoformat_daily isoformat_daily true false 3 db_third_day_swapped
       w_third_day_accepting).1.
Proof.
  apply (dry_run_is_an_accepted_run fromisoformat_daily isoformat_daily true 3
           db_third_day db_third_day_swapped w_third_day_timing_out w_third_day_accepting).
  - split; [reflexivity|]. repeat constructor.
  - intros n. exists "{}", None. reflexivity.
  - reflexivity.
  - reflexivity.
Defined.

Example rehearsal_on_the_third_day :
  (run_scheduler fromisoformat_daily isoformat_daily true db_third_day
     w_third_day_timing_out).1.1 = (1%nat, 1%nat, 0%nat) ∧
  (λ c, (status c, length (sentDates c), r_status <$> results c))
    <$> db_campaigns
          (run_scheduler fromisoformat_daily isoformat_daily false db_third_day_swapped
             w_third_day_accepting).1.2
  = [(completed, 3%nat, [r_sent]); (completed, 1%nat, [r_sent; r_pending])].
Proof. split; by_evaluation. Qed.

(** X15 on [db_single] with an endpoint that accepts. *)
Lemma accepted_deliveries_are_recorded_witness :
  ∃ c', find_one (id camp_single)
          (process_campaign fromisoformat_ex isoformat_ex camp_single false db_single
             w_accepting).1.2 = Some c' ∧
        retryCounts c' = retryCounts camp_single ∧
        (∀ contact, contact ∈ resolve_contacts camp_single db_single →
           has_email contact = true →
           (retries_of (c_id contact) (retryCounts camp_single) < MAX_RETRY_ATTEMPTS)%Z
           ∨ already_sent (c_id contact) (results camp_single) = true →
           already_sent (c_id contact) (results c') = true) ∧
        (Forall (λ contact, (retries_of (c_id contact) (retryCounts camp_single)
                             < MAX_RETRY_ATTEMPTS)%Z)
           (resolve_contacts camp_single db_single) →
         (process_campaign fromisoformat_ex isoformat_ex camp_single false db_single
            w_accepting).1.1.2 = 0%nat ∧ status c' ≠ failed).
Proof.
  apply (accepted_deliveries_are_recorded fromisoformat_ex isoformat_ex camp_single false
           db_single w_accepting).
  - right. intros n. exists "{}", None. reflexivity.
  - vm_compute. reflexivity.
  - vm_compute. discriminate.
  - vm_compute. reflexivity.
Defined.
